(** * Loan-Advisor: the prepay-or-invest engine of [src/App.js]

    [App.js] holds two React components, both called [App]: the first
    ("Main App Component", lines 25-972) and the second ("Main Simplified
    App Component", lines 1003-1737).  Each has its own copy of the
    numeric helpers and of [analyzeLoan].  They are embedded here as the
    modules [Basic] and [Simplified].

    Numbers.  A JavaScript number is modelled as a real number of the
    Standard Library ([R]): arithmetic is exact, there is no rounding and
    no NaN.  The one place where the source produces an infinite value on
    purpose ([return Infinity] in [calculateNewTenure]) is modelled by the
    type [bound].  Comparisons are the decidable comparisons of [R].

    What this means for the results.  The program computes in IEEE
    double precision.  An equality between real values proved here holds
    in the program up to rounding; facts about the shape of the
    computation (which branch a guard on the inputs selects, how many
    rows a loop with a finite bound produces, which expression a field
    holds) hold as they are.  Rounding can overturn three kinds of
    facts: the whole number that [Math.ceil] returns in
    [calculateNewTenure] (its argument is, on an ordinary loan, within
    rounding distance of a whole number), the sign of a difference of
    nearly equal amounts, and the outcome of the test
    [originalEmi <= newPrincipal * monthlyRate] when both sides agree to
    the last digit.  Lemmas of these kinds are facts of exact arithmetic
    and say so; they serve to derive the closed forms. *)

From Stdlib Require Import Reals Lra Psatz Lia String ZArith Bool Arith List.
Import ListNotations.

Open Scope R_scope.

(** ** JavaScript primitives used by the engine *)

Module JS.

(** [Math.max] and [Math.min] on two finite numbers. *)
Definition Math_max (x y : R) : R := Rmax x y.
Definition Math_min (x y : R) : R := Rmin x y.

(** [Math.log] is the natural logarithm; the engine only calls it on
    arguments in (0, 1] and (1, +oo). *)
Definition Math_log (x : R) : R := ln x.

(** [Math.ceil]: the least integer not below [x]. *)
Definition ceilZ (x : R) : Z := (- Int_part (- x))%Z.
Definition Math_ceil (x : R) : R := IZR (ceilZ x).

(** [Math.pow x y].  For a positive base it is [exp (y * ln x)]; for a
    base [x <= 0] JavaScript gives a finite number only at integer
    exponents, where it is the integer power.  The remaining cases (NaN
    for a negative base with a fractional exponent, Infinity for base 0
    with a negative exponent) have no real value; what the model returns
    there carries no meaning, and no property below relies on it. *)
Definition Math_pow (x y : R) : R :=
  if Rlt_dec 0 x then Rpower x y
  else if Req_dec_T y (IZR (Int_part y)) then powerRZ x (Int_part y)
  else 0.

(** A number that is a loop bound: finite, or the value [Infinity]. *)
Inductive bound : Type :=
| Fin (m : R)
| Infinity.

(** Number of iterations of [for (let i = 1; i <= months; i++)] when the
    body never breaks: the integers [i >= 1] with [i <= months]. *)
Definition iterations (months : R) : nat := Z.to_nat (Int_part months).

(** A JavaScript array with holes: [None] is an empty slot. *)
Definition array (A : Type) : Type := list (option A).

(** [a[k]]: [None] stands for [undefined] (hole or out of range). *)
Definition array_get {A : Type} (a : array A) (k : nat) : option A :=
  match nth_error a k with
  | Some (Some v) => Some v
  | _ => None
  end.

(** [a[k] = v]: in range the slot is replaced, out of range the array is
    extended with holes up to index [k]. *)
Fixpoint array_set {A : Type} (a : array A) (k : nat) (v : A) : array A :=
  match k, a with
  | O, [] => [Some v]
  | O, _ :: t => Some v :: t
  | S k', [] => None :: array_set [] k' v
  | S k', x :: t => x :: array_set t k' v
  end.

(** [a.forEach(f)] visits the filled slots in index order; [elements]
    lists them. *)
Fixpoint elements {A : Type} (a : array A) : list A :=
  match a with
  | [] => []
  | Some v :: t => v :: elements t
  | None :: t => elements t
  end.

(** [l.forEach((x, i) => ...)] on a dense array, threading the variables
    the callback updates as a state [st]; [i] is the index of the first
    element of [l]. *)
Fixpoint forEach {A St : Type} (f : St -> A -> nat -> St)
    (l : list A) (i : nat) (st : St) : St :=
  match l with
  | [] => st
  | x :: t => forEach f t (S i) (f st x i)
  end.

(** Sequencing of computations that may not return. *)
Definition bind {A B : Type} (c : option A) (k : A -> option B) : option B :=
  match c with
  | Some a => k a
  | None => None
  end.

End JS.

Notation "x <- c ;; k" := (JS.bind c (fun x => k))
  (at level 61, c at next level, right associativity).

Import JS.

(** ** The first component: "Main App Component" *)

Module Basic.

(** Constants (lines 41-42). *)
Definition SECTION_24B_SELF_OCCUPIED_LIMIT_PER_PERSON : R := 200000.
Definition SECTION_80C_LIMIT : R := 150000.

(** [calculateEMI] (lines 45-52). *)
Definition calculateEMI (principal annualRate months : R) : R :=
  if Rle_dec principal 0 then 0
  else if Rle_dec annualRate 0 then 0
  else if Rle_dec months 0 then 0
  else
    let monthlyRate := annualRate / 100 / 12 in
    (principal * monthlyRate * Math_pow (1 + monthlyRate) months) /
    (Math_pow (1 + monthlyRate) months - 1).

(** [calculateFutureValue] (lines 55-63). *)
Definition calculateFutureValue (principal annualReturnRate months : R) : R :=
  if Rle_dec principal 0 then principal
  else if Rlt_dec annualReturnRate 0 then principal
  else if Rle_dec months 0 then principal
  else
    let monthlyReturnRate := annualReturnRate / 100 / 12 in
    principal * Math_pow (1 + monthlyReturnRate) months.

(** An entry of the yearly schedule (lines 86-91). *)
Record YearRow : Type := mkYearRow {
  year : nat;
  annualInterest : R;
  annualPrincipal : R;
  remainingBalance : R
}.

(** The variables the loop of [getAmortizationSchedule] updates (lines
    70-74). *)
Record LoopState : Type := mkLoopState {
  balance : R;
  schedule : list YearRow;
  currentYearInterest : R;
  currentYearPrincipal : R;
  currentYear : nat
}.

(** The body of the loop (lines 77-95) at month [i]. *)
Definition scheduleStep (months monthlyRate emi : R) (i : nat)
    (st : LoopState) : LoopState :=
  let interestForMonth := balance st * monthlyRate in
  let principalForMonth := emi - interestForMonth in
  let balance' := balance st - principalForMonth in
  let currentYearInterest' := currentYearInterest st + interestForMonth in
  let currentYearPrincipal' := currentYearPrincipal st + principalForMonth in
  if orb (Nat.eqb (i mod 12) 0)
         (if Req_dec_T (INR i) months then true else false)
  then
    mkLoopState balance'
      (schedule st ++
         [mkYearRow (currentYear st) currentYearInterest'
                    currentYearPrincipal' balance'])
      0 0 (S (currentYear st))
  else
    mkLoopState balance' (schedule st)
      currentYearInterest' currentYearPrincipal' (currentYear st).

(** [for (let i = 1; i <= months; i++)]: [count] values of [i] remain. *)
Fixpoint scheduleLoop (count : nat) (i : nat) (months monthlyRate emi : R)
    (st : LoopState) : LoopState :=
  match count with
  | O => st
  | S count' =>
      scheduleLoop count' (S i) months monthlyRate emi
        (scheduleStep months monthlyRate emi i st)
  end.

(** [getAmortizationSchedule] (lines 66-100). *)
Definition getAmortizationSchedule (principal annualRate months : R)
  : list YearRow :=
  let monthlyRate := annualRate / 100 / 12 in
  let emi := calculateEMI principal annualRate months in
  schedule
    (scheduleLoop (iterations months) 1 months monthlyRate emi
       (mkLoopState principal [] 0 0 1)).

(** The state of the component that [analyzeLoan] reads (lines 27-35),
    when its numeric fields hold numbers.  The handlers of this component
    store [Math.max(0, parseFloat(e.target.value))] (lines 461-560), which
    is NaN once a field is emptied; such a state is outside this record,
    and nothing below speaks about it. *)
Record Inputs : Type := mkInputs {
  loanAmount : R;
  interestRate : R;
  tenureYears : R;
  extraCash : R;
  investmentReturn : R;
  taxRegime : string;
  isSelfOccupied : bool;
  isJointLoan : bool;
  taxSlab : R
}.

(** [isSelfOccupied ? (isJointLoan ? LIMIT * 2 : LIMIT)
                    : amortization[0]?.annualInterest || 0]
    (lines 141-145 and 213-217). *)
Definition effective24bLimit (selfOccupied jointLoan : bool)
    (amortization : list YearRow) : R :=
  if selfOccupied then
    if jointLoan then SECTION_24B_SELF_OCCUPIED_LIMIT_PER_PERSON * 2
    else SECTION_24B_SELF_OCCUPIED_LIMIT_PER_PERSON
  else
    match amortization with
    | [] => 0
    | yearData :: _ => annualInterest yearData
    end.

(** The variables the deduction loop updates: total deductible
    interest, total deductible principal, and the two first-year
    amounts. *)
Record Deductions : Type := mkDeductions {
  totalDeductibleInterest : R;
  totalDeductiblePrincipal : R;
  firstYearDeductibleInterest : R;
  firstYearDeductiblePrincipal : R
}.

(** The callback of [amortization.forEach((yearData, index) => ...)]
    (lines 147-173 and 219-239). *)
Definition deductionStep (selfOccupied : bool) (limit24b : R)
    (st : Deductions) (yearData : YearRow) (index : nat) : Deductions :=
  let interestDeduction :=
    if selfOccupied then Math_min (annualInterest yearData) limit24b
    else annualInterest yearData in
  let principalDeduction :=
    Math_min (annualPrincipal yearData) SECTION_80C_LIMIT in
  mkDeductions
    (totalDeductibleInterest st + interestDeduction)
    (totalDeductiblePrincipal st + principalDeduction)
    (if Nat.eqb index 0 then interestDeduction
     else firstYearDeductibleInterest st)
    (if Nat.eqb index 0 then principalDeduction
     else firstYearDeductiblePrincipal st).

Definition deductions (selfOccupied : bool) (limit24b : R)
    (amortization : list YearRow) : Deductions :=
  forEach (deductionStep selfOccupied limit24b) amortization 0%nat
    (mkDeductions 0 0 0 0).

(** The object passed to [setResults] (lines 314-340), without
    [graphData]. *)
Record Results : Type := mkResults {
  originalEMI : R;
  newEMI : R;
  interestSaved : R;
  investmentGain : R;
  originalLoanTaxBenefit : R;
  prepaidLoanTaxBenefit : R;
  netBenefitInvesting : R;
  netBenefitPrepaying : R;
  betterOption : string;
  originalLoanDeductions : Deductions;
  prepaidLoanDeductions : Deductions;
  effective24bLimitOriginal : R;
  effective24bLimitPrepaid : R
}.

(** [analyzeLoan] (lines 103-340); the chart data (lines 263-312) is not
    modelled. *)
Definition analyzeLoan (inp : Inputs) : Results :=
  let currentLoanAmount := loanAmount inp in
  let currentInterestRate := interestRate inp in
  let currentTenureYears := tenureYears inp in
  let currentExtraCash := extraCash inp in
  let currentInvestmentReturn := investmentReturn inp in
  let currentTaxSlab := taxSlab inp in
  let totalMonths := currentTenureYears * 12 in
  (* Scenario 1: continue loan and invest extra cash *)
  let originalEMI :=
    calculateEMI currentLoanAmount currentInterestRate totalMonths in
  let totalInterestOriginal := originalEMI * totalMonths - currentLoanAmount in
  let futureValueOfInvestment :=
    calculateFutureValue currentExtraCash currentInvestmentReturn totalMonths in
  let investmentGain := futureValueOfInvestment - currentExtraCash in
  let '(originalLoanTaxBenefit, originalDed, effective24bLimitOriginal) :=
    if String.eqb (taxRegime inp) "old" then
      let originalAmortization :=
        getAmortizationSchedule currentLoanAmount currentInterestRate
          totalMonths in
      let limit :=
        effective24bLimit (isSelfOccupied inp) (isJointLoan inp)
          originalAmortization in
      let d := deductions (isSelfOccupied inp) limit originalAmortization in
      ((totalDeductibleInterest d + totalDeductiblePrincipal d) *
         (currentTaxSlab / 100), d, limit)
    else (0, mkDeductions 0 0 0 0, 0) in
  (* Scenario 2: prepay loan *)
  let newLoanAmount := currentLoanAmount - currentExtraCash in
  let '(newEMI, totalInterestAfterPrepay, interestSaved) :=
    if Rgt_dec newLoanAmount 0 then
      let newEMI := calculateEMI newLoanAmount currentInterestRate totalMonths in
      let totalInterestAfterPrepay := newEMI * totalMonths - newLoanAmount in
      (newEMI, totalInterestAfterPrepay,
       totalInterestOriginal - totalInterestAfterPrepay)
    else (0, 0, totalInterestOriginal) in
  let '(prepaidLoanTaxBenefit, prepaidDed, effective24bLimitPrepaid) :=
    if andb (String.eqb (taxRegime inp) "old")
            (if Rgt_dec newLoanAmount 0 then true else false)
    then
      let prepaidAmortization :=
        getAmortizationSchedule newLoanAmount currentInterestRate
          totalMonths in
      let limit :=
        effective24bLimit (isSelfOccupied inp) (isJointLoan inp)
          prepaidAmortization in
      let d := deductions (isSelfOccupied inp) limit prepaidAmortization in
      ((totalDeductibleInterest d + totalDeductiblePrincipal d) *
         (currentTaxSlab / 100), d, limit)
    else (0, mkDeductions 0 0 0 0, 0) in
  (* net result comparison *)
  let netBenefitInvesting := investmentGain + originalLoanTaxBenefit in
  let netBenefitPrepaying := interestSaved + prepaidLoanTaxBenefit in
  let betterOption :=
    if Rgt_dec netBenefitInvesting netBenefitPrepaying
    then "Invest"%string else "Prepay"%string in
  {| originalEMI := originalEMI;
     newEMI := newEMI;
     interestSaved := interestSaved;
     investmentGain := investmentGain;
     originalLoanTaxBenefit := originalLoanTaxBenefit;
     prepaidLoanTaxBenefit := prepaidLoanTaxBenefit;
     netBenefitInvesting := netBenefitInvesting;
     netBenefitPrepaying := netBenefitPrepaying;
     betterOption := betterOption;
     originalLoanDeductions := originalDed;
     prepaidLoanDeductions := prepaidDed;
     effective24bLimitOriginal := effective24bLimitOriginal;
     effective24bLimitPrepaid := effective24bLimitPrepaid |}.

End Basic.

(** ** The second component: "Main Simplified App Component" *)

Module Simplified.

(** Constants (lines 1026-1029). *)
Definition SECTION_24B_SOP_LIMIT : R := 200000.
Definition SECTION_80C_LIMIT : R := 150000.
Definition EQUITY_LTCG_TAX_RATE : R := 1 / 10.
Definition EQUITY_LTCG_EXEMPTION : R := 100000.

(** [calculateEMI] (lines 1033-1040). *)
Definition calculateEMI (p r n : R) : R :=
  if Rle_dec p 0 then 0
  else if Rle_dec r 0 then 0
  else if Rle_dec n 0 then 0
  else
    let monthlyRate := r / 100 / 12 in
    (p * monthlyRate * Math_pow (1 + monthlyRate) n) /
    (Math_pow (1 + monthlyRate) n - 1).

(** [calculateNewTenure] (lines 1042-1054).  The guards and the
    expression are those of the source, evaluated exactly; the source
    evaluates [Math.log], the quotient and [Math.ceil] in double
    precision, so the number of months it returns can differ by one from
    the value of this function, and at the boundary of the test
    [originalEmi <= newPrincipal * monthlyRate] it can return [Infinity]
    where this function returns a finite bound. *)
Definition calculateNewTenure (newPrincipal originalEmi annualRate : R) : bound :=
  if Rle_dec newPrincipal 0 then Fin 0
  else if Rle_dec originalEmi 0 then Fin 0
  else if Rle_dec annualRate 0 then Fin 0
  else
    let monthlyRate := annualRate / 100 / 12 in
    if Rle_dec originalEmi (newPrincipal * monthlyRate) then Infinity
    else
      let numerator := Math_log (1 - (newPrincipal * monthlyRate) / originalEmi) in
      let denominator := Math_log (1 + monthlyRate) in
      Fin (Math_ceil (- numerator / denominator)).

(** One row of the schedule (lines 1067-1073). *)
Record Row : Type := mkRow {
  month : nat;
  interest : R;
  principal : R;
  totalPayment : R;
  endingBalance : R
}.

(** The body of the loop of [generateFullAmortization] up to the [push]
    (lines 1063-1073): the row of month [i] from the running balance. *)
Definition amortRow (monthlyRate emi balance : R) (i : nat) : Row :=
  let interestForMonth := balance * monthlyRate in
  let principalForMonth := Math_max 0 (emi - interestForMonth) in
  let balance1 := balance - principalForMonth in
  let balance2 := if Rlt_dec balance1 0 then 0 else balance1 in
  mkRow i interestForMonth principalForMonth emi balance2.

(** The loop with a finite bound: [count] is the number of values of [i]
    that still pass the test [i <= months]; [if (balance === 0) break]
    ends it early. *)
Fixpoint amortLoop (count : nat) (i : nat) (monthlyRate emi balance : R)
  : list Row :=
  match count with
  | O => []
  | S count' =>
      let row := amortRow monthlyRate emi balance i in
      if Req_dec_T (endingBalance row) 0 then [row]
      else row :: amortLoop count' (S i) monthlyRate emi (endingBalance row)
  end.

(** The loop when [months] is [Infinity]: the test [i <= months] always
    passes, only the [break] ends it.  [fuel] bounds the iterations the
    model runs; [None] means the loop is still running. *)
Fixpoint amortLoopInf (fuel : nat) (i : nat) (monthlyRate emi balance : R)
  : option (list Row) :=
  match fuel with
  | O => None
  | S fuel' =>
      let row := amortRow monthlyRate emi balance i in
      if Req_dec_T (endingBalance row) 0 then Some [row]
      else option_map (cons row)
             (amortLoopInf fuel' (S i) monthlyRate emi (endingBalance row))
  end.

(** [generateFullAmortization] (lines 1056-1079). *)
Definition generateFullAmortization (fuel : nat)
    (principal annualRate : R) (months : bound) (emi : R)
  : option (list Row) :=
  if Rle_dec principal 0 then Some []
  else if Rle_dec emi 0 then Some []
  else
    let monthlyRate := annualRate / 100 / 12 in
    match months with
    | Fin m => Some (amortLoop (iterations m) 1 monthlyRate emi principal)
    | Infinity => amortLoopInf fuel 1 monthlyRate emi principal
    end.

(** The state of the component that [analyzeLoan] reads (lines
    1007-1020).  [InputGroup] stores [parseFloat(value) || 0], so the
    numeric fields are numbers; the radio groups store strings. *)
Record Inputs : Type := mkInputs {
  loanAmount : R;
  interestRate : R;
  tenureYears : R;
  extraCash : R;
  investmentReturn : R;
  investmentType : string;
  taxRegime : string;
  taxSlab : R;
  used80C : R;
  prepaymentMethod : string
}.

(** An entry of [yearlyData] (lines 1122-1126). *)
Module Year.
Record t : Type := mk { year : nat; interest : R; principal : R }.
End Year.

(** The callback of [amortization.forEach((monthData, i) => ...)] (lines
    1120-1130 and, the same text, 1177-1187); the state is
    [(yearlyData, currentYear)]. *)
Definition yearlyStep (st : array Year.t * nat) (monthData : Row) (i : nat)
  : array Year.t * nat :=
  let '(yearlyData, currentYear) := st in
  let yearlyData1 :=
    match array_get yearlyData (currentYear - 1) with
    | None => array_set yearlyData (currentYear - 1) (Year.mk currentYear 0 0)
    | Some _ => yearlyData
    end in
  let yearlyData2 :=
    match array_get yearlyData1 (currentYear - 1) with
    | Some y =>
        array_set yearlyData1 (currentYear - 1)
          (Year.mk (Year.year y)
                   (Year.interest y + interest monthData)
                   (Year.principal y + principal monthData))
    | None => yearlyData1
    end in
  let currentYear' :=
    if Nat.eqb ((i + 1) mod 12) 0 then S currentYear else currentYear in
  (yearlyData2, currentYear').

Definition buildYearlyData (amortization : list Row) : array Year.t :=
  fst (forEach yearlyStep amortization 0%nat ([], 1%nat)).

(** The callback of [yearlyData.forEach((year) => ...)] (lines 1131-1139
    and 1188-1196); the state is the running tax benefit. *)
Definition deductionStep (available80C slab : R) (benefit : R) (year : Year.t)
  : R :=
  let principalDeduction := Math_min (Year.principal year) available80C in
  let interestDeduction :=
    Math_min (Year.interest year) SECTION_24B_SOP_LIMIT in
  let totalDeduction := principalDeduction + interestDeduction in
  benefit + totalDeduction * slab.

(** Lines 1118-1139 (original loan) and 1175-1196 (prepaid loan): the two
    copies differ only in the schedule they read. *)
Definition loanTaxBenefit (amortization : list Row) (available80C slab : R)
  : R :=
  fold_left (deductionStep available80C slab)
            (elements (buildYearlyData amortization)) 0.

(** [amortization.reduce((acc, row) => acc + row.interest, 0)]. *)
Definition totalInterest (amortization : list Row) : R :=
  fold_left (fun acc row => acc + interest row) amortization 0.

(** The object passed to [setResults] (lines 1242-1262), without
    [graphData] and without the echoed inputs [taxSlab] and
    [investmentType]. *)
Record Results : Type := mkResults {
  originalEmi : R;
  newEmi : R;
  interestSaved : R;
  investmentGain : R;
  postTaxInvestmentGain : R;
  originalLoanTaxBenefit : R;
  prepaidLoanTaxBenefit : R;
  netBenefitInvesting : R;
  netBenefitPrepaying : R;
  betterOption : string;
  originalTenureMonths : R;
  newTenureMonths : bound;
  effectiveLoanRate : R;
  originalAmortization : list Row;
  prepaidAmortization : list Row;
  investmentTax : R
}.

(** What "Scenario 2: Prepay Loan" (lines 1144-1204) leaves in its
    variables [newEmi], [newTenureMonths], [interestSaved],
    [prepaidAmortization] and [prepaidLoanTaxBenefit]. *)
Definition Prepaid : Type := (R * bound * R * list Row * R)%type.

(** Lines 1145-1204 of [analyzeLoan]. *)
Definition prepayLoan (fuel : nat) (inp : Inputs)
    (originalEmi totalInterestOriginal : R) : option Prepaid :=
  let p := loanAmount inp in
  let r := interestRate inp in
  let n := tenureYears inp * 12 in
  let cash := extraCash inp in
  let slab := taxSlab inp / 100 in
  let available80C := Math_max 0 (SECTION_80C_LIMIT - used80C inp) in
  let newLoanAmount := p - cash in
  if Rgt_dec newLoanAmount 0 then
    let '(newEmi, newTenureMonths) :=
      if String.eqb (prepaymentMethod inp) "reduceEmi"
      then (calculateEMI newLoanAmount r n, Fin n)
      else (originalEmi, calculateNewTenure newLoanAmount originalEmi r) in
    prepaidAmortization <-
      generateFullAmortization fuel newLoanAmount r newTenureMonths newEmi ;;
    let totalInterestAfterPrepay := totalInterest prepaidAmortization in
    let interestSaved := totalInterestOriginal - totalInterestAfterPrepay in
    let prepaidLoanTaxBenefit :=
      if String.eqb (taxRegime inp) "old"
      then loanTaxBenefit prepaidAmortization available80C slab
      else 0 in
    Some (newEmi, newTenureMonths, interestSaved, prepaidAmortization,
          prepaidLoanTaxBenefit)
  else
    (* loan fully paid off *)
    Some (0, Fin 0, totalInterestOriginal, [], 0).

(** [analyzeLoan] (lines 1082-1262), up to the final decision; the chart
    data (lines 1212-1239) is not modelled. *)
Definition analyzeLoan (fuel : nat) (inp : Inputs) : option Results :=
  let p := loanAmount inp in
  let r := interestRate inp in
  let n := tenureYears inp * 12 in
  let cash := extraCash inp in
  let invReturn := investmentReturn inp in
  let slab := taxSlab inp / 100 in
  let available80C := Math_max 0 (SECTION_80C_LIMIT - used80C inp) in
  (* Scenario 1: continue loan and invest extra cash *)
  let originalEmi := calculateEMI p r n in
  originalAmortization <- generateFullAmortization fuel p r (Fin n) originalEmi ;;
  let totalInterestOriginal := totalInterest originalAmortization in
  let futureValue := cash * Math_pow (1 + invReturn / 100) (tenureYears inp) in
  let investmentGain := futureValue - cash in
  let investmentTax :=
    if String.eqb (investmentType inp) "equity" then
      let taxableGain := Math_max 0 (investmentGain - EQUITY_LTCG_EXEMPTION) in
      taxableGain * EQUITY_LTCG_TAX_RATE
    else investmentGain * slab in
  let postTaxInvestmentGain := investmentGain - investmentTax in
  let originalLoanTaxBenefit :=
    if String.eqb (taxRegime inp) "old"
    then loanTaxBenefit originalAmortization available80C slab
    else 0 in
  let netBenefitInvesting := postTaxInvestmentGain + originalLoanTaxBenefit in
  (* Scenario 2: prepay loan *)
  prepaid <- prepayLoan fuel inp originalEmi totalInterestOriginal ;;
  let '(newEmi, newTenureMonths, interestSaved, prepaidAmortization,
        prepaidLoanTaxBenefit) := prepaid in
  let netBenefitPrepaying := interestSaved + prepaidLoanTaxBenefit in
  (* final decision *)
  let betterOption :=
    if Rgt_dec netBenefitInvesting netBenefitPrepaying
    then "Invest"%string else "Prepay"%string in
  let effectiveLoanRate := r * (1 - slab) in
  Some {| originalEmi := originalEmi;
          newEmi := newEmi;
          interestSaved := interestSaved;
          investmentGain := investmentGain;
          postTaxInvestmentGain := postTaxInvestmentGain;
          originalLoanTaxBenefit := originalLoanTaxBenefit;
          prepaidLoanTaxBenefit := prepaidLoanTaxBenefit;
          netBenefitInvesting := netBenefitInvesting;
          netBenefitPrepaying := netBenefitPrepaying;
          betterOption := betterOption;
          originalTenureMonths := n;
          newTenureMonths := newTenureMonths;
          effectiveLoanRate := effectiveLoanRate;
          originalAmortization := originalAmortization;
          prepaidAmortization := prepaidAmortization;
          investmentTax := investmentTax |}.

End Simplified.

(** ** Definitions used to state the properties *)

(** Each element is at most its predecessor, the first one at most [b]. *)
Fixpoint nonincreasing_from (b : R) (l : list R) : Prop :=
  match l with
  | [] => True
  | x :: t => x <= b /\ nonincreasing_from x t
  end.

Definition nonincreasing (l : list R) : Prop :=
  match l with
  | [] => True
  | x :: t => nonincreasing_from x t
  end.

(** What the loop guarantees for a single row. *)
Definition row_ok (emi : R) (row : Simplified.Row) : Prop :=
  Simplified.totalPayment row = emi /\
  0 <= Simplified.principal row /\
  0 <= Simplified.endingBalance row /\
  (Simplified.interest row <= emi ->
   Simplified.interest row + Simplified.principal row = emi) /\
  (emi < Simplified.interest row -> Simplified.principal row = 0).

(** The reduce-tenure path meets the never-amortizes sentinel, as this
    model computes it: then, and only then, does [analyzeLoan] fail to
    return. *)
Definition loops_forever (inp : Simplified.Inputs) : Prop :=
  Simplified.loanAmount inp - Simplified.extraCash inp > 0 /\
  String.eqb (Simplified.prepaymentMethod inp) "reduceEmi" = false /\
  Simplified.calculateNewTenure
    (Simplified.loanAmount inp - Simplified.extraCash inp)
    (Simplified.calculateEMI (Simplified.loanAmount inp)
       (Simplified.interestRate inp) (Simplified.tenureYears inp * 12))
    (Simplified.interestRate inp) = Infinity.

(** No loan and no cash: both net benefits are 0, and the tie goes to
    "Prepay". *)
Definition tie_inputs : Simplified.Inputs :=
  Simplified.mkInputs 0 12 1 0 10 "equity" "new" 30 0 "reduceTenure".

Definition tie_inputs_basic : Basic.Inputs :=
  Basic.mkInputs 0 12 1 0 10 "new" true false 30.

(** A loan of 100 retired by 250 in cash. *)
Definition retired_inputs : Simplified.Inputs :=
  Simplified.mkInputs 100 12 1 250 10 "fd" "old" 30 0 "reduceEmi".


(** 100 invested for one year at 12% in the first component. *)
Definition one_year_inputs_basic : Basic.Inputs :=
  Basic.mkInputs 1000 12 1 100 12 "new" true false 30.

(** 500 invested for two years at 10% in equity: the gain is 105, below
    the exemption, and is not taxed. *)
Definition small_equity_inputs : Simplified.Inputs :=
  Simplified.mkInputs 100 12 2 500 10 "equity" "old" 30 0 "reduceEmi".

(** A loan of 1000 at 12% over one year, 100 of it prepaid. *)
Definition reduce_tenure_inputs : Simplified.Inputs :=
  Simplified.mkInputs 1000 12 1 100 10 "equity" "old" 30 0 "reduceTenure".

(** A loan of 100 with "extra cash" of -100000: the balance to repay
    becomes 100100. *)
Definition negative_cash_inputs : Simplified.Inputs :=
  Simplified.mkInputs 100 12 1 (-100000) 10 "equity" "old" 30 0 "reduceTenure".

(** Inputs on which the prepaid schedule is built under a finite bound
    whatever the tenure solver answers: the installment is reduced, or
    the cash covers the loan. *)
Definition finite_bound (inp : Simplified.Inputs) : Prop :=
  String.eqb (Simplified.prepaymentMethod inp) "reduceEmi" = true \/
  Simplified.loanAmount inp <= Simplified.extraCash inp.

(** A loan of 5000000 at 12% over two years, 1000000 of it prepaid with
    the installment reduced; the cash would otherwise go to a fixed
    deposit at 10%; 50000 of the 80C allowance is already used. *)
Definition two_year_inputs : Simplified.Inputs :=
  Simplified.mkInputs 5000000 12 2 1000000 10 "fd" "old" 30 50000 "reduceEmi".

(** The same loan under tax regime "new". *)
Definition two_year_new_inputs : Simplified.Inputs :=
  Simplified.mkInputs 5000000 12 2 1000000 10 "fd" "new" 30 50000 "reduceEmi".

(** In the first component: a loan of 1000 at 12% over one year, 100 of
    it prepaid, under tax regime "new". *)
Definition new_regime_inputs_basic : Basic.Inputs :=
  Basic.mkInputs 1000 12 1 100 10 "new" true false 30.

(** 1000000 invested for one year at 12% in the first component: a gain
    above 100000. *)
Definition taxed_gain_inputs_basic : Basic.Inputs :=
  Basic.mkInputs 5000000 12 1 1000000 12 "new" true false 30.

(** Groups of [size] consecutive elements, in order; the trailing group
    may be shorter. *)
Fixpoint chunks {A : Type} (fuel size : nat) (l : list A) : list (list A) :=
  match fuel, l with
  | O, _ => []
  | _, [] => []
  | S fuel', _ => firstn size l :: chunks fuel' size (skipn size l)
  end.

(** The years of a schedule: its rows in groups of 12. *)
Definition years (sched : list Simplified.Row) : list (list Simplified.Row) :=
  chunks (length sched) 12 sched.

Definition sumR (l : list R) : R := fold_right Rplus 0 l.

Definition annualInterest (y : list Simplified.Row) : R :=
  sumR (map Simplified.interest y).

Definition annualPrincipal (y : list Simplified.Row) : R :=
  sumR (map Simplified.principal y).

(** The allowance left under section 80C, fixed for a scenario. *)
Definition remainingPrincipalAllowance (used : R) : R :=
  Rmax 0 (Simplified.SECTION_80C_LIMIT - used).

Definition interestDeduction (y : list Simplified.Row) : R :=
  Rmin (annualInterest y) Simplified.SECTION_24B_SOP_LIMIT.

Definition principalDeduction (allowance : R) (y : list Simplified.Row) : R :=
  Rmin (annualPrincipal y) allowance.

(** The total tax benefit in the words of the specification: the sum over
    the years of (interest deduction + principal deduction) times the
    slab fraction. *)
Definition totalTaxBenefit (sched : list Simplified.Row) (used slab : R) : R :=
  sumR (map (fun y =>
               (interestDeduction y
                + principalDeduction (remainingPrincipalAllowance used) y)
               * slab)
            (years sched)).

(** The entries [yearlyData] holds for consecutive years starting at year
    [k], with the sums accumulated the way the callback does. *)
Fixpoint aggregates (k : nat) (ys : list (list Simplified.Row))
  : list Simplified.Year.t :=
  match ys with
  | [] => []
  | y :: t =>
      Simplified.Year.mk k
        (fold_left (fun a row => a + Simplified.interest row) y 0)
        (fold_left (fun a row => a + Simplified.principal row) y 0)
      :: aggregates (S k) t
  end.

(** The balance after [j] installments of [emi] on a principal of [P] at
    monthly rate [mr], when no clamp applies. *)
Definition unclampedBalance (P mr emi : R) (j : nat) : R :=
  P * (1 + mr) ^ j - emi * ((1 + mr) ^ j - 1) / mr.

(** The rows of months [i], [i+1], ... for the installments number
    [j+1], [j+2], ... of a loan that the installment amortizes. *)
Fixpoint payoffRows (P mr emi : R) (rem i j : nat) : list Simplified.Row :=
  match rem with
  | O => []
  | S rem' =>
      Simplified.mkRow i
        (unclampedBalance P mr emi j * mr)
        (emi - unclampedBalance P mr emi j * mr)
        emi
        (Rmax 0 (unclampedBalance P mr emi (S j)))
      :: payoffRows P mr emi rem' (S i) (S j)
  end.

(** The real number of months after which installments of [emi] retire
    a principal of [P] at monthly rate [mr]. *)
Definition payoffTime (P mr emi : R) : R :=
  - ln (1 - P * mr / emi) / ln (1 + mr).

(** A loan of 1000 at 12% over one year, 100 of it prepaid, the
    installment reduced. *)
Definition reduce_emi_inputs : Simplified.Inputs :=
  Simplified.mkInputs 1000 12 1 100 10 "equity" "old" 30 0 "reduceEmi".

(** A loan of 1000 at 0% over ten years, 100 of it prepaid. *)
Definition zero_rate_inputs : Simplified.Inputs :=
  Simplified.mkInputs 1000 0 10 100 10 "equity" "old" 30 0 "reduceTenure".

Definition zero_rate_inputs_basic : Basic.Inputs :=
  Basic.mkInputs 1000 0 10 100 10 "new" true false 30.

(** A loan of 1000 at 12% over one year, 100 of it prepaid. *)
Definition prepay_inputs_basic : Basic.Inputs :=
  Basic.mkInputs 1000 12 1 100 10 "old" true false 30.

(** The interest of a year that the first component deducts: capped for
    a self-occupied property, whole for a let-out one. *)
Definition Basic_interestDeduction (selfOccupied : bool) (limit24b : R)
    (y : Basic.YearRow) : R :=
  if selfOccupied then Rmin (Basic.annualInterest y) limit24b
  else Basic.annualInterest y.

Definition Basic_principalDeduction (y : Basic.YearRow) : R :=
  Rmin (Basic.annualPrincipal y) Basic.SECTION_80C_LIMIT.

(** A tenure of five and a half months. *)
Definition half_year_months : R := 11 / 2.

(** A let-out property: loan of 1000 at 12% over one year. *)
Definition let_out_inputs_basic : Basic.Inputs :=
  Basic.mkInputs 1000 12 1 100 10 "old" false false 30.

(** The chart data of the second component (lines 1212-1239 of
    [analyzeLoan]), from the inputs and from the values the earlier part
    of [analyzeLoan] leaves in [originalAmortization],
    [prepaidAmortization] and [newTenureMonths]. *)
Module Chart.

(** [parseFloat(x.toFixed(digits))]: [x.toFixed] writes the decimal with
    [digits] places nearest to [x], the one of larger magnitude on a
    tie, and [parseFloat] reads it back. *)
Definition toFixed (digits : nat) (x : R) : R :=
  if Rlt_dec x 0
  then - (IZR (Int_part (- x * 10 ^ digits + 1 / 2)) / 10 ^ digits)
  else IZR (Int_part (x * 10 ^ digits + 1 / 2)) / 10 ^ digits.

(** An element of [graphData]; the keys "Investment Value",
    "Interest (Original)" and "Interest (Prepaid)" are written with
    underscores. *)
Record Point : Type := mkPoint {
  year : nat;
  Investment_Value : R;
  Interest_Original : R;
  Interest_Prepaid : R
}.

(** [amortization.slice(0, n).reduce((acc, row) => acc + row.interest, 0)]. *)
Definition interestUpTo (n : nat) (amortization : list Simplified.Row) : R :=
  Simplified.totalInterest (firstn n amortization).

(** [year <= newTenureMonths / 12]. *)
Definition within (year : nat) (newTenureMonths : bound) : bool :=
  match newTenureMonths with
  | Fin m => if Rle_dec (INR year) (m / 12) then true else false
  | Infinity => true
  end.

(** The variables the loop updates: the two cumulative interests and
    [graphData]. *)
Definition State : Type := (R * R * list Point)%type.

(** The body of the loop for one [year] (lines 1220-1238). *)
Definition graphStep (inp : Simplified.Inputs) (res : Simplified.Results)
    (year : nat) (st : State) : State :=
  let '(cumulativeOriginalInterest, cumulativePrepaidInterest, graphData) :=
    st in
  let cumulativeOriginalInterest' :=
    if Rle_dec (INR year) (Simplified.tenureYears inp)
    then interestUpTo (year * 12) (Simplified.originalAmortization res)
    else cumulativeOriginalInterest in
  let cumulativePrepaidInterest' :=
    if within year (Simplified.newTenureMonths res)
    then interestUpTo (year * 12) (Simplified.prepaidAmortization res)
    else cumulativePrepaidInterest in
  let investmentValueAtYear :=
    Simplified.extraCash inp
    * Math_pow (1 + Simplified.investmentReturn inp / 100) (INR year) in
  (cumulativeOriginalInterest', cumulativePrepaidInterest',
   graphData ++
     [mkPoint year (toFixed 0 investmentValueAtYear)
        (toFixed 0 cumulativeOriginalInterest')
        (toFixed 0 cumulativePrepaidInterest')]).

(** [for (let year = 1; year <= maxYears; year++)]: [count] values of
    [year] remain. *)
Fixpoint graphLoop (inp : Simplified.Inputs) (res : Simplified.Results)
    (count year : nat) (st : State) : State :=
  match count with
  | O => st
  | S count' =>
      graphLoop inp res count' (S year) (graphStep inp res year st)
  end.

Definition maxYears (res : Simplified.Results) : R :=
  Math_ceil
    (Math_max (INR (length (Simplified.originalAmortization res)))
              (INR (length (Simplified.prepaidAmortization res))) / 12).

Definition graphData (inp : Simplified.Inputs) (res : Simplified.Results)
  : list Point :=
  snd (graphLoop inp res (iterations (maxYears res)) 1 (0, 0, [])).

End Chart.

(** The last year, up to [y], that passes the test
    [year <= bound / 12]. *)
Definition Chart_years_within (b : bound) (y : nat) : nat :=
  match b with
  | Fin m => Nat.min y (iterations (m / 12))
  | Infinity => y
  end.

(** The chart point of a year in closed form. *)
Definition Chart_point (inp : Simplified.Inputs) (res : Simplified.Results)
    (y : nat) : Chart.Point :=
  Chart.mkPoint y
    (Chart.toFixed 0
       (Simplified.extraCash inp
        * (1 + Simplified.investmentReturn inp / 100) ^ y))
    (Chart.toFixed 0
       (Chart.interestUpTo
          (Nat.min y (iterations (Simplified.tenureYears inp)) * 12)
          (Simplified.originalAmortization res)))
    (Chart.toFixed 0
       (Chart.interestUpTo
          (Chart_years_within (Simplified.newTenureMonths res) y * 12)
          (Simplified.prepaidAmortization res))).

(** A result whose original schedule has one row and whose prepaid
    schedule is empty, with a new tenure of 0 months. *)
Definition one_row_result : Simplified.Results :=
  Simplified.mkResults 200 0 1 10 10 0 0 10 1 "Invest" 12 (Fin 0) 0
    [Simplified.mkRow 1 1 199 200 0] [] 0.

(** 100 invested at an expected return of -5% for ten years. *)
Definition negative_return_inputs_basic : Basic.Inputs :=
  Basic.mkInputs 1000 12 10 100 (-5) "new" true false 30.

(** The chart data of the first component (lines 263-312 of
    [analyzeLoan]), from the inputs and from the values the earlier part
    of [analyzeLoan] leaves in [originalEMI] and [newEMI]. *)
Module BasicChart.

(** An element of [graphData]; the keys "Investment Value",
    "Cumulative Interest (Original Loan)" and
    "Cumulative Interest (Prepaid Loan)" are abbreviated. *)
Record Point : Type := mkPoint {
  year : R;
  Investment_Value : R;
  Cumulative_Interest_Original : R;
  Cumulative_Interest_Prepaid : R
}.

(** The variables the loop updates (lines 264-273). *)
Record State : Type := mkState {
  currentInvestmentValue : R;
  currentOriginalInterest : R;
  currentPrepaidInterest : R;
  originalBalance : R;
  prepaidBalance : R;
  graphData : list Point
}.

(** The body of the loop at month [i] (lines 276-311). *)
Definition graphStep (inp : Basic.Inputs) (i : nat) (st : State) : State :=
  let res := Basic.analyzeLoan inp in
  let originalEMI := Basic.originalEMI res in
  let newEMI := Basic.newEMI res in
  let newLoanAmount := Basic.loanAmount inp - Basic.extraCash inp in
  let totalMonths := Basic.tenureYears inp * 12 in
  let monthlyReturnRate := Basic.investmentReturn inp / 100 / 12 in
  let originalMonthlyRate := Basic.interestRate inp / 100 / 12 in
  (* investment growth *)
  let currentInvestmentValue' :=
    currentInvestmentValue st * (1 + monthlyReturnRate) in
  (* original loan interest *)
  let '(originalBalance', currentOriginalInterest') :=
    if Rgt_dec (originalBalance st) 0 then
      let interestThisMonthOriginal :=
        originalBalance st * originalMonthlyRate in
      let principalThisMonthOriginal :=
        originalEMI - interestThisMonthOriginal in
      (originalBalance st - principalThisMonthOriginal,
       currentOriginalInterest st + interestThisMonthOriginal)
    else (originalBalance st, currentOriginalInterest st) in
  (* prepaid loan interest *)
  let '(prepaidBalance', currentPrepaidInterest') :=
    if andb (if Rgt_dec (prepaidBalance st) 0 then true else false)
            (if Rgt_dec newEMI 0 then true else false)
    then
      let interestThisMonthPrepaid :=
        prepaidBalance st * originalMonthlyRate in
      let principalThisMonthPrepaid := newEMI - interestThisMonthPrepaid in
      (prepaidBalance st - principalThisMonthPrepaid,
       currentPrepaidInterest st + interestThisMonthPrepaid)
    else if Rle_dec newLoanAmount 0 then (prepaidBalance st, 0)
    else (prepaidBalance st, currentPrepaidInterest st) in
  let graphData' :=
    if orb (Nat.eqb (i mod 12) 0)
           (if Req_dec_T (INR i) totalMonths then true else false)
    then
      graphData st ++
        [mkPoint (Math_ceil (INR i / 12))
           (Chart.toFixed 2 currentInvestmentValue')
           (Chart.toFixed 2 currentOriginalInterest')
           (Chart.toFixed 2 currentPrepaidInterest')]
    else graphData st in
  mkState currentInvestmentValue' currentOriginalInterest'
    currentPrepaidInterest' originalBalance' prepaidBalance' graphData'.

(** [for (let i = 1; i <= totalMonths; i++)]: [count] values of [i]
    remain. *)
Fixpoint graphLoop (inp : Basic.Inputs) (count i : nat) (st : State)
  : State :=
  match count with
  | O => st
  | S count' => graphLoop inp count' (S i) (graphStep inp i st)
  end.

Definition chart (inp : Basic.Inputs) : list Point :=
  graphData
    (graphLoop inp (iterations (Basic.tenureYears inp * 12)) 1
       (mkState (Basic.extraCash inp) 0 0 (Basic.loanAmount inp)
          (Basic.loanAmount inp - Basic.extraCash inp) [])).

End BasicChart.

(** ** Facts about the JavaScript primitives *)

Lemma Math_pow_pos (x y : R) : 0 < x -> Math_pow x y = Rpower x y.
Proof.
  intros Hx. unfold Math_pow. destruct (Rlt_dec 0 x); [reflexivity | contradiction].
Qed.

(** At a natural exponent [Math.pow] is the iterated product, for every
    base. *)
Lemma Math_pow_nat (x : R) (k : nat) : Math_pow x (INR k) = x ^ k.
Proof.
  unfold Math_pow. destruct (Rlt_dec 0 x) as [Hx | Hx].
  - apply Rpower_pow; exact Hx.
  - rewrite Int_part_INR, <- INR_IZR_INZ.
    destruct (Req_dec_T (INR k) (INR k)) as [_ | Hne].
    + symmetry; apply pow_powerRZ.
    + exfalso; apply Hne; reflexivity.
Qed.

Lemma Rpower_gt_1 (x y : R) : 1 < x -> 0 < y -> 1 < Rpower x y.
Proof.
  intros Hx Hy. unfold Rpower.
  rewrite <- exp_0. apply exp_increasing.
  apply Rmult_lt_0_compat; [exact Hy |].
  rewrite <- ln_1. apply ln_increasing; lra.
Qed.

Lemma Math_pow_gt_1 (x y : R) : 1 < x -> 0 < y -> 1 < Math_pow x y.
Proof.
  intros Hx Hy. rewrite Math_pow_pos by lra. apply Rpower_gt_1; assumption.
Qed.

(** [ceilZ x] is the least integer not below [x]. *)
Lemma ceilZ_bounds (x : R) : IZR (ceilZ x) - 1 < x <= IZR (ceilZ x).
Proof.
  unfold ceilZ. rewrite opp_IZR.
  destruct (base_Int_part (- x)) as [H1 H2]. lra.
Qed.

Lemma ceilZ_unique (x : R) (z : Z) : IZR z - 1 < x <= IZR z -> z = ceilZ x.
Proof.
  intros [H1 H2]. unfold ceilZ.
  assert (Hz : (- z)%Z = Int_part (- x)).
  { apply Int_part_spec. rewrite opp_IZR. lra. }
  lia.
Qed.

Lemma ceilZ_IZR (z : Z) : ceilZ (IZR z) = z.
Proof. symmetry. apply ceilZ_unique. lra. Qed.

(** The iteration count agrees with the loop test [i <= months]. *)
Lemma iterations_spec (months : R) (i : nat) :
  (1 <= i)%nat -> ((i <= iterations months)%nat <-> INR i <= months).
Proof.
  intros Hi. unfold iterations.
  destruct (base_Int_part months) as [H1 H2].
  split; intros H.
  - apply Rle_trans with (IZR (Int_part months)); [| exact H1].
    rewrite INR_IZR_INZ. apply IZR_le. lia.
  - assert (Hlt : IZR (Z.of_nat i) < IZR (Int_part months + 1)).
    { rewrite <- INR_IZR_INZ, plus_IZR. lra. }
    apply lt_IZR in Hlt. lia.
Qed.

Lemma iterations_INR (k : nat) : iterations (INR k) = k.
Proof. unfold iterations. rewrite Int_part_INR. apply Nat2Z.id. Qed.

Lemma iterations_le (months : R) : 0 <= months -> INR (iterations months) <= months.
Proof.
  intros Hm. unfold iterations.
  destruct (base_Int_part months) as [H1 H2].
  rewrite INR_IZR_INZ.
  assert (Hnn : (0 <= Int_part months)%Z).
  { assert (Hlt : IZR (-1) < IZR (Int_part months)) by lra.
    apply lt_IZR in Hlt. lia. }
  rewrite Z2Nat.id by exact Hnn. exact H1.
Qed.

(** Twelve months of compounding beat twelve months of simple interest. *)
Lemma pow12_gt_linear (x : R) : 1 < x -> 1 + 12 * (x - 1) < x ^ 12.
Proof.
  intros Hx.
  assert (H2 : 1 + 2 * (x - 1) < x ^ 2) by (simpl; nra).
  assert (H3 : 1 + 3 * (x - 1) < x ^ 3)
    by (change (x ^ 3) with (x * x ^ 2); nra).
  assert (H6 : 1 + 6 * (x - 1) < x ^ 6).
  { replace (x ^ 6) with (x ^ 3 * x ^ 3) by ring. nra. }
  replace (x ^ 12) with (x ^ 6 * x ^ 6) by ring. nra.
Qed.

(** ** The installment formula *)

Lemma Basic_Simplified_calculateEMI (p r n : R) :
  Basic.calculateEMI p r n = Simplified.calculateEMI p r n.
Proof. reflexivity. Qed.

Lemma calculateEMI_positive_case (p r n : R) :
  0 < p -> 0 < r -> 0 < n ->
  Simplified.calculateEMI p r n =
    p * (r / 100 / 12) * Rpower (1 + r / 100 / 12) n /
    (Rpower (1 + r / 100 / 12) n - 1).
Proof.
  intros Hp Hr Hn. unfold Simplified.calculateEMI.
  destruct (Rle_dec p 0); [lra |].
  destruct (Rle_dec r 0); [lra |].
  destruct (Rle_dec n 0); [lra |].
  cbv zeta. rewrite Math_pow_pos by lra. reflexivity.
Qed.

Lemma calculateEMI_degenerate (p r n : R) :
  p <= 0 \/ r <= 0 \/ n <= 0 -> Simplified.calculateEMI p r n = 0.
Proof.
  intros H. unfold Simplified.calculateEMI.
  destruct (Rle_dec p 0); [reflexivity |].
  destruct (Rle_dec r 0); [reflexivity |].
  destruct (Rle_dec n 0); [reflexivity |].
  lra.
Qed.

(** The installment exceeds one month of interest on the whole principal. *)
Lemma calculateEMI_gt_interest (p r n : R) :
  0 < p -> 0 < r -> 0 < n ->
  p * (r / 100 / 12) < Simplified.calculateEMI p r n.
Proof.
  intros Hp Hr Hn. rewrite calculateEMI_positive_case by assumption.
  assert (HX : 1 < Rpower (1 + r / 100 / 12) n) by (apply Rpower_gt_1; lra).
  set (X := Rpower (1 + r / 100 / 12) n) in *.
  set (mr := r / 100 / 12).
  assert (Hmr : 0 < mr) by (unfold mr; lra).
  replace (p * mr * X / (X - 1)) with (p * mr + p * mr / (X - 1))
    by (field; lra).
  assert (0 < p * mr / (X - 1)).
  { apply Rdiv_lt_0_compat; [apply Rmult_lt_0_compat; assumption | lra]. }
  lra.
Qed.

Lemma calculateEMI_pos (p r n : R) :
  0 < p -> 0 < r -> 0 < n -> 0 < Simplified.calculateEMI p r n.
Proof.
  intros Hp Hr Hn.
  apply Rlt_trans with (p * (r / 100 / 12)).
  - apply Rmult_lt_0_compat; lra.
  - apply calculateEMI_gt_interest; assumption.
Qed.

(** C7.  [calculateEMI p r n] (both components) is
    [p * mr * (1+mr)^n / ((1+mr)^n - 1)] with [mr = r/100/12] whenever
    [p > 0], [r > 0] and [n > 0], where the power is [exp (n * ln (1+mr))]
    and, for a whole number of months, the iterated product; it is 0
    whenever [p <= 0], [r <= 0] or [n <= 0]. *)
Theorem calculateEMI_spec (p r n : R) :
  (0 < p -> 0 < r -> 0 < n ->
   Simplified.calculateEMI p r n =
     p * (r / 100 / 12) * Rpower (1 + r / 100 / 12) n /
     (Rpower (1 + r / 100 / 12) n - 1)
   /\ (forall k : nat, n = INR k ->
       Simplified.calculateEMI p r n =
         p * (r / 100 / 12) * (1 + r / 100 / 12) ^ k /
         ((1 + r / 100 / 12) ^ k - 1)))
  /\ (p <= 0 \/ r <= 0 \/ n <= 0 -> Simplified.calculateEMI p r n = 0)
  /\ Basic.calculateEMI p r n = Simplified.calculateEMI p r n.
Proof.
  split; [| split].
  - intros Hp Hr Hn. split.
    + apply calculateEMI_positive_case; assumption.
    + intros k ->. rewrite calculateEMI_positive_case by assumption.
      rewrite Rpower_pow by lra. reflexivity.
  - apply calculateEMI_degenerate.
  - reflexivity.
Qed.

(** One payment of 1212 repays 1200 borrowed for one month at 12% a year;
    a loan of 0 has installment 0. *)
Lemma calculateEMI_spec_witness :
  Simplified.calculateEMI 1200 12 1 = 1212 /\
  Simplified.calculateEMI 0 12 1 = 0.
Proof.
  split.
  - destruct (calculateEMI_spec 1200 12 1) as [H _].
    destruct H as [_ H]; try lra.
    rewrite (H 1%nat) by reflexivity. simpl. field.
  - apply (proj1 (proj2 (calculateEMI_spec 0 12 1))). left. lra.
Defined.

(** ** The tenure solver *)

Lemma calculateNewTenure_closed_form (P E r : R) :
  0 < P -> 0 < E -> 0 < r -> P * (r / 100 / 12) < E ->
  Simplified.calculateNewTenure P E r =
    Fin (Math_ceil (- ln (1 - P * (r / 100 / 12) / E) / ln (1 + r / 100 / 12))).
Proof.
  intros HP HE Hr Hlt. unfold Simplified.calculateNewTenure.
  destruct (Rle_dec P 0); [lra |].
  destruct (Rle_dec E 0); [lra |].
  destruct (Rle_dec r 0); [lra |].
  cbv zeta. destruct (Rle_dec E (P * (r / 100 / 12))); [lra |].
  reflexivity.
Qed.

Lemma calculateNewTenure_degenerate (P E r : R) :
  P <= 0 \/ E <= 0 \/ r <= 0 -> Simplified.calculateNewTenure P E r = Fin 0.
Proof.
  intros H. unfold Simplified.calculateNewTenure.
  destruct (Rle_dec P 0); [reflexivity |].
  destruct (Rle_dec E 0); [reflexivity |].
  destruct (Rle_dec r 0); [reflexivity |].
  lra.
Qed.

Lemma calculateNewTenure_never_amortizes (P E r : R) :
  0 < P -> 0 < E -> 0 < r -> E <= P * (r / 100 / 12) ->
  Simplified.calculateNewTenure P E r = Infinity.
Proof.
  intros HP HE Hr Hle. unfold Simplified.calculateNewTenure.
  destruct (Rle_dec P 0); [lra |].
  destruct (Rle_dec E 0); [lra |].
  destruct (Rle_dec r 0); [lra |].
  cbv zeta. destruct (Rle_dec E (P * (r / 100 / 12))); [reflexivity | lra].
Qed.

(** [Infinity] is returned only in the never-amortizes case. *)
Lemma calculateNewTenure_Infinity_inv (P E r : R) :
  Simplified.calculateNewTenure P E r = Infinity ->
  0 < P /\ 0 < E /\ 0 < r /\ E <= P * (r / 100 / 12).
Proof.
  unfold Simplified.calculateNewTenure.
  destruct (Rle_dec P 0); [discriminate |].
  destruct (Rle_dec E 0); [discriminate |].
  destruct (Rle_dec r 0); [discriminate |].
  cbv zeta. destruct (Rle_dec E (P * (r / 100 / 12))); [| discriminate].
  intros _. lra.
Qed.

(** In exact arithmetic [calculateNewTenure] returns the least integer
    not below [- ln (1 - P*mr/E) / ln (1 + mr)] when [P], [E] and the
    rate are positive and [E > P * mr]; it returns 0 when any of the
    three is non-positive; and, the three being positive, it returns
    [Infinity] when [E <= P * mr].  The function is a closed form: it has
    no loop.  In double precision the quotient is rounded before
    [Math.ceil] is applied, and the month count of the program can be one
    more or one less than the [z] of the first clause. *)
Lemma calculateNewTenure_exact (P E r : R) :
  (0 < P -> 0 < E -> 0 < r -> P * (r / 100 / 12) < E ->
   exists z : Z,
     Simplified.calculateNewTenure P E r = Fin (IZR z) /\
     IZR z - 1
       < - ln (1 - P * (r / 100 / 12) / E) / ln (1 + r / 100 / 12)
       <= IZR z)
  /\ (P <= 0 \/ E <= 0 \/ r <= 0 ->
      Simplified.calculateNewTenure P E r = Fin 0)
  /\ (0 < P -> 0 < E -> 0 < r -> E <= P * (r / 100 / 12) ->
      Simplified.calculateNewTenure P E r = Infinity).
Proof.
  split; [| split].
  - intros HP HE Hr Hlt.
    exists (ceilZ (- ln (1 - P * (r / 100 / 12) / E) / ln (1 + r / 100 / 12))).
    split.
    + apply calculateNewTenure_closed_form; assumption.
    + apply ceilZ_bounds.
  - apply calculateNewTenure_degenerate.
  - apply calculateNewTenure_never_amortizes.
Qed.

(** ** The amortization schedule *)

Lemma nonincreasing_from_nonincreasing (b : R) (l : list R) :
  nonincreasing_from b l -> nonincreasing l.
Proof. destruct l; simpl; tauto. Qed.

Lemma amortRow_fields (mr emi b : R) (i : nat) :
  Simplified.month (Simplified.amortRow mr emi b i) = i /\
  Simplified.interest (Simplified.amortRow mr emi b i) = b * mr /\
  Simplified.principal (Simplified.amortRow mr emi b i) = Rmax 0 (emi - b * mr) /\
  Simplified.totalPayment (Simplified.amortRow mr emi b i) = emi.
Proof. repeat split. Qed.

Lemma amortRow_endingBalance (mr emi b : R) (i : nat) :
  Simplified.endingBalance (Simplified.amortRow mr emi b i) =
    Rmax 0 (b - Rmax 0 (emi - b * mr)).
Proof.
  unfold Simplified.amortRow, Math_max. simpl.
  destruct (Rlt_dec (b - Rmax 0 (emi - b * mr)) 0) as [H | H].
  - rewrite (Rmax_left 0 (b - Rmax 0 (emi - b * mr))); lra.
  - rewrite (Rmax_right 0 (b - Rmax 0 (emi - b * mr))); lra.
Qed.

Lemma amortRow_balance_bounds (mr emi b : R) (i : nat) :
  0 <= b ->
  0 <= Simplified.endingBalance (Simplified.amortRow mr emi b i) <= b.
Proof.
  intros Hb. rewrite amortRow_endingBalance.
  pose proof (Rmax_l 0 (emi - b * mr)) as Hp.
  split.
  - apply Rmax_l.
  - apply Rmax_lub; lra.
Qed.

Lemma amortRow_ok (mr emi b : R) (i : nat) :
  row_ok emi (Simplified.amortRow mr emi b i).
Proof.
  unfold row_ok. rewrite amortRow_endingBalance.
  destruct (amortRow_fields mr emi b i) as (_ & -> & -> & ->).
  repeat split.
  - apply Rmax_l.
  - apply Rmax_l.
  - intros H. rewrite Rmax_right; lra.
  - intros H. rewrite Rmax_left; lra.
Qed.

Lemma amortLoop_S (count i : nat) (mr emi b : R) :
  Simplified.amortLoop (S count) i mr emi b =
    if Req_dec_T (Simplified.endingBalance (Simplified.amortRow mr emi b i)) 0
    then [Simplified.amortRow mr emi b i]
    else Simplified.amortRow mr emi b i ::
         Simplified.amortLoop count (S i) mr emi
           (Simplified.endingBalance (Simplified.amortRow mr emi b i)).
Proof. reflexivity. Qed.

(** One iteration of the loop: name the row, split on the [break]. *)
Ltac amort_iteration row Hz :=
  rewrite amortLoop_S;
  match goal with
  | |- context [Simplified.amortRow ?mr ?emi ?b ?i] =>
      set (row := Simplified.amortRow mr emi b i) in *
  end;
  destruct (Req_dec_T (Simplified.endingBalance row) 0) as [Hz | Hz].

Lemma amortLoop_length (count i : nat) (mr emi b : R) :
  (length (Simplified.amortLoop count i mr emi b) <= count)%nat.
Proof.
  revert i b. induction count as [| count IH]; intros i b.
  - simpl. lia.
  - amort_iteration row Hz; cbn [length].
    + lia.
    + specialize (IH (S i) (Simplified.endingBalance row)). lia.
Qed.

Lemma amortLoop_rows_ok (count i : nat) (mr emi b : R) :
  Forall (row_ok emi) (Simplified.amortLoop count i mr emi b).
Proof.
  revert i b. induction count as [| count IH]; intros i b.
  - constructor.
  - amort_iteration row Hz.
    + constructor; [apply amortRow_ok | constructor].
    + constructor; [apply amortRow_ok | apply IH].
Qed.

Lemma amortLoop_nonincreasing (count i : nat) (mr emi b : R) :
  0 <= b ->
  nonincreasing_from b
    (map Simplified.endingBalance (Simplified.amortLoop count i mr emi b)).
Proof.
  revert i b. induction count as [| count IH]; intros i b Hb.
  - exact I.
  - destruct (amortRow_balance_bounds mr emi b i Hb) as [H0 H1].
    amort_iteration row Hz.
    + split; [exact H1 | exact I].
    + split; [exact H1 | apply IH; exact H0].
Qed.

(** A row with balance 0 is the last one. *)
Lemma amortLoop_zero_is_last (count i : nat) (mr emi b : R) (k : nat)
    (row : Simplified.Row) :
  nth_error (Simplified.amortLoop count i mr emi b) k = Some row ->
  Simplified.endingBalance row = 0 ->
  S k = length (Simplified.amortLoop count i mr emi b).
Proof.
  revert i b k. induction count as [| count IH]; intros i b k.
  - destruct k; discriminate.
  - amort_iteration row0 Hz.
    + destruct k as [| k]; simpl.
      * intros _ _. reflexivity.
      * destruct k; discriminate.
    + destruct k as [| k]; simpl.
      * intros [= <-] H0. contradiction.
      * intros Hk H0. f_equal. eapply IH; eassumption.
Qed.

(** A schedule shorter than the bound ends with balance 0. *)
Lemma amortLoop_short_ends_at_zero (count i : nat) (mr emi b : R) :
  (length (Simplified.amortLoop count i mr emi b) < count)%nat ->
  exists row,
    nth_error (Simplified.amortLoop count i mr emi b)
      (pred (length (Simplified.amortLoop count i mr emi b))) = Some row /\
    Simplified.endingBalance row = 0.
Proof.
  revert i b. induction count as [| count IH]; intros i b.
  - simpl. lia.
  - amort_iteration row0 Hz.
    + intros _. exists row0. split; [reflexivity | exact Hz].
    + cbn [length]. intros Hlen.
      destruct (IH (S i) (Simplified.endingBalance row0))
        as [row [Hrow H0]]; [lia |].
      exists row. split; [| exact H0].
      cbn [pred].
      destruct (Simplified.amortLoop count (S i) mr emi
                  (Simplified.endingBalance row0)) as [| x l'];
        [discriminate Hrow | exact Hrow].
Qed.

(** Months are numbered consecutively from [i]. *)
Lemma amortLoop_months (count i : nat) (mr emi b : R) (k : nat)
    (row : Simplified.Row) :
  nth_error (Simplified.amortLoop count i mr emi b) k = Some row ->
  Simplified.month row = (i + k)%nat.
Proof.
  revert i b k. induction count as [| count IH]; intros i b k.
  - destruct k; discriminate.
  - amort_iteration row0 Hz.
    + destruct k as [| k]; simpl.
      * intros [= <-]. simpl. lia.
      * destruct k; discriminate.
    + destruct k as [| k]; simpl.
      * intros [= <-]. simpl. lia.
      * intros Hk. rewrite (IH _ _ _ Hk). lia.
Qed.

(** The unbounded loop, when it returns, returns what the bounded loop
    returns with [fuel] iterations allowed, and its last row has balance
    0. *)
Lemma amortLoopInf_S (fuel i : nat) (mr emi b : R) :
  Simplified.amortLoopInf (S fuel) i mr emi b =
    if Req_dec_T (Simplified.endingBalance (Simplified.amortRow mr emi b i)) 0
    then Some [Simplified.amortRow mr emi b i]
    else option_map (cons (Simplified.amortRow mr emi b i))
           (Simplified.amortLoopInf fuel (S i) mr emi
              (Simplified.endingBalance (Simplified.amortRow mr emi b i))).
Proof. reflexivity. Qed.

Lemma amortLoopInf_Some (fuel i : nat) (mr emi b : R) (l : list Simplified.Row) :
  Simplified.amortLoopInf fuel i mr emi b = Some l ->
  l = Simplified.amortLoop fuel i mr emi b /\
  exists row, nth_error l (pred (length l)) = Some row /\
              Simplified.endingBalance row = 0.
Proof.
  revert i b l. induction fuel as [| fuel IH]; intros i b l.
  - discriminate.
  - rewrite amortLoopInf_S, amortLoop_S.
    set (row0 := Simplified.amortRow mr emi b i).
    destruct (Req_dec_T (Simplified.endingBalance row0) 0) as [Hz | Hnz].
    + intros [= <-]. split; [reflexivity |].
      exists row0. split; [reflexivity | exact Hz].
    + destruct (Simplified.amortLoopInf fuel (S i) mr emi
                  (Simplified.endingBalance row0)) as [l' |] eqn:E;
        simpl; [| discriminate].
      intros [= <-]. destruct (IH _ _ _ E) as [-> [row [Hrow H0]]].
      split; [reflexivity |].
      exists row. split; [| exact H0].
      destruct (Simplified.amortLoop fuel (S i) mr emi
                  (Simplified.endingBalance row0)) as [| x t];
        [discriminate Hrow | exact Hrow].
Qed.

(** When the installment does not cover the interest the balance never
    moves, and the unbounded loop never returns. *)
Lemma amortLoopInf_diverges (fuel i : nat) (mr emi b : R) :
  0 < b -> emi <= b * mr ->
  Simplified.amortLoopInf fuel i mr emi b = None.
Proof.
  intros Hb Hle. revert i. induction fuel as [| fuel IH]; intros i.
  - reflexivity.
  - rewrite amortLoopInf_S.
    assert (Hend : Simplified.endingBalance (Simplified.amortRow mr emi b i) = b).
    { rewrite amortRow_endingBalance.
      rewrite (Rmax_left 0 (emi - b * mr)) by lra.
      rewrite Rmax_right; lra. }
    rewrite Hend. destruct (Req_dec_T b 0); [lra |].
    rewrite IH. reflexivity.
Qed.

Lemma amortRow_eq (mr emi b : R) (i : nat) :
  Simplified.amortRow mr emi b i =
    Simplified.mkRow i (b * mr) (Rmax 0 (emi - b * mr)) emi
      (Rmax 0 (b - Rmax 0 (emi - b * mr))).
Proof.
  pose proof (amortRow_endingBalance mr emi b i) as H.
  unfold Simplified.amortRow in *. cbv zeta in *. simpl in H.
  f_equal. exact H.
Qed.

(** Decide every [Rmax] of the goal by linear arithmetic. *)
Ltac decide_Rmax :=
  repeat match goal with
    | |- context [Rmax ?a ?b] =>
        first [ rewrite (Rmax_left a b) by lra
              | rewrite (Rmax_right a b) by lra ]
    end.

(** Run one iteration of the bounded loop on concrete numbers. *)
Ltac run_amort_iteration :=
  rewrite amortLoop_S, amortRow_eq; cbn [Simplified.endingBalance];
  decide_Rmax;
  match goal with
  | |- context [Req_dec_T ?x 0] =>
      let H := fresh "H" in
      destruct (Req_dec_T x 0) as [H | H];
      [ try (exfalso; lra) | try (exfalso; apply H; lra) ]
  end.

Lemma generateFullAmortization_inv (fuel : nat) (p r : R) (months : bound)
    (emi : R) (sched : list Simplified.Row) :
  Simplified.generateFullAmortization fuel p r months emi = Some sched ->
  (sched = [] /\ (p <= 0 \/ emi <= 0)) \/
  (0 < p /\ 0 < emi /\
   exists count,
     sched = Simplified.amortLoop count 1 (r / 100 / 12) emi p /\
     match months with
     | Fin m => count = iterations m
     | Infinity => count = fuel
     end).
Proof.
  unfold Simplified.generateFullAmortization.
  destruct (Rle_dec p 0) as [Hp | Hp].
  { intros [= <-]. left. split; [reflexivity | left; exact Hp]. }
  destruct (Rle_dec emi 0) as [He | He].
  { intros [= <-]. left. split; [reflexivity | right; exact He]. }
  cbv zeta. intros H. right. split; [lra |]. split; [lra |].
  destruct months as [m |].
  - injection H as <-. exists (iterations m). split; reflexivity.
  - apply amortLoopInf_Some in H. destruct H as [-> _].
    exists fuel. split; reflexivity.
Qed.

(** With a finite bound the function returns, whatever the fuel. *)
Lemma generateFullAmortization_finite (fuel : nat) (p r m emi : R) :
  exists sched,
    Simplified.generateFullAmortization fuel p r (Fin m) emi = Some sched /\
    (length sched <= iterations m)%nat.
Proof.
  unfold Simplified.generateFullAmortization.
  destruct (Rle_dec p 0).
  { exists []. split; [reflexivity | simpl; lia]. }
  destruct (Rle_dec emi 0).
  { exists []. split; [reflexivity | simpl; lia]. }
  cbv zeta. eexists. split; [reflexivity | apply amortLoop_length].
Qed.

(** C9.  A schedule built by [generateFullAmortization] has at most as
    many rows as the loop bound [months] allows (at most [months] rows
    for a bound that is not negative); its ending balances never
    increase; a row whose ending balance is 0 is the last row; and a
    schedule with fewer rows than the bound allows ends on a row with
    ending balance 0. *)
Theorem generateFullAmortization_bounded_monotone
    (fuel : nat) (p r : R) (months : bound) (emi : R)
    (sched : list Simplified.Row) :
  Simplified.generateFullAmortization fuel p r months emi = Some sched ->
  (forall m, months = Fin m ->
     (length sched <= iterations m)%nat /\
     (0 <= m -> INR (length sched) <= m)) /\
  nonincreasing (map Simplified.endingBalance sched) /\
  (forall k row,
     nth_error sched k = Some row ->
     Simplified.endingBalance row = 0 -> S k = length sched) /\
  (forall m, months = Fin m ->
     (0 < length sched < iterations m)%nat ->
     exists row,
       nth_error sched (pred (length sched)) = Some row /\
       Simplified.endingBalance row = 0).
Proof.
  intros H. apply generateFullAmortization_inv in H.
  destruct H as [[-> _] | (Hp & He & count & -> & Hcount)].
  - repeat split.
    + simpl. lia.
    + intros Hm. simpl. exact Hm.
    + intros k row Hk. destruct k; discriminate.
    + intros m _ [Hlt _]. simpl in Hlt. lia.
  - split; [| split; [| split]].
    + intros m ->. subst count. split.
      * apply amortLoop_length.
      * intros Hm.
        apply Rle_trans with (INR (iterations m)).
        -- apply le_INR. apply amortLoop_length.
        -- apply iterations_le. exact Hm.
    + apply nonincreasing_from_nonincreasing with (b := p).
      apply amortLoop_nonincreasing. lra.
    + intros k row. apply amortLoop_zero_is_last.
    + intros m -> [_ Hlt]. subst count.
      apply amortLoop_short_ends_at_zero. exact Hlt.
Qed.

(** A loan of 100 at 12% a year with installment 101 and a bound of 5
    months is repaid by the first row. *)
Lemma generateFullAmortization_early_stop :
  Simplified.generateFullAmortization 0 100 12 (Fin 5) 101 =
    Some [Simplified.mkRow 1 1 100 101 0].
Proof.
  unfold Simplified.generateFullAmortization.
  destruct (Rle_dec 100 0); [lra |].
  destruct (Rle_dec 101 0); [lra |].
  cbv zeta. replace 5 with (INR 5) by (simpl; lra).
  rewrite iterations_INR.
  run_amort_iteration.
  do 2 f_equal. f_equal; lra.
Qed.

Lemma generateFullAmortization_bounded_monotone_witness :
  (length [Simplified.mkRow 1 1 100 101 0] <= iterations 5)%nat /\
  nonincreasing (map Simplified.endingBalance [Simplified.mkRow 1 1 100 101 0]).
Proof.
  destruct (generateFullAmortization_bounded_monotone 0 100 12 (Fin 5) 101
              [Simplified.mkRow 1 1 100 101 0]
              generateFullAmortization_early_stop) as (Hlen & Hmono & _).
  split; [apply (Hlen 5 eq_refl) | exact Hmono].
Defined.

(** With installment 100 on a balance of 1200000 at 12% a year the
    interest of a month is 12000: the principal part is clamped to 0 and
    the balance stays. *)
Lemma generateFullAmortization_interest_only :
  Simplified.generateFullAmortization 0 1200000 12 (Fin 2) 100 =
    Some [Simplified.mkRow 1 12000 0 100 1200000;
          Simplified.mkRow 2 12000 0 100 1200000].
Proof.
  unfold Simplified.generateFullAmortization.
  destruct (Rle_dec 1200000 0); [lra |].
  destruct (Rle_dec 100 0); [lra |].
  cbv zeta. replace 2 with (INR 2) by (simpl; lra).
  rewrite iterations_INR.
  run_amort_iteration.
  replace (1200000 - 0) with 1200000 by lra.
  run_amort_iteration.
  replace (1200000 - 0) with 1200000 by lra.
  simpl. f_equal. f_equal; [f_equal; lra |]. f_equal. f_equal; lra.
Qed.

(** C2 as stated fails: with principal 1200000 > 0 and installment
    100 > 0 the first of two rows has interest + principal = 12000, not
    100. *)
Lemma generateFullAmortization_row_sum_counterexample :
  exists row1 row2,
    0 < 1200000 /\ 0 < 100 /\
    Simplified.generateFullAmortization 0 1200000 12 (Fin 2) 100 =
      Some [row1; row2] /\
    Simplified.interest row1 + Simplified.principal row1 <> 100.
Proof.
  exists (Simplified.mkRow 1 12000 0 100 1200000),
         (Simplified.mkRow 2 12000 0 100 1200000).
  split; [lra |]. split; [lra |].
  split; [exact generateFullAmortization_interest_only |].
  simpl. lra.
Qed.

(** C2, amended.  In every schedule produced by
    [generateFullAmortization] with principal > 0 and installment > 0,
    every row, the final one included, has [totalPayment] equal to the
    installment and a non-negative ending balance; a row whose interest
    does not exceed the installment satisfies
    interest + principal = installment, and a row whose interest exceeds
    the installment has principal 0. *)
Theorem generateFullAmortization_row_sum
    (fuel : nat) (p r : R) (months : bound) (emi : R)
    (sched : list Simplified.Row) :
  0 < p -> 0 < emi ->
  Simplified.generateFullAmortization fuel p r months emi = Some sched ->
  Forall (fun row =>
            Simplified.totalPayment row = emi /\
            0 <= Simplified.principal row /\
            0 <= Simplified.endingBalance row /\
            (Simplified.interest row <= emi ->
             Simplified.interest row + Simplified.principal row = emi) /\
            (emi < Simplified.interest row -> Simplified.principal row = 0))
         sched.
Proof.
  intros Hp He H. apply generateFullAmortization_inv in H.
  destruct H as [[-> _] | (_ & _ & count & -> & _)].
  - constructor.
  - apply amortLoop_rows_ok.
Qed.

(** A loan of 100 at 12% a year with installment 200: the single, final
    row keeps interest + principal = 200; its principal part, 199, is more
    than the balance of 100, and the ending balance is clamped to 0. *)
Lemma generateFullAmortization_overpay :
  Simplified.generateFullAmortization 0 100 12 (Fin 5) 200 =
    Some [Simplified.mkRow 1 1 199 200 0].
Proof.
  unfold Simplified.generateFullAmortization.
  destruct (Rle_dec 100 0); [lra |].
  destruct (Rle_dec 200 0); [lra |].
  cbv zeta. replace 5 with (INR 5) by (simpl; lra).
  rewrite iterations_INR.
  run_amort_iteration.
  do 2 f_equal. f_equal; lra.
Qed.

Lemma generateFullAmortization_row_sum_witness :
  Forall (fun row =>
            Simplified.totalPayment row = 200 /\
            0 <= Simplified.principal row /\
            0 <= Simplified.endingBalance row /\
            (Simplified.interest row <= 200 ->
             Simplified.interest row + Simplified.principal row = 200) /\
            (200 < Simplified.interest row -> Simplified.principal row = 0))
         [Simplified.mkRow 1 1 199 200 0].
Proof.
  apply (generateFullAmortization_row_sum 0 100 12 (Fin 5) 200).
  - lra.
  - lra.
  - exact generateFullAmortization_overpay.
Defined.

(** ** The orchestrator of the second component *)

(** The original schedule is always built with the finite bound
    [tenureYears * 12]. *)
Lemma analyzeLoan_Some (fuel : nat) (inp : Simplified.Inputs)
    (res : Simplified.Results) :
  Simplified.analyzeLoan fuel inp = Some res ->
  exists orig newEmi newTenure saved prepaidAm prepaidBenefit,
    Simplified.generateFullAmortization fuel
      (Simplified.loanAmount inp) (Simplified.interestRate inp)
      (Fin (Simplified.tenureYears inp * 12))
      (Simplified.calculateEMI (Simplified.loanAmount inp)
         (Simplified.interestRate inp) (Simplified.tenureYears inp * 12))
      = Some orig /\
    Simplified.prepayLoan fuel inp
      (Simplified.calculateEMI (Simplified.loanAmount inp)
         (Simplified.interestRate inp) (Simplified.tenureYears inp * 12))
      (Simplified.totalInterest orig)
      = Some (newEmi, newTenure, saved, prepaidAm, prepaidBenefit) /\
    Simplified.originalAmortization res = orig /\
    Simplified.newEmi res = newEmi /\
    Simplified.newTenureMonths res = newTenure /\
    Simplified.interestSaved res = saved /\
    Simplified.prepaidAmortization res = prepaidAm /\
    Simplified.prepaidLoanTaxBenefit res = prepaidBenefit /\
    Simplified.investmentGain res =
      Simplified.extraCash inp *
        Math_pow (1 + Simplified.investmentReturn inp / 100)
                 (Simplified.tenureYears inp)
      - Simplified.extraCash inp /\
    Simplified.investmentTax res =
      (if String.eqb (Simplified.investmentType inp) "equity"
       then Math_max 0 (Simplified.investmentGain res
                        - Simplified.EQUITY_LTCG_EXEMPTION)
            * Simplified.EQUITY_LTCG_TAX_RATE
       else Simplified.investmentGain res * (Simplified.taxSlab inp / 100)) /\
    Simplified.postTaxInvestmentGain res =
      Simplified.investmentGain res - Simplified.investmentTax res /\
    Simplified.originalLoanTaxBenefit res =
      (if String.eqb (Simplified.taxRegime inp) "old"
       then Simplified.loanTaxBenefit orig
              (Math_max 0 (Simplified.SECTION_80C_LIMIT - Simplified.used80C inp))
              (Simplified.taxSlab inp / 100)
       else 0).
Proof.
  unfold Simplified.analyzeLoan. cbv zeta.
  destruct (Simplified.generateFullAmortization fuel _ _ _ _) as [orig |] eqn:Eo;
    [| discriminate].
  cbn [JS.bind].
  destruct (Simplified.prepayLoan fuel inp _ _) as [[[[[e t] sv] am] b] |] eqn:Ep;
    [| discriminate].
  cbn [JS.bind]. intros [= <-].
  exists orig, e, t, sv, am, b. cbn.
  split; [reflexivity |]. split; [exact Ep |]. repeat split.
Qed.

(** What the prepay scenario leaves in its variables. *)
Lemma prepayLoan_Some (fuel : nat) (inp : Simplified.Inputs) (emi tio : R)
    (e : R) (t : bound) (sv : R) (am : list Simplified.Row) (b : R) :
  Simplified.prepayLoan fuel inp emi tio = Some (e, t, sv, am, b) ->
  let newLoanAmount := Simplified.loanAmount inp - Simplified.extraCash inp in
  (newLoanAmount <= 0 /\ e = 0 /\ t = Fin 0 /\ sv = tio /\ am = [] /\ b = 0)
  \/
  (newLoanAmount > 0 /\
   (e, t) =
     (if String.eqb (Simplified.prepaymentMethod inp) "reduceEmi"
      then (Simplified.calculateEMI newLoanAmount
              (Simplified.interestRate inp) (Simplified.tenureYears inp * 12),
            Fin (Simplified.tenureYears inp * 12))
      else (emi,
            Simplified.calculateNewTenure newLoanAmount emi
              (Simplified.interestRate inp))) /\
   Simplified.generateFullAmortization fuel newLoanAmount
     (Simplified.interestRate inp) t e = Some am /\
   sv = tio - Simplified.totalInterest am /\
   b = (if String.eqb (Simplified.taxRegime inp) "old"
        then Simplified.loanTaxBenefit am
               (Math_max 0 (Simplified.SECTION_80C_LIMIT - Simplified.used80C inp))
               (Simplified.taxSlab inp / 100)
        else 0)).
Proof.
  unfold Simplified.prepayLoan. cbv zeta.
  destruct (Rgt_dec _ 0) as [Hgt | Hle].
  - destruct (if String.eqb (Simplified.prepaymentMethod inp) "reduceEmi"
              then _ else _) as [e' t'] eqn:Em.
    destruct (Simplified.generateFullAmortization fuel _ _ t' e') as [am' |] eqn:Eg;
      [| discriminate].
    cbn [JS.bind]. intros [= <- <- <- <- <-].
    right. split; [exact Hgt |]. split; [reflexivity |].
    split; [exact Eg |]. split; reflexivity.
  - intros [= <- <- <- <- <-]. left. repeat split. lra.
Qed.

Lemma prepayLoan_paid_off (fuel : nat) (inp : Simplified.Inputs) (emi tio : R) :
  Simplified.loanAmount inp <= Simplified.extraCash inp ->
  Simplified.prepayLoan fuel inp emi tio = Some (0, Fin 0, tio, [], 0).
Proof.
  intros H. unfold Simplified.prepayLoan. cbv zeta.
  destruct (Rgt_dec _ 0) as [Hgt | _]; [lra | reflexivity].
Qed.

Lemma prepayLoan_loops (fuel : nat) (inp : Simplified.Inputs) (tio : R) :
  loops_forever inp ->
  Simplified.prepayLoan fuel inp
    (Simplified.calculateEMI (Simplified.loanAmount inp)
       (Simplified.interestRate inp) (Simplified.tenureYears inp * 12)) tio
  = None.
Proof.
  intros (Hgt & Hm & Hinf). unfold Simplified.prepayLoan. cbv zeta.
  destruct (Rgt_dec _ 0) as [_ | Hn]; [| contradiction].
  rewrite Hm, Hinf.
  apply calculateNewTenure_Infinity_inv in Hinf.
  destruct Hinf as (HP & HE & Hr & Hle).
  unfold Simplified.generateFullAmortization.
  destruct (Rle_dec _ 0); [lra |].
  destruct (Rle_dec _ 0); [lra |].
  cbv zeta. rewrite amortLoopInf_diverges by assumption. reflexivity.
Qed.

Lemma prepayLoan_returns (fuel : nat) (inp : Simplified.Inputs) (tio : R) :
  ~ loops_forever inp ->
  exists prepaid,
    Simplified.prepayLoan fuel inp
      (Simplified.calculateEMI (Simplified.loanAmount inp)
         (Simplified.interestRate inp) (Simplified.tenureYears inp * 12)) tio
    = Some prepaid.
Proof.
  intros Hn. unfold Simplified.prepayLoan. cbv zeta.
  destruct (Rgt_dec _ 0) as [Hgt | _]; [| eexists; reflexivity].
  destruct (String.eqb (Simplified.prepaymentMethod inp) "reduceEmi") eqn:Hm.
  - destruct (generateFullAmortization_finite fuel
                (Simplified.loanAmount inp - Simplified.extraCash inp)
                (Simplified.interestRate inp)
                (Simplified.tenureYears inp * 12)
                (Simplified.calculateEMI
                   (Simplified.loanAmount inp - Simplified.extraCash inp)
                   (Simplified.interestRate inp)
                   (Simplified.tenureYears inp * 12))) as [sched [-> _]].
    eexists; reflexivity.
  - destruct (Simplified.calculateNewTenure _ _ _) as [m |] eqn:Ht.
    + destruct (generateFullAmortization_finite fuel
                (Simplified.loanAmount inp - Simplified.extraCash inp)
                (Simplified.interestRate inp) m
                (Simplified.calculateEMI (Simplified.loanAmount inp)
                   (Simplified.interestRate inp)
                   (Simplified.tenureYears inp * 12))) as [sched [-> _]].
      eexists; reflexivity.
    + exfalso. apply Hn. repeat split; assumption.
Qed.

(** [analyzeLoan] returns, with any fuel, exactly on the inputs that do
    not send the unbounded loop into the never-amortizes case (in exact
    arithmetic as far as the sentinel test of the reduce-tenure path is
    concerned). *)
Lemma analyzeLoan_returns_iff (fuel : nat) (inp : Simplified.Inputs) :
  (exists res, Simplified.analyzeLoan fuel inp = Some res) <->
  ~ loops_forever inp.
Proof.
  split.
  - intros [res H] Hloop.
    apply analyzeLoan_Some in H.
    destruct H as (orig & e & t & sv & am & b & _ & Hp & _).
    rewrite prepayLoan_loops in Hp by exact Hloop. discriminate.
  - intros Hn. unfold Simplified.analyzeLoan. cbv zeta.
    destruct (generateFullAmortization_finite fuel
                (Simplified.loanAmount inp) (Simplified.interestRate inp)
                (Simplified.tenureYears inp * 12)
                (Simplified.calculateEMI (Simplified.loanAmount inp)
                   (Simplified.interestRate inp)
                   (Simplified.tenureYears inp * 12))) as [orig [-> _]].
    cbn [JS.bind].
    destruct (prepayLoan_returns fuel inp (Simplified.totalInterest orig) Hn)
      as [[[[[e t] sv] am] b] ->].
    cbn [JS.bind]. eexists; reflexivity.
Qed.


(** The fuel of the model does not matter: the unbounded loop is only
    entered with the sentinel as its bound, and then it never ends. *)
Lemma prepayLoan_fuel (fuel fuel' : nat) (inp : Simplified.Inputs)
    (emi tio : R) :
  Simplified.prepayLoan fuel' inp emi tio =
  Simplified.prepayLoan fuel inp emi tio.
Proof.
  unfold Simplified.prepayLoan. cbv zeta.
  destruct (Rgt_dec _ 0) as [Hgt | _]; [| reflexivity].
  destruct (String.eqb (Simplified.prepaymentMethod inp) "reduceEmi");
    [reflexivity |].
  destruct (Simplified.calculateNewTenure _ emi _) as [m |] eqn:Ht;
    [reflexivity |].
  apply calculateNewTenure_Infinity_inv in Ht.
  destruct Ht as (HP & HE & Hr & Hle).
  unfold Simplified.generateFullAmortization.
  destruct (Rle_dec _ 0); [lra |].
  destruct (Rle_dec emi 0); [lra |].
  cbv zeta. rewrite !amortLoopInf_diverges by assumption. reflexivity.
Qed.

Lemma analyzeLoan_fuel (fuel fuel' : nat) (inp : Simplified.Inputs) :
  Simplified.analyzeLoan fuel' inp = Simplified.analyzeLoan fuel inp.
Proof.
  unfold Simplified.analyzeLoan. cbv zeta.
  change (Simplified.generateFullAmortization fuel'
            (Simplified.loanAmount inp) (Simplified.interestRate inp)
            (Fin (Simplified.tenureYears inp * 12))
            (Simplified.calculateEMI (Simplified.loanAmount inp)
               (Simplified.interestRate inp)
               (Simplified.tenureYears inp * 12)))
    with (Simplified.generateFullAmortization fuel
            (Simplified.loanAmount inp) (Simplified.interestRate inp)
            (Fin (Simplified.tenureYears inp * 12))
            (Simplified.calculateEMI (Simplified.loanAmount inp)
               (Simplified.interestRate inp)
               (Simplified.tenureYears inp * 12))).
  destruct (Simplified.generateFullAmortization fuel _ _ _ _) as [orig |];
    [| reflexivity].
  cbn [JS.bind]. rewrite (prepayLoan_fuel fuel fuel'). reflexivity.
Qed.

Lemma analyzeLoan_finite_bound_returns (fuel : nat) (inp : Simplified.Inputs) :
  finite_bound inp ->
  exists res, Simplified.analyzeLoan fuel inp = Some res.
Proof.
  intros [Hm | Hle]; apply analyzeLoan_returns_iff; intros (Hgt & Hm' & _).
  - rewrite Hm in Hm'. discriminate.
  - lra.
Qed.

(** ** The orchestrator of the first component *)

Lemma Basic_analyzeLoan_fields (inp : Basic.Inputs) :
  let totalMonths := Basic.tenureYears inp * 12 in
  let res := Basic.analyzeLoan inp in
  Basic.originalEMI res =
    Basic.calculateEMI (Basic.loanAmount inp) (Basic.interestRate inp)
      totalMonths /\
  Basic.investmentGain res =
    Basic.calculateFutureValue (Basic.extraCash inp)
      (Basic.investmentReturn inp) totalMonths - Basic.extraCash inp /\
  Basic.netBenefitInvesting res =
    Basic.investmentGain res + Basic.originalLoanTaxBenefit res /\
  Basic.netBenefitPrepaying res =
    Basic.interestSaved res + Basic.prepaidLoanTaxBenefit res /\
  Basic.betterOption res =
    (if Rgt_dec (Basic.netBenefitInvesting res) (Basic.netBenefitPrepaying res)
     then "Invest"%string else "Prepay"%string).
Proof.
  cbv zeta. unfold Basic.analyzeLoan. cbv zeta.
  destruct (String.eqb (Basic.taxRegime inp) "old");
    destruct (Rgt_dec (Basic.loanAmount inp - Basic.extraCash inp) 0);
    cbn; repeat split.
Qed.

Lemma Basic_analyzeLoan_new_regime (inp : Basic.Inputs) :
  String.eqb (Basic.taxRegime inp) "old" = false ->
  Basic.originalLoanTaxBenefit (Basic.analyzeLoan inp) = 0 /\
  Basic.prepaidLoanTaxBenefit (Basic.analyzeLoan inp) = 0.
Proof.
  intros H. unfold Basic.analyzeLoan. cbv zeta. rewrite H.
  destruct (Rgt_dec (Basic.loanAmount inp - Basic.extraCash inp) 0);
    cbn; split; reflexivity.
Qed.

Lemma Basic_analyzeLoan_paid_off (inp : Basic.Inputs) :
  Basic.loanAmount inp <= Basic.extraCash inp ->
  Basic.newEMI (Basic.analyzeLoan inp) = 0 /\
  Basic.interestSaved (Basic.analyzeLoan inp) =
    Basic.originalEMI (Basic.analyzeLoan inp) * (Basic.tenureYears inp * 12)
    - Basic.loanAmount inp /\
  Basic.prepaidLoanTaxBenefit (Basic.analyzeLoan inp) = 0.
Proof.
  intros H. unfold Basic.analyzeLoan. cbv zeta.
  destruct (Rgt_dec (Basic.loanAmount inp - Basic.extraCash inp) 0); [lra |].
  destruct (String.eqb (Basic.taxRegime inp) "old");
    cbn; repeat split.
Qed.

Lemma calculateFutureValue_monthly (P rate : R) (km : nat) :
  0 < P -> 0 <= rate -> (0 < km)%nat ->
  Basic.calculateFutureValue P rate (INR km) = P * (1 + rate / 100 / 12) ^ km.
Proof.
  intros HP Hr Hk. unfold Basic.calculateFutureValue.
  destruct (Rle_dec P 0); [lra |].
  destruct (Rlt_dec rate 0); [lra |].
  destruct (Rle_dec (INR km) 0) as [Hle | _].
  { apply lt_0_INR in Hk. lra. }
  cbv zeta. rewrite Math_pow_nat. reflexivity.
Qed.

Lemma calculateFutureValue_positive_case (P rate months : R) :
  0 < P -> 0 <= rate -> 0 < months ->
  Basic.calculateFutureValue P rate months =
    P * Rpower (1 + rate / 100 / 12) months.
Proof.
  intros HP Hr Hm. unfold Basic.calculateFutureValue.
  destruct (Rle_dec P 0); [lra |].
  destruct (Rlt_dec rate 0); [lra |].
  destruct (Rle_dec months 0); [lra |].
  cbv zeta. rewrite Math_pow_pos by lra. reflexivity.
Qed.

(** The decision rule shared by the two components. *)
Lemma decision_rule (a b : R) :
  let option := if Rgt_dec a b then "Invest"%string else "Prepay"%string in
  (option = "Invest"%string <-> a > b) /\
  (option = "Prepay"%string <-> a <= b).
Proof.
  cbv zeta. destruct (Rgt_dec a b) as [H | H]; split; split;
    intros H'; try reflexivity; try discriminate; lra.
Qed.

(** C1 as stated fails on the first component, which has no investment
    tax: with a gain above 100000 it adds all of it to
    [netBenefitInvesting]: the result is neither the gain after the tax
    on equity (10% of what exceeds 100000) plus the tax benefit, nor the
    gain after tax at the slab of 30% plus the tax benefit. *)
Lemma decision_comparator_counterexample :
  Basic.netBenefitInvesting (Basic.analyzeLoan taxed_gain_inputs_basic) <>
    (Basic.investmentGain (Basic.analyzeLoan taxed_gain_inputs_basic)
     - Rmax 0 (Basic.investmentGain (Basic.analyzeLoan taxed_gain_inputs_basic)
               - 100000) * (1 / 10))
    + Basic.originalLoanTaxBenefit (Basic.analyzeLoan taxed_gain_inputs_basic)
  /\
  Basic.netBenefitInvesting (Basic.analyzeLoan taxed_gain_inputs_basic) <>
    (Basic.investmentGain (Basic.analyzeLoan taxed_gain_inputs_basic)
     - Basic.investmentGain (Basic.analyzeLoan taxed_gain_inputs_basic)
       * (30 / 100))
    + Basic.originalLoanTaxBenefit (Basic.analyzeLoan taxed_gain_inputs_basic).
Proof.
  destruct (Basic_analyzeLoan_fields taxed_gain_inputs_basic)
    as (_ & Hgain & Hinv & _).
  cbv zeta in Hgain, Hinv.
  assert (Hg : 100000 <
               Basic.investmentGain (Basic.analyzeLoan taxed_gain_inputs_basic)).
  { rewrite Hgain. unfold taxed_gain_inputs_basic.
    cbn [Basic.extraCash Basic.investmentReturn Basic.tenureYears].
    replace (1 * 12) with (INR 12) by (simpl; lra).
    rewrite calculateFutureValue_monthly by (lra || lia).
    pose proof (pow12_gt_linear (1 + 12 / 100 / 12)) as Hstep. lra. }
  rewrite Hinv.
  set (g := Basic.investmentGain (Basic.analyzeLoan taxed_gain_inputs_basic))
    in *.
  rewrite (Rmax_right 0 (g - 100000)) by lra.
  split; lra.
Qed.

(** C1, amended.  Whenever [analyzeLoan] of the second component returns
    a result, its [netBenefitInvesting] is the post-tax investment gain
    plus the tax benefit of the original loan, its [netBenefitPrepaying]
    is [interestSaved] plus the tax benefit of the prepaid loan, and
    [betterOption] is "Invest" exactly when
    [netBenefitInvesting > netBenefitPrepaying] and "Prepay" otherwise,
    equality included; a result is returned at least when the
    installment is reduced or the cash covers the loan, and the fuel of
    the model does not matter: a call that has not returned never
    will.  The first component always returns and decides by the same
    rule, but has no investment tax: its [netBenefitInvesting] is the
    untaxed [investmentGain] plus the tax benefit. *)
Theorem decision_comparator
    (fuel : nat) (inp : Simplified.Inputs) (binp : Basic.Inputs) :
  (forall res : Simplified.Results,
     Simplified.analyzeLoan fuel inp = Some res ->
     Simplified.netBenefitInvesting res =
       Simplified.postTaxInvestmentGain res
       + Simplified.originalLoanTaxBenefit res /\
     Simplified.postTaxInvestmentGain res =
       Simplified.investmentGain res - Simplified.investmentTax res /\
     Simplified.netBenefitPrepaying res =
       Simplified.interestSaved res + Simplified.prepaidLoanTaxBenefit res /\
     (Simplified.betterOption res = "Invest"%string <->
      Simplified.netBenefitInvesting res > Simplified.netBenefitPrepaying res) /\
     (Simplified.betterOption res = "Prepay"%string <->
      Simplified.netBenefitInvesting res <= Simplified.netBenefitPrepaying res))
  /\
  (finite_bound inp ->
   exists res, Simplified.analyzeLoan fuel inp = Some res)
  /\
  (forall fuel' : nat,
     Simplified.analyzeLoan fuel' inp = Simplified.analyzeLoan fuel inp)
  /\
  (let bres := Basic.analyzeLoan binp in
   Basic.investmentGain bres =
     Basic.calculateFutureValue (Basic.extraCash binp)
       (Basic.investmentReturn binp) (Basic.tenureYears binp * 12)
     - Basic.extraCash binp /\
   Basic.netBenefitInvesting bres =
     Basic.investmentGain bres + Basic.originalLoanTaxBenefit bres /\
   Basic.netBenefitPrepaying bres =
     Basic.interestSaved bres + Basic.prepaidLoanTaxBenefit bres /\
   (Basic.betterOption bres = "Invest"%string <->
    Basic.netBenefitInvesting bres > Basic.netBenefitPrepaying bres) /\
   (Basic.betterOption bres = "Prepay"%string <->
    Basic.netBenefitInvesting bres <= Basic.netBenefitPrepaying bres)).
Proof.
  split; [| split; [| split]].
  - intros res H.
    unfold Simplified.analyzeLoan in H. cbv zeta in H.
    destruct (Simplified.generateFullAmortization fuel _ _ _ _) as [orig |];
      [| discriminate].
    cbn [JS.bind] in H.
    destruct (Simplified.prepayLoan fuel inp _ _) as [[[[[e t] sv] am] b] |];
      [| discriminate].
    cbn [JS.bind] in H. injection H as <-. cbn.
    split; [reflexivity |]. split; [reflexivity |]. split; [reflexivity |].
    apply decision_rule.
  - apply analyzeLoan_finite_bound_returns.
  - intros fuel'. apply analyzeLoan_fuel.
  - cbv zeta.
    destruct (Basic_analyzeLoan_fields binp) as (_ & Hg & Hi & Hp & Hb).
    split; [exact Hg |]. split; [exact Hi |]. split; [exact Hp |].
    rewrite Hb. apply decision_rule.
Qed.

(** C5.  Under tax regime "new" both tax-benefit totals are 0 in every
    result that [analyzeLoan] returns, whatever the other inputs, in both
    components; the first component always returns, the second at
    least when the installment is reduced or the cash covers the loan,
    and the fuel of the model does not matter: a call that has not
    returned never will. *)
Theorem new_regime_no_tax_benefit (fuel : nat) (inp : Simplified.Inputs)
    (binp : Basic.Inputs) :
  (Simplified.taxRegime inp = "new"%string ->
   forall res : Simplified.Results,
     Simplified.analyzeLoan fuel inp = Some res ->
     Simplified.originalLoanTaxBenefit res = 0 /\
     Simplified.prepaidLoanTaxBenefit res = 0)
  /\
  (finite_bound inp ->
   exists res, Simplified.analyzeLoan fuel inp = Some res)
  /\
  (forall fuel' : nat,
     Simplified.analyzeLoan fuel' inp = Simplified.analyzeLoan fuel inp)
  /\
  (Basic.taxRegime binp = "new"%string ->
   Basic.originalLoanTaxBenefit (Basic.analyzeLoan binp) = 0 /\
   Basic.prepaidLoanTaxBenefit (Basic.analyzeLoan binp) = 0).
Proof.
  split; [| split; [| split]].
  - intros Hnew res Hres.
    destruct (analyzeLoan_Some _ _ _ Hres)
      as (orig & e & t & sv & am & b & _ & Hp & _ & _ & _ & _ & _ & Hb
          & _ & _ & _ & Hben).
    rewrite Hnew in Hben. simpl in Hben. split; [exact Hben |].
    rewrite Hb. apply prepayLoan_Some in Hp. cbv zeta in Hp.
    destruct Hp as [(_ & _ & _ & _ & _ & ->) | (_ & _ & _ & _ & ->)].
    + reflexivity.
    + rewrite Hnew. reflexivity.
  - apply analyzeLoan_finite_bound_returns.
  - intros fuel'. apply analyzeLoan_fuel.
  - intros Hnew. apply Basic_analyzeLoan_new_regime.
    rewrite Hnew. reflexivity.
Qed.



(** ** The investment projection *)

(** C8 as stated fails on the first component: after one year at 12% the
    gain on 100 is not [100 * (1 + 12/100)^1 - 100], because
    [calculateFutureValue] compounds monthly. *)
Lemma investment_projection_counterexample :
  Basic.investmentGain (Basic.analyzeLoan one_year_inputs_basic)
    <> 100 * (1 + 12 / 100) ^ 1 - 100.
Proof.
  destruct (Basic_analyzeLoan_fields one_year_inputs_basic)
    as (_ & Hgain & _).
  rewrite Hgain. unfold one_year_inputs_basic.
  cbn [Basic.extraCash Basic.investmentReturn Basic.tenureYears].
  replace (1 * 12) with (INR 12) by (simpl; lra).
  rewrite calculateFutureValue_monthly by (lra || lia).
  pose proof (pow12_gt_linear (1 + 12 / 100 / 12)) as Hstep. lra.
Qed.

(** C8, amended.  In every result that [analyzeLoan] of the second
    component returns (it returns at least when the installment is
    reduced or the cash covers the loan, and the fuel of the model does
    not matter) the gain is
    [cash * (1 + r/100)^tenureYears - cash] (annual compounding): the
    iterated product for a whole number [k] of years, and
    [exp (tenureYears * ln (1 + r/100))] for any tenure when
    [1 + r/100 > 0]; for investment type "equity" a gain that does not
    exceed the exemption of 100000 gives [investmentTax = 0] and
    [postTaxInvestmentGain = investmentGain].  In the first component
    the gain is [calculateFutureValue cash r (tenureYears * 12) - cash]
    and [calculateFutureValue] compounds monthly:
    [principal * (1 + r/100/12)^months] for [principal > 0], [r >= 0]
    and every [months > 0], whole or not. *)
Theorem investment_projection
    (fuel : nat) (inp : Simplified.Inputs) (binp : Basic.Inputs) :
  (forall res : Simplified.Results,
     Simplified.analyzeLoan fuel inp = Some res ->
     (forall k : nat,
        Simplified.tenureYears inp = INR k ->
        Simplified.investmentGain res =
          Simplified.extraCash inp
            * (1 + Simplified.investmentReturn inp / 100) ^ k
          - Simplified.extraCash inp) /\
     (0 < 1 + Simplified.investmentReturn inp / 100 ->
      Simplified.investmentGain res =
        Simplified.extraCash inp
          * Rpower (1 + Simplified.investmentReturn inp / 100)
                   (Simplified.tenureYears inp)
        - Simplified.extraCash inp) /\
     Simplified.postTaxInvestmentGain res =
       Simplified.investmentGain res - Simplified.investmentTax res /\
     (Simplified.investmentType inp = "equity"%string ->
      Simplified.investmentGain res <= Simplified.EQUITY_LTCG_EXEMPTION ->
      Simplified.investmentTax res = 0 /\
      Simplified.postTaxInvestmentGain res = Simplified.investmentGain res))
  /\
  (finite_bound inp ->
   exists res, Simplified.analyzeLoan fuel inp = Some res)
  /\
  (forall fuel' : nat,
     Simplified.analyzeLoan fuel' inp = Simplified.analyzeLoan fuel inp)
  /\
  Basic.investmentGain (Basic.analyzeLoan binp) =
    Basic.calculateFutureValue (Basic.extraCash binp)
      (Basic.investmentReturn binp) (Basic.tenureYears binp * 12)
    - Basic.extraCash binp
  /\
  (forall P rate months : R,
     0 < P -> 0 <= rate -> 0 < months ->
     Basic.calculateFutureValue P rate months =
       P * Rpower (1 + rate / 100 / 12) months)
  /\
  (forall (P rate : R) (km : nat),
     0 < P -> 0 <= rate -> (0 < km)%nat ->
     Basic.calculateFutureValue P rate (INR km) =
       P * (1 + rate / 100 / 12) ^ km).
Proof.
  split; [| split; [| split; [| split; [| split]]]].
  - intros res Hres.
    destruct (analyzeLoan_Some _ _ _ Hres)
      as (orig & e & t & sv & am & b & _ & _ & _ & _ & _ & _ & _ & _
          & Hgain & Htax & Hpost & _).
    split; [| split; [| split]].
    + intros k Hk. rewrite Hgain, Hk, Math_pow_nat. reflexivity.
    + intros Hbase. rewrite Hgain, Math_pow_pos by exact Hbase. reflexivity.
    + exact Hpost.
    + intros Heq Hle.
      assert (Ht : Simplified.investmentTax res = 0).
      { rewrite Htax, Heq. change (String.eqb "equity" "equity") with true.
        cbv iota. unfold Math_max. rewrite Rmax_left by lra. ring. }
      split; [exact Ht |]. rewrite Hpost, Ht. ring.
  - apply analyzeLoan_finite_bound_returns.
  - intros fuel'. apply analyzeLoan_fuel.
  - exact (proj1 (proj2 (Basic_analyzeLoan_fields binp))).
  - apply calculateFutureValue_positive_case.
  - apply calculateFutureValue_monthly.
Qed.

(** 500 in equity for two years at 10% beside a loan of 100: a gain of
    105, untaxed.  In the first component 100 at 12% for five and a half
    months. *)
Lemma investment_projection_witness :
  (exists res,
     Simplified.analyzeLoan 0 small_equity_inputs = Some res /\
     Simplified.investmentGain res = 105 /\
     Simplified.investmentTax res = 0 /\
     Simplified.postTaxInvestmentGain res = 105) /\
  Basic.calculateFutureValue 100 12 half_year_months =
    100 * Rpower (1 + 12 / 100 / 12) half_year_months.
Proof.
  destruct (investment_projection 0 small_equity_inputs one_year_inputs_basic)
    as (Hall & Hret & _ & _ & Hfv & _).
  split.
  - destruct Hret as [res Hres]; [left; reflexivity |].
    exists res. split; [exact Hres |].
    destruct (Hall res Hres) as (Hgain & _ & _ & Heq).
    assert (Hg : Simplified.investmentGain res = 105).
    { rewrite (Hgain 2%nat) by (simpl; lra). unfold small_equity_inputs.
      cbn [Simplified.extraCash Simplified.investmentReturn]. simpl. field. }
    destruct (Heq eq_refl) as [Ht Hp].
    { rewrite Hg. unfold Simplified.EQUITY_LTCG_EXEMPTION. lra. }
    split; [exact Hg |]. split; [exact Ht |]. rewrite Hp. exact Hg.
  - apply Hfv; unfold half_year_months; lra.
Defined.

(** ** The reduce-tenure path and the sentinel *)

(** In exact arithmetic: for principal [p > 0], rate [r > 0],
    [n = 12 * tenureYears > 0] and extra cash [0 < c < p], the installment
    [calculateEMI p r n] exceeds [(p - c) * (r/100/12)]; so on the
    reduce-tenure path [calculateNewTenure] returns a finite number of
    months, and [analyzeLoan] returns, with any fuel, a result whose
    prepaid schedule was built under that finite bound.  The margin
    [calculateEMI p r n - p * (r/100/12)] is
    [p * (r/100/12) / ((1 + r/100/12)^n - 1)], which double precision
    loses once [(1 + r/100/12)^n] exceeds 2^53. *)
Lemma reduce_tenure_terminates_exact (fuel : nat) (inp : Simplified.Inputs) :
  let p := Simplified.loanAmount inp in
  let r := Simplified.interestRate inp in
  let n := Simplified.tenureYears inp * 12 in
  let c := Simplified.extraCash inp in
  0 < p -> 0 < r -> 0 < n -> 0 < c < p ->
  String.eqb (Simplified.prepaymentMethod inp) "reduceEmi" = false ->
  Simplified.calculateEMI p r n > (p - c) * (r / 100 / 12) /\
  exists m res,
    Simplified.calculateNewTenure (p - c) (Simplified.calculateEMI p r n) r
      = Fin m /\
    Simplified.analyzeLoan fuel inp = Some res /\
    Simplified.newEmi res = Simplified.calculateEMI p r n /\
    Simplified.newTenureMonths res = Fin m /\
    Simplified.generateFullAmortization fuel (p - c) r (Fin m)
      (Simplified.calculateEMI p r n)
      = Some (Simplified.prepaidAmortization res) /\
    (length (Simplified.prepaidAmortization res) <= iterations m)%nat.
Proof.
  intros p r n c Hp Hr Hn Hc Hm.
  assert (Hgt : (p - c) * (r / 100 / 12) < Simplified.calculateEMI p r n).
  { apply Rle_lt_trans with (p * (r / 100 / 12)).
    - apply Rmult_le_compat_r; lra.
    - apply calculateEMI_gt_interest; assumption. }
  split; [exact Hgt |].
  destruct (Simplified.calculateNewTenure (p - c)
              (Simplified.calculateEMI p r n) r) as [m |] eqn:Ht.
  2:{ apply calculateNewTenure_Infinity_inv in Ht. lra. }
  assert (Hn' : ~ loops_forever inp).
  { intros (_ & _ & Hinf). fold p r n c in Hinf. congruence. }
  destruct (proj2 (analyzeLoan_returns_iff fuel inp) Hn') as [res Hres].
  exists m, res. split; [reflexivity |]. split; [exact Hres |].
  destruct (analyzeLoan_Some _ _ _ Hres)
    as (orig & e & t & sv & am & b & _ & Hpre & _ & He & Htm & _ & Ham & _).
  apply prepayLoan_Some in Hpre. cbv zeta in Hpre.
  fold p r n c in Hpre.
  destruct Hpre as [(Hle & _) | (_ & Het & Hg & _)]; [lra |].
  rewrite Hm, Ht in Het. injection Het as -> ->.
  rewrite He, Htm, Ham. split; [reflexivity |]. split; [reflexivity |].
  split; [exact Hg |].
  destruct (generateFullAmortization_finite fuel (p - c) r m
              (Simplified.calculateEMI p r n)) as [sched [Hs Hlen]].
  rewrite Hs in Hg. injection Hg as <-. exact Hlen.
Qed.

(** C10.  The values double precision gives at loan 1000, rate 1200%,
    5 years, extra cash 1e-14, reduce tenure: [1 + r/100/12] is 2 and
    [2^60 - 1] rounds to [2^60], so [calculateEMI(1000, 1200, 60)] is
    1000; [1000 - 1e-14] rounds to 1000.  On these values
    [calculateNewTenure] returns the sentinel, and
    [generateFullAmortization], called with [Infinity] as its bound, pays
    no principal and never returns. *)
Theorem sentinel_reached_after_rounding :
  Simplified.calculateNewTenure 1000 1000 1200 = Infinity /\
  forall fuel : nat,
    Simplified.generateFullAmortization fuel 1000 1200 Infinity 1000 = None.
Proof.
  split.
  - apply calculateNewTenure_never_amortizes; lra.
  - intros fuel. unfold Simplified.generateFullAmortization.
    destruct (Rle_dec 1000 0); [lra |].
    cbv zeta. apply amortLoopInf_diverges; lra.
Qed.

(** ** Yearly aggregation and deduction caps *)

Lemma array_get_end {A : Type} (l : list A) :
  array_get (map Some l) (length l) = None.
Proof.
  unfold array_get.
  replace (nth_error (map Some l) (length l)) with (@None (option A));
    [reflexivity |].
  symmetry. apply nth_error_None. rewrite length_map. lia.
Qed.

Lemma array_set_end {A : Type} (l : list A) (v : A) :
  array_set (map Some l) (length l) v = map Some l ++ [Some v].
Proof. induction l as [| x l IH]; simpl; [reflexivity | rewrite IH; reflexivity]. Qed.

Lemma array_get_last {A : Type} (l : list A) (y : A) :
  array_get (map Some l ++ [Some y]) (length l) = Some y.
Proof.
  unfold array_get. induction l as [| x l IH]; simpl; [reflexivity | exact IH].
Qed.

Lemma array_set_last {A : Type} (l : list A) (y v : A) :
  array_set (map Some l ++ [Some y]) (length l) v = map Some l ++ [Some v].
Proof. induction l as [| x l IH]; simpl; [reflexivity | rewrite IH; reflexivity]. Qed.

Lemma elements_dense {A : Type} (l : list A) : elements (map Some l) = l.
Proof. induction l as [| x l IH]; simpl; [reflexivity | rewrite IH; reflexivity]. Qed.

Lemma forEach_app {A St : Type} (f : St -> A -> nat -> St)
    (l1 l2 : list A) (i : nat) (st : St) :
  forEach f (l1 ++ l2) i st = forEach f l2 (i + length l1) (forEach f l1 i st).
Proof.
  revert i st. induction l1 as [| x l1 IH]; intros i st; simpl.
  - rewrite Nat.add_0_r. reflexivity.
  - rewrite IH. f_equal. lia.
Qed.

Lemma year_boundary (q j : nat) :
  (j < 12)%nat ->
  Nat.eqb ((12 * q + j + 1) mod 12) 0 = Nat.eqb (j + 1) 12.
Proof.
  intros Hj.
  replace (12 * q + j + 1)%nat with (j + 1 + q * 12)%nat by lia.
  rewrite Nat.Div0.mod_add.
  destruct (Nat.eq_dec (j + 1) 12) as [E | E].
  - rewrite E. reflexivity.
  - rewrite Nat.mod_small by lia.
    rewrite (proj2 (Nat.eqb_neq (j + 1) 12) E).
    apply Nat.eqb_neq. lia.
Qed.

(** A step of the yearly callback when the slot of the current year is
    already filled. *)
Lemma yearlyStep_filled (ys : list Simplified.Year.t) (y : Simplified.Year.t)
    (row : Simplified.Row) (i : nat) :
  Simplified.yearlyStep (map Some ys ++ [Some y], S (length ys)) row i =
    (map Some ys ++
       [Some (Simplified.Year.mk (Simplified.Year.year y)
                (Simplified.Year.interest y + Simplified.interest row)
                (Simplified.Year.principal y + Simplified.principal row))],
     if Nat.eqb ((i + 1) mod 12) 0 then S (S (length ys)) else S (length ys)).
Proof.
  unfold Simplified.yearlyStep.
  replace (S (length ys) - 1)%nat with (length ys) by lia.
  rewrite array_get_last. rewrite array_get_last. rewrite array_set_last.
  reflexivity.
Qed.

(** A step of the yearly callback when the current year has no slot yet:
    the slot is created with zero sums first. *)
Lemma yearlyStep_fresh (ys : list Simplified.Year.t)
    (row : Simplified.Row) (i : nat) :
  Simplified.yearlyStep (map Some ys, S (length ys)) row i =
    Simplified.yearlyStep
      (map Some ys ++ [Some (Simplified.Year.mk (S (length ys)) 0 0)],
       S (length ys)) row i.
Proof.
  unfold Simplified.yearlyStep.
  replace (S (length ys) - 1)%nat with (length ys) by lia.
  rewrite array_get_end, array_set_end, !array_get_last. reflexivity.
Qed.

(** The callback over the rest of a year whose slot is filled: [j] rows
    of the year are done, [l] holds at most the remaining ones. *)
Lemma forEach_in_year (l : list Simplified.Row) (j : nat)
    (ys : list Simplified.Year.t) (y : Simplified.Year.t) :
  (j < 12)%nat -> (j + length l <= 12)%nat ->
  forEach Simplified.yearlyStep l (12 * length ys + j)
    (map Some ys ++ [Some y], S (length ys)) =
  (map Some ys ++
     [Some (Simplified.Year.mk (Simplified.Year.year y)
              (fold_left (fun a row => a + Simplified.interest row) l
                 (Simplified.Year.interest y))
              (fold_left (fun a row => a + Simplified.principal row) l
                 (Simplified.Year.principal y)))],
   if Nat.eqb (j + length l) 12 then S (S (length ys)) else S (length ys)).
Proof.
  revert j y. induction l as [| row l IH]; intros j y Hj Hlen.
  - cbn [forEach fold_left length].
    replace (Nat.eqb (j + 0) 12) with false
      by (symmetry; apply Nat.eqb_neq; lia).
    destruct y; reflexivity.
  - cbn [forEach fold_left]. cbn [length] in Hlen |- *.
    rewrite yearlyStep_filled, year_boundary by exact Hj.
    destruct (Nat.eqb (j + 1) 12) eqn:E.
    + apply Nat.eqb_eq in E.
      destruct l as [| row' l']; [| cbn [length] in Hlen; lia].
      cbn [forEach fold_left length].
      replace (Nat.eqb (j + 1) 12) with true
        by (symmetry; apply Nat.eqb_eq; lia).
      reflexivity.
    + apply Nat.eqb_neq in E.
      replace (S (12 * length ys + j)) with (12 * length ys + S j)%nat by lia.
      rewrite IH by lia.
      cbn [Simplified.Year.year Simplified.Year.interest
           Simplified.Year.principal].
      replace (S j + length l)%nat with (j + S (length l))%nat by lia.
      reflexivity.
Qed.

(** The callback over one whole or trailing year, starting at a year
    boundary. *)
Lemma forEach_year (l : list Simplified.Row) (ys : list Simplified.Year.t) :
  l <> [] -> (length l <= 12)%nat ->
  forEach Simplified.yearlyStep l (12 * length ys)
    (map Some ys, S (length ys)) =
  (map Some (ys ++ aggregates (S (length ys)) [l]),
   if Nat.eqb (length l) 12 then S (S (length ys)) else S (length ys)).
Proof.
  intros Hne Hlen. destruct l as [| row l]; [contradiction |].
  cbn [forEach]. rewrite yearlyStep_fresh, yearlyStep_filled.
  pose proof (year_boundary (length ys) 0) as Hb.
  rewrite Nat.add_0_r in Hb. rewrite Hb by lia. cbn [Nat.eqb Nat.add].
  cbn [length] in Hlen.
  replace (S (12 * length ys)) with (12 * length ys + 1)%nat by lia.
  rewrite forEach_in_year by lia.
  cbn [Simplified.Year.year Simplified.Year.interest Simplified.Year.principal
       aggregates fold_left length].
  rewrite map_app. reflexivity.
Qed.

Lemma chunks_nil {A : Type} (fuel size : nat) : @chunks A fuel size [] = [].
Proof. destruct fuel; reflexivity. Qed.

(** The yearly loop computes the aggregates of the years of the
    schedule. *)
Lemma forEach_years (fuel : nat) (sched : list Simplified.Row)
    (ys : list Simplified.Year.t) :
  (length sched <= fuel)%nat ->
  fst (forEach Simplified.yearlyStep sched (12 * length ys)
         (map Some ys, S (length ys))) =
  map Some (ys ++ aggregates (S (length ys)) (chunks fuel 12 sched)).
Proof.
  revert sched ys. induction fuel as [| fuel IH]; intros sched ys Hlen.
  - destruct sched; [| cbn [length] in Hlen; lia].
    cbn. rewrite app_nil_r. reflexivity.
  - destruct sched as [| row sched'] eqn:Es.
    { cbn. rewrite app_nil_r. reflexivity. }
    rewrite <- Es in *.
    assert (Hne : sched <> []) by (rewrite Es; discriminate).
    assert (Hch : chunks (S fuel) 12 sched =
                  firstn 12 sched :: chunks fuel 12 (skipn 12 sched)).
    { rewrite Es. reflexivity. }
    rewrite Hch. clear Hch.
    rewrite <- (firstn_skipn 12 sched) at 1.
    rewrite forEach_app.
    assert (Hf : firstn 12 sched <> []).
    { rewrite Es. cbn. discriminate. }
    assert (Hfl : (length (firstn 12 sched) <= 12)%nat)
      by apply firstn_le_length.
    rewrite forEach_year by assumption.
    destruct (Nat.eqb (length (firstn 12 sched)) 12) eqn:E.
    + apply Nat.eqb_eq in E. rewrite E.
      set (ys' := ys ++ aggregates (S (length ys)) [firstn 12 sched]).
      assert (Hys' : length ys' = S (length ys)).
      { unfold ys'. rewrite length_app. cbn. lia. }
      replace (12 * length ys + 12)%nat with (12 * length ys')%nat by lia.
      rewrite <- Hys'. rewrite IH.
      * rewrite Hys'. unfold ys'. cbn [aggregates].
        rewrite <- app_assoc. reflexivity.
      * rewrite length_skipn. rewrite Es in Hlen |- *. cbn [length] in *. lia.
    + apply Nat.eqb_neq in E.
      assert (Hshort : (length sched < 12)%nat).
      { rewrite length_firstn in E. lia. }
      rewrite skipn_all2 by lia.
      rewrite chunks_nil. cbn [forEach fst].
      reflexivity.
Qed.

Lemma buildYearlyData_years (sched : list Simplified.Row) :
  Simplified.buildYearlyData sched = map Some (aggregates 1 (years sched)).
Proof.
  unfold Simplified.buildYearlyData, years.
  apply (forEach_years (length sched) sched []). lia.
Qed.

Lemma fold_left_plus_sumR {A : Type} (f : A -> R) (l : list A) (a : R) :
  fold_left (fun acc x => acc + f x) l a = a + sumR (map f l).
Proof.
  revert a. induction l as [| x l IH]; intros a; simpl.
  - ring.
  - rewrite IH. unfold sumR. ring.
Qed.

Lemma fold_deductionStep (allowance slab : R) (k : nat)
    (ys : list (list Simplified.Row)) (a : R) :
  fold_left (Simplified.deductionStep allowance slab) (aggregates k ys) a =
  a + sumR (map (fun y =>
                   (interestDeduction y + principalDeduction allowance y) * slab)
                ys).
Proof.
  revert k a. induction ys as [| y ys IH]; intros k a; simpl.
  - ring.
  - rewrite IH. unfold Simplified.deductionStep, Math_min.
    cbn [Simplified.Year.interest Simplified.Year.principal].
    rewrite !fold_left_plus_sumR.
    unfold interestDeduction, principalDeduction, annualInterest,
      annualPrincipal, sumR.
    rewrite !Rplus_0_l. ring.
Qed.

(** The tax-benefit loops of [analyzeLoan] compute the total of the
    specification. *)
Lemma loanTaxBenefit_total (sched : list Simplified.Row) (used slab : R) :
  Simplified.loanTaxBenefit sched
    (Math_max 0 (Simplified.SECTION_80C_LIMIT - used)) slab =
  totalTaxBenefit sched used slab.
Proof.
  unfold Simplified.loanTaxBenefit, totalTaxBenefit.
  rewrite buildYearlyData_years, elements_dense, fold_deductionStep.
  unfold remainingPrincipalAllowance, Math_max. ring.
Qed.

(** The years partition the schedule, in order, into groups of at most 12
    rows. *)
Lemma chunks_concat {A : Type} (fuel size : nat) (l : list A) :
  (0 < size)%nat -> (length l <= fuel)%nat ->
  concat (chunks fuel size l) = l.
Proof.
  intros Hs. revert l. induction fuel as [| fuel IH]; intros l Hlen.
  - destruct l; [reflexivity | cbn [length] in Hlen; lia].
  - destruct l as [| x l'] eqn:El; [reflexivity |].
    rewrite <- El in *.
    assert (Hch : chunks (S fuel) size l =
                  firstn size l :: chunks fuel size (skipn size l))
      by (rewrite El; reflexivity).
    rewrite Hch. cbn [concat]. rewrite IH.
    + apply firstn_skipn.
    + rewrite length_skipn. rewrite El in Hlen |- *. cbn [length] in *. lia.
Qed.

Lemma chunks_sizes {A : Type} (fuel size : nat) (l : list A) :
  (0 < size)%nat ->
  Forall (fun y => (0 < length y <= size)%nat) (chunks fuel size l).
Proof.
  intros Hs. revert l. induction fuel as [| fuel IH]; intros l.
  - constructor.
  - destruct l as [| x l'] eqn:El; [constructor |].
    rewrite <- El.
    assert (Hch : chunks (S fuel) size l =
                  firstn size l :: chunks fuel size (skipn size l))
      by (rewrite El; reflexivity).
    rewrite Hch. constructor; [| apply IH].
    split; [| apply firstn_le_length].
    rewrite length_firstn, El. cbn [length]. lia.
Qed.

Lemma years_partition (sched : list Simplified.Row) :
  concat (years sched) = sched /\
  Forall (fun y => (0 < length y <= 12)%nat) (years sched).
Proof.
  split.
  - apply chunks_concat; lia.
  - apply chunks_sizes. lia.
Qed.

(** Thirteen months make one full year and a trailing year of one
    month. *)
Example years_of_13_months (row : Simplified.Row) :
  years (repeat row 13) = [repeat row 12; [row]].
Proof. reflexivity. Qed.

(** C4.  The deduction loops of [analyzeLoan] compute, for every
    schedule, the sum over its years (groups of 12 rows) of
    (min(annualInterest, 200000) + min(annualPrincipal, allowance)) * slab:
    every year is capped on its own sums.  Under the old regime both
    tax-benefit totals of a result are this sum, over the original and
    over the prepaid schedule, with the one allowance
    [max(0, 150000 - used80C)] of the scenario and [slab = taxSlab/100];
    a result is returned at least when the installment is reduced or the
    cash covers the loan, and the fuel of the model does not matter: a
    call that has not returned never will. *)
Theorem deduction_caps_per_year (fuel : nat) (inp : Simplified.Inputs) :
  let slab := Simplified.taxSlab inp / 100 in
  let allowance := Rmax 0 (150000 - Simplified.used80C inp) in
  let benefit (sched : list Simplified.Row) :=
    sumR (map (fun y =>
                 (Rmin (annualInterest y) 200000
                  + Rmin (annualPrincipal y) allowance) * slab)
              (years sched)) in
  (forall sched : list Simplified.Row,
     Simplified.loanTaxBenefit sched
       (Math_max 0 (Simplified.SECTION_80C_LIMIT - Simplified.used80C inp))
       slab
     = benefit sched)
  /\
  (Simplified.taxRegime inp = "old"%string ->
   forall res : Simplified.Results,
     Simplified.analyzeLoan fuel inp = Some res ->
     Simplified.originalLoanTaxBenefit res =
       benefit (Simplified.originalAmortization res) /\
     Simplified.prepaidLoanTaxBenefit res =
       benefit (Simplified.prepaidAmortization res))
  /\
  (finite_bound inp ->
   exists res, Simplified.analyzeLoan fuel inp = Some res)
  /\
  (forall fuel' : nat,
     Simplified.analyzeLoan fuel' inp = Simplified.analyzeLoan fuel inp).
Proof.
  cbv zeta. split; [| split; [| split]].
  - intros sched. rewrite loanTaxBenefit_total. reflexivity.
  - intros Hold res Hres.
    destruct (analyzeLoan_Some _ _ _ Hres)
      as (orig & e & t & sv & am & b & _ & Hp & Horig & _ & _ & _ & Ham & Hb
          & _ & _ & _ & Hben).
    rewrite Hold in Hben. change (String.eqb "old" "old") with true in Hben.
    cbv iota in Hben.
    split.
    + rewrite Hben, Horig, loanTaxBenefit_total. reflexivity.
    + rewrite Hb, Ham. apply prepayLoan_Some in Hp. cbv zeta in Hp.
      destruct Hp as [(_ & _ & _ & _ & -> & ->) | (_ & _ & _ & _ & ->)].
      * reflexivity.
      * rewrite Hold. change (String.eqb "old" "old") with true. cbv iota.
        rewrite loanTaxBenefit_total. reflexivity.
  - apply analyzeLoan_finite_bound_returns.
  - intros fuel'. apply analyzeLoan_fuel.
Qed.

Lemma loops_forever_never_returns (fuel : nat) (inp : Simplified.Inputs) :
  loops_forever inp -> Simplified.analyzeLoan fuel inp = None.
Proof.
  intros Hloop.
  destruct (Simplified.analyzeLoan fuel inp) as [res |] eqn:E;
    [| reflexivity].
  exfalso.
  apply (proj1 (analyzeLoan_returns_iff fuel inp));
    [exists res; exact E | exact Hloop].
Qed.

(** With negative extra cash the original installment no longer covers
    the interest of the balance to repay: the tenure is [Infinity] and
    [analyzeLoan] never returns. *)
Lemma negative_cash_never_returns (fuel : nat) :
  Simplified.analyzeLoan fuel negative_cash_inputs = None.
Proof.
  apply loops_forever_never_returns.
  unfold loops_forever, negative_cash_inputs.
  cbn [Simplified.loanAmount Simplified.extraCash Simplified.interestRate
       Simplified.tenureYears Simplified.prepaymentMethod].
  split; [lra |]. split; [reflexivity |].
  apply calculateNewTenure_never_amortizes; try lra.
  - apply calculateEMI_pos; lra.
  - rewrite calculateEMI_positive_case by lra.
    replace (1 * 12) with (INR 12) by (simpl; lra).
    rewrite Rpower_pow by lra.
    pose proof (pow12_gt_linear (1 + 12 / 100 / 12)) as HX.
    set (X := (1 + 12 / 100 / 12) ^ 12) in *.
    assert (HX1 : 1 < X) by lra.
    apply Rmult_le_reg_r with (X - 1); [lra |].
    replace (100 * (12 / 100 / 12) * X / (X - 1) * (X - 1)) with X
      by (field; lra).
    lra.
Qed.

(** ** Schedules of an amortizing installment in closed form *)

Lemma unclampedBalance_0 (P mr emi : R) :
  mr <> 0 -> unclampedBalance P mr emi 0 = P.
Proof. intros H. unfold unclampedBalance. simpl. field. exact H. Qed.

Lemma unclampedBalance_S (P mr emi : R) (j : nat) :
  mr <> 0 ->
  unclampedBalance P mr emi (S j) =
    unclampedBalance P mr emi j * (1 + mr) - emi.
Proof. intros H. unfold unclampedBalance. simpl. field. exact H. Qed.

Lemma unclampedBalance_le (P mr emi : R) (j : nat) :
  0 < mr -> P * mr < emi -> unclampedBalance P mr emi j <= P.
Proof.
  intros Hmr HE. induction j as [| j IH].
  - rewrite unclampedBalance_0 by lra. lra.
  - rewrite unclampedBalance_S by lra. nra.
Qed.

(** While the unclamped balance stays positive the loop follows it; the
    first installment that brings it to 0 or below ends the schedule. *)
Lemma amortLoop_payoff (P mr emi : R) :
  0 < mr -> P * mr < emi ->
  forall rem j count i,
    (1 <= rem <= count)%nat ->
    (forall t, (j < t < j + rem)%nat -> 0 < unclampedBalance P mr emi t) ->
    unclampedBalance P mr emi (j + rem) <= 0 ->
    Simplified.amortLoop count i mr emi (unclampedBalance P mr emi j) =
      payoffRows P mr emi rem i j.
Proof.
  intros Hmr HE. induction rem as [| rem IH]; intros j count i Hc Hpos Hend.
  - lia.
  - destruct count as [| count]; [lia |].
    rewrite amortLoop_S, amortRow_eq. cbn [Simplified.endingBalance].
    pose proof (unclampedBalance_le P mr emi j Hmr HE) as Hle.
    rewrite (Rmax_right 0 (emi - unclampedBalance P mr emi j * mr)) by nra.
    replace (unclampedBalance P mr emi j
             - (emi - unclampedBalance P mr emi j * mr))
      with (unclampedBalance P mr emi (S j))
      by (rewrite unclampedBalance_S by lra; ring).
    destruct rem as [| rem].
    + replace (j + 1)%nat with (S j) in Hend by lia.
      rewrite (Rmax_left 0 (unclampedBalance P mr emi (S j))) by lra.
      destruct (Req_dec_T 0 0) as [_ | Hne]; [| exfalso; apply Hne; reflexivity].
      cbn [payoffRows].
      rewrite (Rmax_left 0 (unclampedBalance P mr emi (S j))) by lra.
      reflexivity.
    + assert (Hnext : 0 < unclampedBalance P mr emi (S j))
        by (apply Hpos; lia).
      rewrite (Rmax_right 0 (unclampedBalance P mr emi (S j))) by lra.
      destruct (Req_dec_T (unclampedBalance P mr emi (S j)) 0) as [Hz | _];
        [lra |].
      rewrite (IH (S j) count (S i)).
      * cbn [payoffRows].
        rewrite (Rmax_right 0 (unclampedBalance P mr emi (S j))) by lra.
        reflexivity.
      * lia.
      * intros t Ht. apply Hpos. lia.
      * replace (S j + S rem)%nat with (j + S (S rem))%nat by lia. exact Hend.
Qed.

Lemma payoffRows_length (P mr emi : R) (rem i j : nat) :
  length (payoffRows P mr emi rem i j) = rem.
Proof.
  revert i j. induction rem as [| rem IH]; intros i j; simpl;
    [reflexivity | rewrite IH; reflexivity].
Qed.

Lemma payoffRows_nth (P mr emi : R) (rem i j t : nat) (row : Simplified.Row) :
  nth_error (payoffRows P mr emi rem i j) t = Some row ->
  (t < rem)%nat /\
  row = Simplified.mkRow (i + t)
          (unclampedBalance P mr emi (j + t) * mr)
          (emi - unclampedBalance P mr emi (j + t) * mr)
          emi
          (Rmax 0 (unclampedBalance P mr emi (S (j + t)))).
Proof.
  revert i j t. induction rem as [| rem IH]; intros i j t.
  - destruct t; discriminate.
  - destruct t as [| t]; cbn [payoffRows nth_error].
    + intros [= <-]. rewrite !Nat.add_0_r. split; [lia | reflexivity].
    + intros H. apply IH in H. destruct H as [Hlt ->].
      split; [lia |].
      replace (S i + t)%nat with (i + S t)%nat by lia.
      replace (S j + t)%nat with (j + S t)%nat by lia.
      reflexivity.
Qed.

Lemma payoffRows_interest (P mr emi : R) (rem i j : nat) :
  mr <> 0 ->
  sumR (map Simplified.interest (payoffRows P mr emi rem i j)) =
    emi * INR rem
    - (unclampedBalance P mr emi j - unclampedBalance P mr emi (j + rem)).
Proof.
  intros Hmr. revert i j. induction rem as [| rem IH]; intros i j.
  - rewrite Nat.add_0_r. simpl. ring.
  - cbn [payoffRows map sumR fold_right Simplified.interest].
    fold (sumR (map Simplified.interest (payoffRows P mr emi rem (S i) (S j)))).
    rewrite IH, S_INR.
    replace (j + S rem)%nat with (S j + rem)%nat by lia.
    rewrite (unclampedBalance_S P mr emi j) by exact Hmr. ring.
Qed.

Lemma payoffRows_principal (P mr emi : R) (rem i j : nat) :
  mr <> 0 ->
  sumR (map Simplified.principal (payoffRows P mr emi rem i j)) =
    unclampedBalance P mr emi j - unclampedBalance P mr emi (j + rem).
Proof.
  intros Hmr. revert i j. induction rem as [| rem IH]; intros i j.
  - rewrite Nat.add_0_r. simpl. ring.
  - cbn [payoffRows map sumR fold_right Simplified.principal].
    fold (sumR (map Simplified.principal (payoffRows P mr emi rem (S i) (S j)))).
    rewrite IH.
    replace (j + S rem)%nat with (S j + rem)%nat by lia.
    rewrite (unclampedBalance_S P mr emi j) by exact Hmr. ring.
Qed.

Lemma totalInterest_sumR (sched : list Simplified.Row) :
  Simplified.totalInterest sched = sumR (map Simplified.interest sched).
Proof.
  unfold Simplified.totalInterest. rewrite fold_left_plus_sumR. ring.
Qed.

Lemma generateFullAmortization_payoff (fuel : nat) (P r m emi : R) (J : nat) :
  0 < P -> 0 < r -> P * (r / 100 / 12) < emi ->
  (1 <= J <= iterations m)%nat ->
  (forall t, (0 < t < J)%nat -> 0 < unclampedBalance P (r / 100 / 12) emi t) ->
  unclampedBalance P (r / 100 / 12) emi J <= 0 ->
  Simplified.generateFullAmortization fuel P r (Fin m) emi =
    Some (payoffRows P (r / 100 / 12) emi J 1 0).
Proof.
  intros HP Hr HE HJ Hpos Hend.
  assert (Hmr : 0 < r / 100 / 12) by lra.
  assert (Hemi : 0 < emi) by nra.
  unfold Simplified.generateFullAmortization.
  destruct (Rle_dec P 0); [lra |].
  destruct (Rle_dec emi 0); [lra |].
  cbv zeta. f_equal.
  rewrite <- (unclampedBalance_0 P (r / 100 / 12) emi) at 1 by lra.
  apply amortLoop_payoff; try assumption.
Qed.

Lemma calculateEMI_whole_months (p r : R) (k : nat) :
  0 < p -> 0 < r -> (1 <= k)%nat ->
  Simplified.calculateEMI p r (INR k) =
    p * (r / 100 / 12) * (1 + r / 100 / 12) ^ k /
    ((1 + r / 100 / 12) ^ k - 1).
Proof.
  intros Hp Hr Hk.
  assert (0 < INR k) by (apply lt_0_INR; lia).
  rewrite calculateEMI_positive_case by assumption.
  rewrite Rpower_pow by lra. reflexivity.
Qed.

(** With the installment of [calculateEMI] the balance after [t] of [k]
    months is [p * (q^k - q^t) / (q^k - 1)]. *)
Lemma unclampedBalance_calculateEMI (p r : R) (k t : nat) :
  0 < p -> 0 < r -> (1 <= k)%nat ->
  unclampedBalance p (r / 100 / 12) (Simplified.calculateEMI p r (INR k)) t =
    p * ((1 + r / 100 / 12) ^ k - (1 + r / 100 / 12) ^ t) /
    ((1 + r / 100 / 12) ^ k - 1).
Proof.
  intros Hp Hr Hk. rewrite calculateEMI_whole_months by assumption.
  assert (HX : 1 < (1 + r / 100 / 12) ^ k) by (apply Rlt_pow_R1; [lra | lia]).
  unfold unclampedBalance. field. lra.
Qed.

Lemma calculateEMI_schedule (fuel : nat) (p r : R) (k : nat) :
  0 < p -> 0 < r -> (1 <= k)%nat ->
  let emi := Simplified.calculateEMI p r (INR k) in
  Simplified.generateFullAmortization fuel p r (Fin (INR k)) emi =
    Some (payoffRows p (r / 100 / 12) emi k 1 0) /\
  unclampedBalance p (r / 100 / 12) emi k = 0 /\
  (forall t, (t < k)%nat -> 0 < unclampedBalance p (r / 100 / 12) emi t).
Proof.
  intros Hp Hr Hk emi.
  assert (HX : 1 < (1 + r / 100 / 12) ^ k) by (apply Rlt_pow_R1; [lra | lia]).
  assert (Hend : unclampedBalance p (r / 100 / 12) emi k = 0).
  { unfold emi. rewrite unclampedBalance_calculateEMI by assumption.
    field. lra. }
  assert (Hpos : forall t, (t < k)%nat ->
                   0 < unclampedBalance p (r / 100 / 12) emi t).
  { intros t Ht. unfold emi.
    rewrite unclampedBalance_calculateEMI by assumption.
    assert (Hlt : (1 + r / 100 / 12) ^ t < (1 + r / 100 / 12) ^ k)
      by (apply Rlt_pow; [lra | exact Ht]).
    apply Rdiv_lt_0_compat; [| lra].
    apply Rmult_lt_0_compat; lra. }
  split; [| split; assumption].
  apply generateFullAmortization_payoff; try assumption.
  - apply calculateEMI_gt_interest; try assumption. apply lt_0_INR. lia.
  - rewrite iterations_INR. lia.
  - intros t Ht. apply Hpos. lia.
  - lra.
Qed.

(** X1.  The schedule built with the installment of [calculateEMI] over a
    whole number [k] of months has exactly [k] rows; the balance is
    positive after every row but the last and 0 after the last. *)
Theorem calculateEMI_schedule_closes (fuel : nat) (p r : R) (k : nat) :
  0 < p -> 0 < r -> (1 <= k)%nat ->
  exists sched,
    Simplified.generateFullAmortization fuel p r (Fin (INR k))
      (Simplified.calculateEMI p r (INR k)) = Some sched /\
    length sched = k /\
    forall t row,
      nth_error sched t = Some row ->
      ((S t < k)%nat -> 0 < Simplified.endingBalance row) /\
      (S t = k -> Simplified.endingBalance row = 0).
Proof.
  intros Hp Hr Hk.
  destruct (calculateEMI_schedule fuel p r k Hp Hr Hk) as (Hs & Hend & Hpos).
  eexists. split; [exact Hs |]. split; [apply payoffRows_length |].
  intros t row Hrow. apply payoffRows_nth in Hrow. destruct Hrow as [Ht ->].
  cbn [Simplified.endingBalance Nat.add]. split.
  - intros Hlt. rewrite Rmax_right.
    + apply Hpos. exact Hlt.
    + apply Rlt_le. apply Hpos. exact Hlt.
  - intros Heq. rewrite Heq, Hend. apply Rmax_left. lra.
Qed.

Lemma calculateEMI_schedule_closes_witness :
  exists sched,
    Simplified.generateFullAmortization 0 1200 12 (Fin (INR 12))
      (Simplified.calculateEMI 1200 12 (INR 12)) = Some sched /\
    length sched = 12%nat.
Proof.
  destruct (calculateEMI_schedule_closes 0 1200 12 12) as (sched & Hs & Hl & _);
    try lra; try lia.
  exists sched. split; assumption.
Defined.

(** X2.  Over the schedule built with the installment of [calculateEMI]
    for a whole number of months, the interest adds up to
    installment * months - principal and the principal parts add up to
    the principal. *)
Theorem calculateEMI_schedule_totals (fuel : nat) (p r : R) (k : nat)
    (sched : list Simplified.Row) :
  0 < p -> 0 < r -> (1 <= k)%nat ->
  Simplified.generateFullAmortization fuel p r (Fin (INR k))
    (Simplified.calculateEMI p r (INR k)) = Some sched ->
  Simplified.totalInterest sched =
    Simplified.calculateEMI p r (INR k) * INR k - p /\
  sumR (map Simplified.principal sched) = p.
Proof.
  intros Hp Hr Hk Hs.
  destruct (calculateEMI_schedule fuel p r k Hp Hr Hk) as (Hs' & Hend & _).
  cbv zeta in Hs', Hend. rewrite Hs' in Hs. injection Hs as <-.
  rewrite totalInterest_sumR, payoffRows_interest, payoffRows_principal by lra.
  cbn [Nat.add]. rewrite Hend, unclampedBalance_0 by lra.
  split; ring.
Qed.

Lemma calculateEMI_schedule_totals_witness :
  exists sched,
    Simplified.generateFullAmortization 0 1200 12 (Fin (INR 12))
      (Simplified.calculateEMI 1200 12 (INR 12)) = Some sched /\
    Simplified.totalInterest sched =
      Simplified.calculateEMI 1200 12 (INR 12) * INR 12 - 1200.
Proof.
  destruct (generateFullAmortization_finite 0 1200 12 (INR 12)
              (Simplified.calculateEMI 1200 12 (INR 12))) as [sched [Hs _]].
  exists sched. split; [exact Hs |].
  apply (calculateEMI_schedule_totals 0 1200 12 12 sched);
    try lra; try lia; exact Hs.
Defined.

(** ** The tenure solver and the schedule it bounds *)

Lemma unclampedBalance_factored (P mr emi : R) (t : nat) :
  mr <> 0 -> emi <> 0 ->
  unclampedBalance P mr emi t =
    emi / mr * (1 - (1 + mr) ^ t * (1 - P * mr / emi)).
Proof. intros Hmr He. unfold unclampedBalance. field. split; assumption. Qed.

(** The unclamped balance is positive exactly before the payoff time. *)
Lemma unclampedBalance_pos_iff (P mr emi : R) (t : nat) :
  0 < P -> 0 < mr -> P * mr < emi ->
  0 < unclampedBalance P mr emi t <-> INR t < payoffTime P mr emi.
Proof.
  intros HP Hmr HE.
  assert (Hemi : 0 < emi) by nra.
  assert (Hq : 0 < (1 + mr) ^ t) by (apply pow_lt; lra).
  assert (Hlnq : 0 < ln (1 + mr)).
  { rewrite <- ln_1. apply ln_increasing; lra. }
  set (a := 1 - P * mr / emi).
  assert (Ha : 0 < a < 1).
  { unfold a. assert (0 < P * mr / emi < 1); [| lra].
    split.
    - apply Rdiv_lt_0_compat; nra.
    - apply Rmult_lt_reg_r with emi; [lra |].
      unfold Rdiv. rewrite Rmult_assoc, Rinv_l by lra. lra. }
  assert (Hu : unclampedBalance P mr emi t = emi / mr * (1 - (1 + mr) ^ t * a)).
  { apply unclampedBalance_factored; lra. }
  assert (Hem : 0 < emi / mr) by (apply Rdiv_lt_0_compat; lra).
  assert (Hln : ln ((1 + mr) ^ t * a) = INR t * ln (1 + mr) + ln a).
  { rewrite ln_mult by lra. rewrite ln_pow by lra. reflexivity. }
  assert (Hx : payoffTime P mr emi = - ln a / ln (1 + mr)) by reflexivity.
  rewrite Hu, Hx. split.
  - intros Hpos.
    assert (Hlt : (1 + mr) ^ t * a < 1) by nra.
    assert (Hl : ln ((1 + mr) ^ t * a) < ln 1).
    { apply ln_increasing; [nra | exact Hlt]. }
    rewrite ln_1, Hln in Hl.
    apply Rmult_lt_reg_r with (ln (1 + mr)); [exact Hlnq |].
    unfold Rdiv. rewrite Rmult_assoc, Rinv_l by lra. lra.
  - intros Hlt.
    assert (Hl : INR t * ln (1 + mr) < - ln a).
    { apply Rmult_lt_compat_r with (r := ln (1 + mr)) in Hlt; [| exact Hlnq].
      unfold Rdiv in Hlt. rewrite Rmult_assoc, Rinv_l in Hlt by lra. lra. }
    assert (Hlt1 : (1 + mr) ^ t * a < 1).
    { apply ln_lt_inv; [nra | lra |]. rewrite ln_1, Hln. lra. }
    nra.
Qed.

Lemma payoffTime_pos (P mr emi : R) :
  0 < P -> 0 < mr -> P * mr < emi -> 0 < payoffTime P mr emi.
Proof.
  intros HP Hmr HE.
  apply (unclampedBalance_pos_iff P mr emi 0 HP Hmr HE).
  rewrite unclampedBalance_0 by lra. exact HP.
Qed.

(** The payoff time of the installment of [calculateEMI p r n] is [n]. *)
Lemma payoffTime_calculateEMI (p r n : R) :
  0 < p -> 0 < r -> 0 < n ->
  payoffTime p (r / 100 / 12) (Simplified.calculateEMI p r n) = n.
Proof.
  intros Hp Hr Hn. rewrite calculateEMI_positive_case by assumption.
  assert (HX : 1 < Rpower (1 + r / 100 / 12) n) by (apply Rpower_gt_1; lra).
  assert (Hlnq : 0 < ln (1 + r / 100 / 12)).
  { rewrite <- ln_1. apply ln_increasing; lra. }
  unfold payoffTime.
  replace (1 - p * (r / 100 / 12) /
             (p * (r / 100 / 12) * Rpower (1 + r / 100 / 12) n /
              (Rpower (1 + r / 100 / 12) n - 1)))
    with (/ Rpower (1 + r / 100 / 12) n) by (field; lra).
  rewrite ln_Rinv by lra. rewrite ln_Rpower. field. lra.
Qed.

Lemma ceilZ_pos (x : R) : 0 < x -> (1 <= ceilZ x)%Z.
Proof.
  intros H. destruct (ceilZ_bounds x) as [_ H2].
  assert (Hlt : IZR 0 < IZR (ceilZ x)) by lra.
  apply lt_IZR in Hlt. lia.
Qed.

(** X3.  The quotient that [calculateNewTenure] hands to [Math.ceil]
    (lines 1049-1052), taken at the installment that [calculateEMI]
    computes for [n] months, is [n]: the tenure solver undoes the
    installment formula before it rounds up.  (In double precision the
    quotient is [n] up to rounding, which is why [Math.ceil] can return
    one month more than a whole [n].) *)
Theorem tenure_quotient_of_calculateEMI (p r n : R) :
  0 < p -> 0 < r -> 0 < n ->
  let monthlyRate := r / 100 / 12 in
  let numerator :=
    Math_log (1 - (p * monthlyRate) / Simplified.calculateEMI p r n) in
  let denominator := Math_log (1 + monthlyRate) in
  - numerator / denominator = n.
Proof.
  intros Hp Hr Hn. cbv zeta.
  exact (payoffTime_calculateEMI p r n Hp Hr Hn).
Qed.

Lemma tenure_quotient_of_calculateEMI_witness :
  - Math_log (1 - (1200 * (12 / 100 / 12))
                  / Simplified.calculateEMI 1200 12 240)
    / Math_log (1 + 12 / 100 / 12) = 240.
Proof.
  apply (tenure_quotient_of_calculateEMI 1200 12 240); lra.
Defined.

Lemma iterations_IZR (z : Z) : iterations (IZR z) = Z.to_nat z.
Proof.
  unfold iterations. f_equal. symmetry. apply Int_part_spec. lra.
Qed.

(** In exact arithmetic: the number of rows in which installments of
    [emi] retire [P]. *)
Lemma payoffTime_rows (P mr emi : R) :
  0 < P -> 0 < mr -> P * mr < emi ->
  let J := Z.to_nat (ceilZ (payoffTime P mr emi)) in
  (1 <= J)%nat /\
  (forall t, (t < J)%nat -> 0 < unclampedBalance P mr emi t) /\
  unclampedBalance P mr emi J <= 0.
Proof.
  intros HP Hmr HE J.
  pose proof (payoffTime_pos P mr emi HP Hmr HE) as Hx.
  pose proof (ceilZ_pos _ Hx) as Hz.
  destruct (ceilZ_bounds (payoffTime P mr emi)) as [Hlo Hhi].
  assert (HJ : INR J = IZR (ceilZ (payoffTime P mr emi))).
  { unfold J. rewrite INR_IZR_INZ, Z2Nat.id by lia. reflexivity. }
  split; [unfold J; lia |]. split.
  - intros t Ht. apply unclampedBalance_pos_iff; try assumption.
    assert (Hle : INR t <= INR J - 1).
    { replace (INR J - 1) with (INR (J - 1)).
      - apply le_INR. lia.
      - rewrite minus_INR by (unfold J; lia). simpl. ring. }
    lra.
  - apply Rnot_lt_le. intros Hpos.
    apply unclampedBalance_pos_iff in Hpos; try assumption. lra.
Qed.

(** ** Interest saved by a prepayment *)

Lemma calculateEMI_scales (a r n : R) :
  0 < a -> Simplified.calculateEMI a r n = a * Simplified.calculateEMI 1 r n.
Proof.
  intros Ha. unfold Simplified.calculateEMI.
  destruct (Rle_dec a 0); [lra |].
  destruct (Rle_dec 1 0); [lra |].
  destruct (Rle_dec r 0); [ring |].
  destruct (Rle_dec n 0); [ring |].
  cbv zeta. unfold Rdiv. ring.
Qed.

Lemma analyzeLoan_originalEmi (fuel : nat) (inp : Simplified.Inputs)
    (res : Simplified.Results) :
  Simplified.analyzeLoan fuel inp = Some res ->
  Simplified.originalEmi res =
    Simplified.calculateEMI (Simplified.loanAmount inp)
      (Simplified.interestRate inp) (Simplified.tenureYears inp * 12) /\
  Simplified.originalTenureMonths res = Simplified.tenureYears inp * 12 /\
  Simplified.netBenefitPrepaying res =
    Simplified.interestSaved res + Simplified.prepaidLoanTaxBenefit res /\
  Simplified.netBenefitInvesting res =
    Simplified.postTaxInvestmentGain res + Simplified.originalLoanTaxBenefit res /\
  Simplified.betterOption res =
    (if Rgt_dec (Simplified.netBenefitInvesting res)
                (Simplified.netBenefitPrepaying res)
     then "Invest"%string else "Prepay"%string).
Proof.
  unfold Simplified.analyzeLoan. cbv zeta.
  destruct (Simplified.generateFullAmortization fuel _ _ _ _) as [orig |];
    [| discriminate].
  cbn [JS.bind].
  destruct (Simplified.prepayLoan fuel inp _ _) as [[[[[e t] sv] am] b] |];
    [| discriminate].
  cbn [JS.bind]. intros [= <-]. cbn. repeat split.
Qed.

(** The result of [analyzeLoan] on a loan that amortizes over a whole
    number [k] of months, part of it prepaid: both schedules in closed
    form (on the reduce-tenure path in exact arithmetic: the number of
    rows is the month count of [calculateNewTenure]). *)
Lemma analyzeLoan_amortizing (fuel : nat) (inp : Simplified.Inputs)
    (res : Simplified.Results) (k : nat) :
  let p := Simplified.loanAmount inp in
  let r := Simplified.interestRate inp in
  let c := Simplified.extraCash inp in
  let mr := r / 100 / 12 in
  let E := Simplified.calculateEMI p r (INR k) in
  0 < p -> 0 < r -> Simplified.tenureYears inp * 12 = INR k -> (1 <= k)%nat ->
  0 < c < p ->
  Simplified.analyzeLoan fuel inp = Some res ->
  Simplified.originalEmi res = E /\
  Simplified.originalAmortization res = payoffRows p mr E k 1 0 /\
  Simplified.interestSaved res =
    Simplified.totalInterest (Simplified.originalAmortization res)
    - Simplified.totalInterest (Simplified.prepaidAmortization res) /\
  (if String.eqb (Simplified.prepaymentMethod inp) "reduceEmi"
   then
     Simplified.newEmi res = Simplified.calculateEMI (p - c) r (INR k) /\
     Simplified.newTenureMonths res = Fin (INR k) /\
     Simplified.prepaidAmortization res =
       payoffRows (p - c) mr (Simplified.calculateEMI (p - c) r (INR k)) k 1 0
   else
     Simplified.newEmi res = E /\
     Simplified.newTenureMonths res =
       Fin (IZR (ceilZ (payoffTime (p - c) mr E))) /\
     Simplified.prepaidAmortization res =
       payoffRows (p - c) mr E
         (Z.to_nat (ceilZ (payoffTime (p - c) mr E))) 1 0).
Proof.
  intros p r c mr E Hp Hr Hn Hk Hc Hres.
  destruct (analyzeLoan_originalEmi _ _ _ Hres) as (HE & _).
  destruct (analyzeLoan_Some _ _ _ Hres)
    as (orig & e & t & sv & am & b & Ho & Hpre & Horig & He & Ht & Hsv & Ham & _).
  fold p r in HE, Ho, Hpre. rewrite Hn in HE, Ho, Hpre. fold E in HE, Ho, Hpre.
  destruct (calculateEMI_schedule fuel p r k Hp Hr Hk) as (Hs & _).
  cbv zeta in Hs. fold E mr in Hs. rewrite Hs in Ho. injection Ho as <-.
  apply prepayLoan_Some in Hpre. cbv zeta in Hpre. fold p r c in Hpre.
  rewrite Hn in Hpre.
  destruct Hpre as [(Hle & _) | (_ & Het & Hg & Hsave & _)]; [lra |].
  split; [exact HE |]. split; [exact Horig |].
  split. { rewrite Hsv, Horig, Ham. exact Hsave. }
  assert (Hmr : 0 < mr) by (unfold mr; lra).
  assert (Hgt : (p - c) * mr < E).
  { apply Rle_lt_trans with (p * mr); [nra |].
    apply calculateEMI_gt_interest; try assumption. apply lt_0_INR. lia. }
  destruct (String.eqb (Simplified.prepaymentMethod inp) "reduceEmi").
  - injection Het as -> ->.
    destruct (calculateEMI_schedule fuel (p - c) r k) as (Hs' & _);
      [lra | assumption | assumption |].
    cbv zeta in Hs'. fold mr in Hs'. rewrite Hs' in Hg. injection Hg as <-.
    repeat split; assumption.
  - injection Het as -> ->.
    assert (Hten : Simplified.calculateNewTenure (p - c) E r =
                   Fin (IZR (ceilZ (payoffTime (p - c) mr E)))).
    { rewrite calculateNewTenure_closed_form; try assumption; try lra.
      - reflexivity.
      - nra. }
    rewrite Hten in Hg, Ht.
    destruct (payoffTime_rows (p - c) mr E) as (HJ & Hpos & Hend);
      [lra | assumption | assumption |].
    rewrite (generateFullAmortization_payoff fuel (p - c) r _ E
               (Z.to_nat (ceilZ (payoffTime (p - c) mr E)))) in Hg;
      try assumption; try lra.
    + injection Hg as <-. repeat split; assumption.
    + rewrite iterations_IZR. lia.
    + intros t' Ht'. apply Hpos. lia.
Qed.

Lemma interestSaved_reduceEmi_value (p r c : R) (k : nat) :
  0 < p -> 0 < r -> (1 <= k)%nat -> 0 < c < p ->
  let mr := r / 100 / 12 in
  let E := Simplified.calculateEMI p r (INR k) in
  let E' := Simplified.calculateEMI (p - c) r (INR k) in
  sumR (map Simplified.interest (payoffRows p mr E k 1 0))
  - sumR (map Simplified.interest (payoffRows (p - c) mr E' k 1 0))
  = c / p * (E * INR k - p).
Proof.
  intros Hp Hr Hk Hc mr E E'.
  destruct (calculateEMI_schedule 0 p r k Hp Hr Hk) as (_ & Hz & _).
  destruct (calculateEMI_schedule 0 (p - c) r k) as (_ & Hz' & _);
    [lra | assumption | assumption |].
  cbv zeta in Hz, Hz'. fold mr E in Hz. fold mr E' in Hz'.
  rewrite !payoffRows_interest by (unfold mr; lra).
  cbn [Nat.add]. rewrite Hz, Hz', !unclampedBalance_0 by (unfold mr; lra).
  unfold E, E'.
  rewrite (calculateEMI_scales p) by lra.
  rewrite (calculateEMI_scales (p - c)) by lra.
  field. lra.
Qed.

(** X6.  On the reduce-EMI path, for a loan over a whole number of months
    and extra cash [0 < c < p], the tenure is kept, the new installment
    is the original one scaled by [(p - c) / p], and the interest saved
    is the fraction [c / p] of the total interest of the original
    loan. *)
Theorem reduce_emi_proportional (fuel : nat) (inp : Simplified.Inputs)
    (res : Simplified.Results) (k : nat) :
  let p := Simplified.loanAmount inp in
  let c := Simplified.extraCash inp in
  0 < p -> 0 < Simplified.interestRate inp ->
  Simplified.tenureYears inp * 12 = INR k -> (1 <= k)%nat ->
  0 < c < p ->
  String.eqb (Simplified.prepaymentMethod inp) "reduceEmi" = true ->
  Simplified.analyzeLoan fuel inp = Some res ->
  Simplified.newTenureMonths res = Fin (Simplified.originalTenureMonths res) /\
  length (Simplified.prepaidAmortization res) = k /\
  Simplified.newEmi res = (p - c) / p * Simplified.originalEmi res /\
  Simplified.interestSaved res =
    c / p * Simplified.totalInterest (Simplified.originalAmortization res).
Proof.
  intros p c Hp Hr Hn Hk Hc Hm Hres.
  destruct (analyzeLoan_amortizing fuel inp res k Hp Hr Hn Hk Hc Hres)
    as (HE & Horig & Hsv & Hcase).
  destruct (analyzeLoan_originalEmi _ _ _ Hres) as (_ & Hotm & _).
  cbv zeta in Hcase. rewrite Hm in Hcase. destruct Hcase as (He & Ht & Ham).
  fold p c in HE, Horig, He, Ham.
  split. { rewrite Ht, Hotm, Hn. reflexivity. }
  split. { rewrite Ham. apply payoffRows_length. }
  split.
  { rewrite He, HE.
    rewrite (calculateEMI_scales p), (calculateEMI_scales (p - c)) by lra.
    field. lra. }
  rewrite Hsv, !totalInterest_sumR, Ham, Horig.
  rewrite (interestSaved_reduceEmi_value p _ c k) by assumption.
  rewrite payoffRows_interest by lra. cbn [Nat.add].
  destruct (calculateEMI_schedule fuel p (Simplified.interestRate inp) k Hp Hr Hk)
    as (_ & Hz & _).
  cbv zeta in Hz. rewrite Hz, unclampedBalance_0 by lra. ring.
Qed.

(** A loan of 1000 at 12% over one year, 100 of it prepaid, installment
    reduced. *)
Lemma reduce_emi_proportional_witness :
  exists res,
    Simplified.analyzeLoan 0 reduce_emi_inputs = Some res /\
    Simplified.newEmi res = (1000 - 100) / 1000 * Simplified.originalEmi res.
Proof.
  destruct (proj2 (analyzeLoan_returns_iff 0 reduce_emi_inputs)) as [res Hres].
  { intros (_ & Hm & _). discriminate Hm. }
  exists res. split; [exact Hres |].
  apply (reduce_emi_proportional 0 reduce_emi_inputs res 12);
    try (simpl; lra); try lia; try reflexivity; try exact Hres.
Defined.

(** ** Degenerate inputs *)

Lemma generateFullAmortization_no_installment (fuel : nat) (p r : R)
    (months : bound) (emi : R) :
  emi <= 0 ->
  Simplified.generateFullAmortization fuel p r months emi = Some [].
Proof.
  intros He. unfold Simplified.generateFullAmortization.
  destruct (Rle_dec p 0); [reflexivity |].
  destruct (Rle_dec emi 0); [reflexivity | lra].
Qed.

Lemma generateFullAmortization_no_principal (fuel : nat) (p r : R)
    (months : bound) (emi : R) :
  p <= 0 ->
  Simplified.generateFullAmortization fuel p r months emi = Some [].
Proof.
  intros Hp. unfold Simplified.generateFullAmortization.
  destruct (Rle_dec p 0); [reflexivity | lra].
Qed.

(** X9.  With a rate or a tenure that is not positive (or with no loan and
    no negative cash) the second component returns a result with
    installment 0, empty schedules, no interest saved and no tax
    benefit; the recommendation is then "Invest" exactly when the
    post-tax investment gain is positive. *)
Theorem degenerate_loan_is_neutral (fuel : nat) (inp : Simplified.Inputs) :
  Simplified.interestRate inp <= 0 \/ Simplified.tenureYears inp <= 0 \/
  (Simplified.loanAmount inp <= 0 /\ 0 <= Simplified.extraCash inp) ->
  exists res,
    Simplified.analyzeLoan fuel inp = Some res /\
    Simplified.originalEmi res = 0 /\
    Simplified.originalAmortization res = [] /\
    Simplified.prepaidAmortization res = [] /\
    Simplified.interestSaved res = 0 /\
    Simplified.originalLoanTaxBenefit res = 0 /\
    Simplified.prepaidLoanTaxBenefit res = 0 /\
    (Simplified.betterOption res = "Invest"%string <->
     0 < Simplified.postTaxInvestmentGain res).
Proof.
  intros Hdeg.
  set (p := Simplified.loanAmount inp) in *.
  set (r := Simplified.interestRate inp) in *.
  set (n := Simplified.tenureYears inp * 12).
  set (c := Simplified.extraCash inp) in *.
  assert (HE : Simplified.calculateEMI p r n = 0).
  { apply calculateEMI_degenerate. unfold n. lra. }
  assert (Hn : ~ loops_forever inp).
  { intros (_ & _ & Hinf). apply calculateNewTenure_Infinity_inv in Hinf.
    fold p r n in Hinf. lra. }
  destruct (proj2 (analyzeLoan_returns_iff fuel inp) Hn) as [res Hres].
  exists res. split; [exact Hres |].
  destruct (analyzeLoan_originalEmi _ _ _ Hres) as (Hoe & _ & Hnp & Hni & Hbo).
  destruct (analyzeLoan_Some _ _ _ Hres)
    as (orig & e & t & sv & am & b & Ho & Hpre & Horig & _ & _ & Hsv & Ham
        & Hb & _ & _ & _ & Hben).
  fold p r n in Hoe, Ho, Hpre. rewrite HE in Hoe, Ho, Hpre.
  rewrite generateFullAmortization_no_installment in Ho by lra.
  injection Ho as <-.
  assert (Hzero : forall a s, Simplified.loanTaxBenefit [] a s = 0)
    by reflexivity.
  assert (Hpaid : am = [] /\ sv = 0 /\ b = 0).
  { apply prepayLoan_Some in Hpre. cbv zeta in Hpre. fold p r n c in Hpre.
    destruct Hpre as [(_ & _ & _ & -> & -> & ->)
                     | (Hgt & Het & Hg & -> & ->)].
    - repeat split.
    - assert (He : e = 0).
      { destruct (String.eqb (Simplified.prepaymentMethod inp) "reduceEmi").
        - injection Het as -> _. apply calculateEMI_degenerate.
          destruct Hdeg as [H | [H | [H1 H2]]]; [lra | unfold n; lra | lra].
        - injection Het as -> _. reflexivity. }
      rewrite He in Hg.
      rewrite generateFullAmortization_no_installment in Hg by lra.
      injection Hg as <-. rewrite Hzero.
      split; [reflexivity |]. split.
      + unfold Simplified.totalInterest. simpl. ring.
      + destruct (String.eqb (Simplified.taxRegime inp) "old"); reflexivity. }
  destruct Hpaid as (-> & -> & ->).
  rewrite Hzero in Hben.
  assert (Hben0 : Simplified.originalLoanTaxBenefit res = 0).
  { rewrite Hben.
    destruct (String.eqb (Simplified.taxRegime inp) "old"); reflexivity. }
  split; [exact Hoe |]. split; [exact Horig |]. split; [exact Ham |].
  split; [exact Hsv |]. split; [exact Hben0 |]. split; [exact Hb |].
  rewrite Hbo, Hnp, Hni, Hsv, Hb, Hben0.
  destruct (Rgt_dec (Simplified.postTaxInvestmentGain res + 0) (0 + 0))
    as [H | H]; split; intros H'; try reflexivity; try discriminate; lra.
Qed.

Lemma degenerate_loan_is_neutral_witness :
  exists res,
    Simplified.analyzeLoan 0 zero_rate_inputs = Some res /\
    Simplified.interestSaved res = 0.
Proof.
  destruct (degenerate_loan_is_neutral 0 zero_rate_inputs)
    as (res & Hres & _ & _ & _ & Hsv & _).
  { left. simpl. lra. }
  exists res. split; assumption.
Defined.

(** ** The first component: interest saved *)

Lemma Basic_analyzeLoan_prepay (inp : Basic.Inputs) :
  let p := Basic.loanAmount inp in
  let c := Basic.extraCash inp in
  let r := Basic.interestRate inp in
  let n := Basic.tenureYears inp * 12 in
  let res := Basic.analyzeLoan inp in
  p - c > 0 ->
  Basic.newEMI res = Basic.calculateEMI (p - c) r n /\
  Basic.interestSaved res =
    (Basic.calculateEMI p r n * n - p)
    - (Basic.calculateEMI (p - c) r n * n - (p - c)).
Proof.
  cbv zeta. intros Hgt. unfold Basic.analyzeLoan. cbv zeta.
  destruct (Rgt_dec (Basic.loanAmount inp - Basic.extraCash inp) 0);
    [| contradiction].
  destruct (String.eqb (Basic.taxRegime inp) "old"); cbn; split; reflexivity.
Qed.

(** X10.  In the first component, for a positive rate and tenure and extra
    cash [0 < c < p], the new installment is the original one scaled by
    [(p - c) / p] and the interest saved is the fraction [c / p] of
    [originalEMI * months - p]. *)
Theorem Basic_interest_saved_proportional (inp : Basic.Inputs) :
  let p := Basic.loanAmount inp in
  let c := Basic.extraCash inp in
  let n := Basic.tenureYears inp * 12 in
  let res := Basic.analyzeLoan inp in
  0 < Basic.interestRate inp -> 0 < n -> 0 < c < p ->
  Basic.newEMI res = (p - c) / p * Basic.originalEMI res /\
  Basic.interestSaved res = c / p * (Basic.originalEMI res * n - p).
Proof.
  cbv zeta. intros Hr Hn Hc.
  destruct (Basic_analyzeLoan_fields inp) as (HE & _).
  destruct (Basic_analyzeLoan_prepay inp) as (He & Hsv); [lra |].
  cbv zeta in HE, He, Hsv.
  set (p := Basic.loanAmount inp) in *.
  set (c := Basic.extraCash inp) in *.
  set (r := Basic.interestRate inp) in *.
  set (n := Basic.tenureYears inp * 12) in *.
  change Basic.calculateEMI with Simplified.calculateEMI in *.
  assert (H1 : Simplified.calculateEMI (p - c) r n =
               (p - c) / p * Simplified.calculateEMI p r n).
  { rewrite (calculateEMI_scales p), (calculateEMI_scales (p - c)) by lra.
    field. lra. }
  assert (H2 : Basic.interestSaved (Basic.analyzeLoan inp) =
               c / p * (Simplified.calculateEMI p r n * n - p)).
  { rewrite Hsv, H1. field. lra. }
  split; [rewrite He, HE; exact H1 |].
  rewrite HE; exact H2.
Qed.

(** A loan of 1000 at 12% over one year, 100 of it prepaid: the
    installment drops to nine tenths and a tenth of the interest is
    saved. *)
Lemma Basic_interest_saved_proportional_witness :
  Basic.newEMI (Basic.analyzeLoan prepay_inputs_basic) =
    (1000 - 100) / 1000
    * Basic.originalEMI (Basic.analyzeLoan prepay_inputs_basic) /\
  Basic.interestSaved (Basic.analyzeLoan prepay_inputs_basic) =
    100 / 1000
    * (Basic.originalEMI (Basic.analyzeLoan prepay_inputs_basic) * (1 * 12)
       - 1000).
Proof.
  apply (Basic_interest_saved_proportional prepay_inputs_basic);
    simpl; lra.
Defined.

(** X11.  In the first component a rate or a tenure that is not positive
    makes both installments 0, and the interest "saved" is then minus
    the extra cash while a balance remains, and minus the loan amount
    when the cash covers the loan. *)
Theorem Basic_degenerate_interest_saved (inp : Basic.Inputs) :
  let p := Basic.loanAmount inp in
  let c := Basic.extraCash inp in
  let res := Basic.analyzeLoan inp in
  Basic.interestRate inp <= 0 \/ Basic.tenureYears inp <= 0 ->
  Basic.originalEMI res = 0 /\
  Basic.newEMI res = 0 /\
  (c < p -> Basic.interestSaved res = - c) /\
  (p <= c -> Basic.interestSaved res = - p).
Proof.
  cbv zeta. intros Hdeg.
  destruct (Basic_analyzeLoan_fields inp) as (HE & _). cbv zeta in HE.
  set (p := Basic.loanAmount inp) in *.
  set (c := Basic.extraCash inp) in *.
  set (r := Basic.interestRate inp) in *.
  set (n := Basic.tenureYears inp * 12) in *.
  assert (Hz : forall a, Basic.calculateEMI a r n = 0).
  { intros a. change Basic.calculateEMI with Simplified.calculateEMI.
    apply calculateEMI_degenerate. unfold n. lra. }
  rewrite Hz in HE. split; [exact HE |].
  destruct (Rlt_le_dec c p) as [Hlt | Hle].
  - destruct (Basic_analyzeLoan_prepay inp) as (He & Hsv);
      [fold p c; lra |].
    cbv zeta in He, Hsv. fold p c r n in He, Hsv.
    rewrite (Hz (p - c)) in He. rewrite (Hz p), (Hz (p - c)) in Hsv.
    split; [exact He |]. split; [intros _; rewrite Hsv; ring | intros H; lra].
  - destruct (Basic_analyzeLoan_paid_off inp) as (He & Hsv & _);
      [fold p c; exact Hle |].
    fold p n in Hsv. rewrite HE in Hsv.
    split; [exact He |]. split; [intros H; lra | intros _; rewrite Hsv; ring].
Qed.

Lemma Basic_degenerate_interest_saved_witness :
  Basic.interestSaved (Basic.analyzeLoan zero_rate_inputs_basic) = - 100.
Proof.
  destruct (Basic_degenerate_interest_saved zero_rate_inputs_basic)
    as (_ & _ & H & _).
  { left. simpl. lra. }
  apply H. simpl. lra.
Defined.

Lemma reduce_emi_like (fuel : nat) (inp : Simplified.Inputs)
    (res : Simplified.Results) (k : nat) :
  let p := Simplified.loanAmount inp in
  let r := Simplified.interestRate inp in
  let c := Simplified.extraCash inp in
  0 < p -> 0 < r -> Simplified.tenureYears inp * 12 = INR k -> (1 <= k)%nat ->
  0 < c < p ->
  String.eqb (Simplified.prepaymentMethod inp) "reduceEmi" = true ->
  Simplified.analyzeLoan fuel inp = Some res ->
  Simplified.newEmi res = Simplified.calculateEMI (p - c) r (INR k) /\
  Simplified.interestSaved res =
    (Simplified.calculateEMI p r (INR k) * INR k - p)
    - (Simplified.calculateEMI (p - c) r (INR k) * INR k - (p - c)).
Proof.
  intros p r c Hp Hr Hn Hk Hc Hm Hres.
  destruct (analyzeLoan_amortizing fuel inp res k Hp Hr Hn Hk Hc Hres)
    as (_ & Horig & Hsv & Hcase).
  cbv zeta in Hcase. rewrite Hm in Hcase. destruct Hcase as (He & _ & Ham).
  fold p r c in Horig, He, Ham.
  split; [exact He |].
  destruct (calculateEMI_schedule fuel p r k Hp Hr Hk) as (_ & Hz & _).
  destruct (calculateEMI_schedule fuel (p - c) r k) as (_ & Hz' & _);
    [lra | assumption | assumption |].
  cbv zeta in Hz, Hz'.
  rewrite Hsv, !totalInterest_sumR, Horig, Ham.
  rewrite !payoffRows_interest by lra. cbn [Nat.add].
  rewrite Hz, Hz', !unclampedBalance_0 by lra. ring.
Qed.

(** X12.  The two components agree on the installments and on the interest
    saved when they are given the same loan over a whole number of
    months, extra cash [0 < c < p], and the second one reduces the
    installment. *)
Theorem components_agree_on_reduce_emi (fuel : nat)
    (inp : Simplified.Inputs) (res : Simplified.Results)
    (binp : Basic.Inputs) (k : nat) :
  Basic.loanAmount binp = Simplified.loanAmount inp ->
  Basic.interestRate binp = Simplified.interestRate inp ->
  Basic.tenureYears binp = Simplified.tenureYears inp ->
  Basic.extraCash binp = Simplified.extraCash inp ->
  0 < Simplified.loanAmount inp -> 0 < Simplified.interestRate inp ->
  Simplified.tenureYears inp * 12 = INR k -> (1 <= k)%nat ->
  0 < Simplified.extraCash inp < Simplified.loanAmount inp ->
  String.eqb (Simplified.prepaymentMethod inp) "reduceEmi" = true ->
  Simplified.analyzeLoan fuel inp = Some res ->
  Basic.originalEMI (Basic.analyzeLoan binp) = Simplified.originalEmi res /\
  Basic.newEMI (Basic.analyzeLoan binp) = Simplified.newEmi res /\
  Basic.interestSaved (Basic.analyzeLoan binp) = Simplified.interestSaved res.
Proof.
  intros Hp' Hr' Hy' Hc' Hp Hr Hn Hk Hc Hm Hres.
  destruct (reduce_emi_like fuel inp res k Hp Hr Hn Hk Hc Hm Hres)
    as (HeS & HsvS).
  destruct (analyzeLoan_originalEmi _ _ _ Hres) as (HoS & _).
  assert (Hn0 : 0 < Basic.tenureYears binp * 12).
  { rewrite Hy', Hn. apply lt_0_INR. lia. }
  destruct (Basic_analyzeLoan_fields binp) as (HoB & _). cbv zeta in HoB.
  destruct (Basic_analyzeLoan_prepay binp) as (HeB & HsvB);
    [rewrite Hp', Hc'; lra |].
  cbv zeta in HeB, HsvB.
  rewrite Hp', Hr', Hy', Hc' in *.
  change Basic.calculateEMI with Simplified.calculateEMI in *.
  rewrite Hn in *.
  split; [rewrite HoB, HoS; reflexivity |].
  split; [rewrite HeB, HeS; reflexivity |].
  rewrite HsvB, HsvS. reflexivity.
Qed.

(** ** The yearly schedule of the first component *)

Lemma scheduleLoop_snoc (count i : nat) (months mr emi : R)
    (st : Basic.LoopState) :
  Basic.scheduleLoop (S count) i months mr emi st =
    Basic.scheduleStep months mr emi (i + count)
      (Basic.scheduleLoop count i months mr emi st).
Proof.
  revert i st. induction count as [| count IH]; intros i st.
  - simpl. rewrite Nat.add_0_r. reflexivity.
  - change (Basic.scheduleLoop (S (S count)) i months mr emi st)
      with (Basic.scheduleLoop (S count) (S i) months mr emi
              (Basic.scheduleStep months mr emi i st)).
    rewrite IH. replace (S i + count)%nat with (i + S count)%nat by lia.
    reflexivity.
Qed.

(** Whether month [i] closes an entry: [i % 12 === 0 || i === months]. *)
Lemma scheduleStep_cases (months mr emi : R) (i : nat) (st : Basic.LoopState) :
  let interest := Basic.balance st * mr in
  let bal := Basic.balance st - (emi - interest) in
  (((i mod 12 = 0)%nat \/ INR i = months) /\
   Basic.scheduleStep months mr emi i st =
     Basic.mkLoopState bal
       (Basic.schedule st ++
          [Basic.mkYearRow (Basic.currentYear st)
             (Basic.currentYearInterest st + interest)
             (Basic.currentYearPrincipal st + (emi - interest)) bal])
       0 0 (S (Basic.currentYear st)))
  \/
  (((i mod 12 <> 0)%nat /\ INR i <> months) /\
   Basic.scheduleStep months mr emi i st =
     Basic.mkLoopState bal (Basic.schedule st)
       (Basic.currentYearInterest st + interest)
       (Basic.currentYearPrincipal st + (emi - interest))
       (Basic.currentYear st)).
Proof.
  cbv zeta. unfold Basic.scheduleStep.
  destruct (Nat.eqb (i mod 12) 0) eqn:Em;
    destruct (Req_dec_T (INR i) months) as [Eq | Ne]; cbn [orb].
  - left. split; [left; apply Nat.eqb_eq; exact Em | reflexivity].
  - left. split; [left; apply Nat.eqb_eq; exact Em | reflexivity].
  - left. split; [right; exact Eq | reflexivity].
  - right. split; [split; [apply Nat.eqb_neq; exact Em | exact Ne] |].
    reflexivity.
Qed.

(** What the loop keeps true after months 1 .. [c]. *)
Lemma scheduleLoop_invariant (p months mr emi : R) (c : nat) :
  mr <> 0 ->
  let st := Basic.scheduleLoop c 1 months mr emi
              (Basic.mkLoopState p [] 0 0 1) in
  Basic.balance st = unclampedBalance p mr emi c /\
  Basic.currentYear st = S (length (Basic.schedule st)) /\
  (forall n row, nth_error (Basic.schedule st) n = Some row ->
                 Basic.year row = S n) /\
  sumR (map Basic.annualInterest (Basic.schedule st))
    + Basic.currentYearInterest st
    = emi * INR c - (p - unclampedBalance p mr emi c) /\
  sumR (map Basic.annualPrincipal (Basic.schedule st))
    + Basic.currentYearPrincipal st
    = p - unclampedBalance p mr emi c.
Proof.
  intros Hmr. cbv zeta. induction c as [| c IH].
  - cbn [Basic.scheduleLoop Basic.balance Basic.currentYear Basic.schedule
         Basic.currentYearInterest Basic.currentYearPrincipal length map sumR
         fold_right INR].
    rewrite unclampedBalance_0 by exact Hmr.
    repeat split; try ring.
    intros n row H. destruct n; discriminate.
  - rewrite scheduleLoop_snoc.
    set (st := Basic.scheduleLoop c 1 months mr emi
                 (Basic.mkLoopState p [] 0 0 1)) in *.
    destruct IH as (Hb & Hy & Hn & Hi & Hp).
    rewrite S_INR, unclampedBalance_S by exact Hmr.
    destruct (scheduleStep_cases months mr emi (1 + c) st)
      as [[_ ->] | [_ ->]];
      cbn [Basic.balance Basic.currentYear Basic.schedule
           Basic.currentYearInterest Basic.currentYearPrincipal].
    + rewrite !map_app, length_app. cbn [map length].
      unfold sumR in *. rewrite !fold_right_app. cbn [fold_right].
      assert (Hsplit : forall (l : list R) (a : R),
                 fold_right Rplus (a + 0) l = fold_right Rplus 0 l + a).
      { intros l a. induction l as [| x l IHl]; simpl; [ring |].
        rewrite IHl. ring. }
      rewrite !Hsplit. cbn [Basic.annualInterest Basic.annualPrincipal].
      rewrite Hb in *.
      split; [ring |]. split; [rewrite Hy; lia |]. split.
      * intros n row H.
        destruct (Nat.lt_ge_cases n (length (Basic.schedule st))) as [Hlt | Hge].
        -- rewrite nth_error_app1 in H by exact Hlt. apply Hn. exact H.
        -- rewrite nth_error_app2 in H by exact Hge.
           destruct (n - length (Basic.schedule st))%nat as [| d] eqn:Ed.
           ++ cbn in H. injection H as <-. cbn [Basic.year]. rewrite Hy. lia.
           ++ destruct d; discriminate.
      * split; lra.
    + rewrite Hb in *. split; [ring |]. split; [exact Hy |].
      split; [exact Hn |]. split; lra.
Qed.

(** The month equal to [months] closes an entry. *)
Lemma scheduleLoop_last (p months mr emi : R) (c : nat) :
  INR (S c) = months ->
  let st := Basic.scheduleLoop (S c) 1 months mr emi
              (Basic.mkLoopState p [] 0 0 1) in
  let st' := Basic.scheduleLoop c 1 months mr emi
               (Basic.mkLoopState p [] 0 0 1) in
  Basic.currentYearInterest st = 0 /\
  Basic.currentYearPrincipal st = 0 /\
  exists row,
    Basic.schedule st = Basic.schedule st' ++ [row] /\
    Basic.remainingBalance row = Basic.balance st.
Proof.
  intros Hm. cbv zeta. rewrite scheduleLoop_snoc.
  destruct (scheduleStep_cases months mr emi (1 + c)
              (Basic.scheduleLoop c 1 months mr emi
                 (Basic.mkLoopState p [] 0 0 1)))
    as [[_ ->] | [[_ Hne] _]].
  - cbn [Basic.currentYearInterest Basic.currentYearPrincipal Basic.schedule
         Basic.balance].
    split; [reflexivity |]. split; [reflexivity |].
    eexists. split; reflexivity.
  - exfalso. apply Hne. exact Hm.
Qed.

Lemma div12_succ (j : nat) :
  (S j / 12 = j / 12 + (if Nat.eqb (S j mod 12) 0 then 1 else 0))%nat.
Proof.
  pose proof (Nat.div_mod_eq j 12) as H1.
  pose proof (Nat.div_mod_eq (S j) 12) as H2.
  pose proof (Nat.mod_upper_bound j 12) as H3.
  pose proof (Nat.mod_upper_bound (S j) 12) as H4.
  destruct (Nat.eqb (S j mod 12) 0) eqn:E.
  - apply Nat.eqb_eq in E. lia.
  - apply Nat.eqb_neq in E. lia.
Qed.

(** While no month equals [months], entries are closed at the multiples
    of 12 only. *)
Lemma scheduleLoop_length (p months mr emi : R) (c : nat) :
  (forall i, (1 <= i <= c)%nat -> INR i <> months) ->
  length (Basic.schedule
            (Basic.scheduleLoop c 1 months mr emi
               (Basic.mkLoopState p [] 0 0 1))) = (c / 12)%nat.
Proof.
  induction c as [| c IH]; intros Hne.
  - reflexivity.
  - rewrite scheduleLoop_snoc, div12_succ.
    destruct (scheduleStep_cases months mr emi (1 + c)
                (Basic.scheduleLoop c 1 months mr emi
                   (Basic.mkLoopState p [] 0 0 1)))
      as [[[Hmod | Heq] ->] | [[Hmod _] ->]]; cbn [Basic.schedule].
    + rewrite length_app, IH by (intros i Hi; apply Hne; lia).
      change (1 + c)%nat with (S c) in Hmod. rewrite Hmod. reflexivity.
    + exfalso. apply (Hne (1 + c)%nat); [lia | exact Heq].
    + rewrite IH by (intros i Hi; apply Hne; lia).
      change (1 + c)%nat with (S c) in Hmod.
      rewrite (proj2 (Nat.eqb_neq _ _) Hmod). lia.
Qed.

Lemma getAmortizationSchedule_sums (p r : R) (k : nat) :
  0 < p -> 0 < r -> (1 <= k)%nat ->
  let s := Basic.getAmortizationSchedule p r (INR k) in
  sumR (map Basic.annualInterest s)
    = Basic.calculateEMI p r (INR k) * INR k - p /\
  sumR (map Basic.annualPrincipal s) = p /\
  exists row,
    nth_error s (length s - 1) = Some row /\
    Basic.remainingBalance row = 0.
Proof.
  intros Hp Hr Hk. cbv zeta. unfold Basic.getAmortizationSchedule. cbv zeta.
  rewrite iterations_INR.
  change Basic.calculateEMI with Simplified.calculateEMI.
  set (mr := r / 100 / 12). set (E := Simplified.calculateEMI p r (INR k)).
  assert (Hmr : mr <> 0) by (unfold mr; lra).
  destruct (calculateEMI_schedule 0 p r k Hp Hr Hk) as (_ & Hz & _).
  cbv zeta in Hz. fold mr E in Hz.
  destruct (scheduleLoop_invariant p (INR k) mr E k Hmr)
    as (Hb & _ & _ & Hi & Hpr).
  destruct k as [| k]; [lia |].
  destruct (scheduleLoop_last p (INR (S k)) mr E k eq_refl)
    as (Hci & Hcp & row & Hs & Hrow).
  cbv zeta in Hci, Hcp, Hs, Hrow.
  rewrite Hci, Hz in Hi. rewrite Hcp, Hz in Hpr. rewrite Hb, Hz in Hrow.
  split; [lra |]. split; [lra |].
  exists row. split; [| exact Hrow].
  rewrite Hs, length_app. cbn [length].
  rewrite nth_error_app2 by lia.
  replace (length _ + 1 - 1 - length _)%nat with 0%nat by lia.
  reflexivity.
Qed.

(** X13.  For a whole number [k >= 1] of months, a positive principal and a
    positive rate, the yearly schedule of the first component accounts
    for every month: its interest adds up to
    [calculateEMI * k - principal], its principal parts add up to the
    principal, and its last entry has remaining balance 0. *)
Theorem getAmortizationSchedule_totals (p r : R) (k : nat) :
  0 < p -> 0 < r -> (1 <= k)%nat ->
  let s := Basic.getAmortizationSchedule p r (INR k) in
  sumR (map Basic.annualInterest s)
    = Basic.calculateEMI p r (INR k) * INR k - p /\
  sumR (map Basic.annualPrincipal s) = p /\
  exists row,
    nth_error s (length s - 1) = Some row /\
    Basic.remainingBalance row = 0.
Proof. exact (getAmortizationSchedule_sums p r k). Qed.

(** Entries are numbered by [currentYear], which counts them. *)
Lemma scheduleLoop_years (p months mr emi : R) (c : nat) :
  let st := Basic.scheduleLoop c 1 months mr emi
              (Basic.mkLoopState p [] 0 0 1) in
  Basic.currentYear st = S (length (Basic.schedule st)) /\
  (forall n row, nth_error (Basic.schedule st) n = Some row ->
                 Basic.year row = S n).
Proof.
  cbv zeta. induction c as [| c IH].
  - split; [reflexivity |]. intros n row H. destruct n; discriminate.
  - rewrite scheduleLoop_snoc.
    set (st := Basic.scheduleLoop c 1 months mr emi
                 (Basic.mkLoopState p [] 0 0 1)) in *.
    destruct IH as (Hy & Hn).
    destruct (scheduleStep_cases months mr emi (1 + c) st)
      as [[_ ->] | [_ ->]]; cbn [Basic.currentYear Basic.schedule].
    + split; [rewrite length_app, Hy; cbn [length]; lia |].
      intros n row H.
      destruct (Nat.lt_ge_cases n (length (Basic.schedule st))) as [Hlt | Hge].
      * rewrite nth_error_app1 in H by exact Hlt. apply Hn. exact H.
      * rewrite nth_error_app2 in H by exact Hge.
        destruct (n - length (Basic.schedule st))%nat as [| d] eqn:Ed.
        -- cbn in H. injection H as <-. cbn [Basic.year]. rewrite Hy. lia.
        -- destruct d; discriminate.
    + split; assumption.
Qed.

(** X14.  The entries of the yearly schedule of the first component are
    numbered 1, 2, ...; a whole number [k >= 1] of months gives
    [(k + 11) / 12] entries, the last one possibly a partial year; when
    [months] is not a whole number the months after the last complete
    year are in no entry, so that there are [floor(months) / 12]
    entries. *)
Theorem getAmortizationSchedule_entries (p r months : R) :
  let s := Basic.getAmortizationSchedule p r months in
  (forall n row, nth_error s n = Some row -> Basic.year row = S n) /\
  (forall k : nat, (1 <= k)%nat -> months = INR k ->
     length s = ((k + 11) / 12)%nat) /\
  ((forall i : nat, INR i <> months) ->
   length s = (iterations months / 12)%nat).
Proof.
  cbv zeta. unfold Basic.getAmortizationSchedule. cbv zeta.
  split; [| split].
  - apply scheduleLoop_years.
  - intros k Hk ->. rewrite iterations_INR.
    destruct k as [| k]; [lia |].
    destruct (scheduleLoop_last p (INR (S k)) (r / 100 / 12)
                (Basic.calculateEMI p r (INR (S k))) k eq_refl)
      as (_ & _ & row & Hs & _).
    cbv zeta in Hs. rewrite Hs, length_app. cbn [length].
    rewrite scheduleLoop_length.
    + replace (S k + 11)%nat with (k + 1 * 12)%nat by lia.
      rewrite Nat.div_add by lia. reflexivity.
    + intros i Hi Heq. apply INR_eq in Heq. lia.
  - intros Hne. apply scheduleLoop_length. intros i _. apply Hne.
Qed.

Lemma getAmortizationSchedule_totals_witness :
  sumR (map Basic.annualPrincipal (Basic.getAmortizationSchedule 1200 12 (INR 12)))
    = 1200.
Proof.
  destruct (getAmortizationSchedule_totals 1200 12 12
              ltac:(lra) ltac:(lra) ltac:(lia)) as (_ & H & _).
  exact H.
Defined.

Lemma half_year_not_whole (i : nat) : INR i <> half_year_months.
Proof.
  unfold half_year_months. intros H.
  assert (H2 : IZR (2 * Z.of_nat i) = IZR 11).
  { rewrite mult_IZR, <- INR_IZR_INZ, H. field. }
  apply eq_IZR in H2. lia.
Qed.

(** A tenure of five and a half months leaves the yearly schedule
    empty. *)
Lemma getAmortizationSchedule_entries_witness :
  Basic.getAmortizationSchedule 1000 12 half_year_months = [].
Proof.
  destruct (getAmortizationSchedule_entries 1000 12 half_year_months)
    as (_ & _ & H).
  specialize (H half_year_not_whole).
  assert (Hit : iterations half_year_months = 5%nat).
  { unfold iterations, half_year_months.
    rewrite <- (Int_part_spec (11 / 2) 5); [reflexivity | lra]. }
  rewrite Hit in H. change (5 / 12)%nat with 0%nat in H.
  destruct (Basic.getAmortizationSchedule 1000 12 half_year_months);
    [reflexivity | discriminate H].
Defined.

(** ** Deductions of the first component *)

Lemma forEach_deductionStep (selfOccupied : bool) (limit : R)
    (l : list Basic.YearRow) (i : nat) (st : Basic.Deductions) :
  (1 <= i)%nat ->
  forEach (Basic.deductionStep selfOccupied limit) l i st =
    Basic.mkDeductions
      (Basic.totalDeductibleInterest st
       + sumR (map (Basic_interestDeduction selfOccupied limit) l))
      (Basic.totalDeductiblePrincipal st
       + sumR (map Basic_principalDeduction l))
      (Basic.firstYearDeductibleInterest st)
      (Basic.firstYearDeductiblePrincipal st).
Proof.
  revert i st. induction l as [| y l IH]; intros i st Hi.
  - cbn [forEach map sumR fold_right]. rewrite !Rplus_0_r.
    destruct st; reflexivity.
  - cbn [forEach]. rewrite IH by lia.
    unfold Basic.deductionStep.
    destruct i as [| i]; [lia |].
    cbn [Nat.eqb Basic.totalDeductibleInterest Basic.totalDeductiblePrincipal
         Basic.firstYearDeductibleInterest Basic.firstYearDeductiblePrincipal
         map sumR fold_right].
    unfold Basic_interestDeduction, Basic_principalDeduction, Math_min, sumR.
    f_equal; ring.
Qed.

Lemma deductions_sums (selfOccupied : bool) (limit : R)
    (l : list Basic.YearRow) :
  let d := Basic.deductions selfOccupied limit l in
  Basic.totalDeductibleInterest d =
    sumR (map (Basic_interestDeduction selfOccupied limit) l) /\
  Basic.totalDeductiblePrincipal d = sumR (map Basic_principalDeduction l) /\
  Basic.firstYearDeductibleInterest d =
    match l with
    | [] => 0
    | y :: _ => Basic_interestDeduction selfOccupied limit y
    end /\
  Basic.firstYearDeductiblePrincipal d =
    match l with
    | [] => 0
    | y :: _ => Basic_principalDeduction y
    end.
Proof.
  cbv zeta. unfold Basic.deductions. destruct l as [| y l].
  - cbn. unfold sumR. cbn. repeat split.
  - cbn [forEach]. rewrite forEach_deductionStep by lia.
    unfold Basic.deductionStep.
    cbn [Nat.eqb Basic.totalDeductibleInterest Basic.totalDeductiblePrincipal
         Basic.firstYearDeductibleInterest Basic.firstYearDeductiblePrincipal
         map sumR fold_right].
    unfold Basic_interestDeduction, Basic_principalDeduction, Math_min, sumR.
    repeat split; ring.
Qed.

Lemma Basic_analyzeLoan_old_regime (inp : Basic.Inputs) :
  Basic.taxRegime inp = "old"%string ->
  let s := Basic.getAmortizationSchedule (Basic.loanAmount inp)
             (Basic.interestRate inp) (Basic.tenureYears inp * 12) in
  let limit := Basic.effective24bLimit (Basic.isSelfOccupied inp)
                 (Basic.isJointLoan inp) s in
  let d := Basic.deductions (Basic.isSelfOccupied inp) limit s in
  let res := Basic.analyzeLoan inp in
  Basic.originalLoanDeductions res = d /\
  Basic.effective24bLimitOriginal res = limit /\
  Basic.originalLoanTaxBenefit res =
    (Basic.totalDeductibleInterest d + Basic.totalDeductiblePrincipal d)
    * (Basic.taxSlab inp / 100).
Proof.
  intros Hold. cbv zeta. unfold Basic.analyzeLoan. cbv zeta.
  rewrite Hold. change (String.eqb "old" "old") with true. cbv iota.
  destruct (Rgt_dec (Basic.loanAmount inp - Basic.extraCash inp) 0);
    cbn; repeat split.
Qed.



Lemma Basic_deduction_sums (selfOccupied jointLoan : bool)
    (s : list Basic.YearRow) :
  let d := Basic.deductions selfOccupied
             (Basic.effective24bLimit selfOccupied jointLoan s) s in
  Basic.totalDeductibleInterest d + Basic.totalDeductiblePrincipal d =
    sumR (map (fun y => if selfOccupied
                        then Rmin (Basic.annualInterest y)
                               (if jointLoan then 400000 else 200000)
                        else Basic.annualInterest y) s)
    + sumR (map (fun y => Rmin (Basic.annualPrincipal y) 150000) s).
Proof.
  cbv zeta.
  destruct (deductions_sums selfOccupied
              (Basic.effective24bLimit selfOccupied jointLoan s) s)
    as (Hi & Hp & _).
  cbv zeta in Hi, Hp. rewrite Hi, Hp.
  f_equal. f_equal. apply map_ext. intros y.
  unfold Basic_interestDeduction, Basic.effective24bLimit,
    Basic.SECTION_24B_SELF_OCCUPIED_LIMIT_PER_PERSON.
  destruct selfOccupied; [| reflexivity].
  destruct jointLoan; [| reflexivity].
  replace (200000 * 2) with 400000 by lra. reflexivity.
Qed.



(** X16.  For a let-out property under the old regime, a loan over a whole
    number of months at a positive rate has its entire interest
    deducted: the total deductible interest of the original loan is
    [originalEMI * months - loanAmount], and the reported limit is the
    interest of the first year. *)
Theorem Basic_let_out_interest_fully_deductible (inp : Basic.Inputs) (k : nat) :
  Basic.taxRegime inp = "old"%string ->
  Basic.isSelfOccupied inp = false ->
  0 < Basic.loanAmount inp -> 0 < Basic.interestRate inp ->
  Basic.tenureYears inp * 12 = INR k -> (1 <= k)%nat ->
  let res := Basic.analyzeLoan inp in
  Basic.totalDeductibleInterest (Basic.originalLoanDeductions res) =
    Basic.originalEMI res * INR k - Basic.loanAmount inp /\
  Basic.effective24bLimitOriginal res =
    Basic.firstYearDeductibleInterest (Basic.originalLoanDeductions res).
Proof.
  intros Hold Hlet Hp Hr Hn Hk. cbv zeta.
  destruct (Basic_analyzeLoan_old_regime inp Hold) as (Hd & Hl & _).
  cbv zeta in Hd, Hl. rewrite Hd, Hl.
  destruct (Basic_analyzeLoan_fields inp) as (HE & _). cbv zeta in HE.
  rewrite HE, Hn, Hlet.
  set (s := Basic.getAmortizationSchedule _ _ _).
  destruct (deductions_sums false (Basic.effective24bLimit false
              (Basic.isJointLoan inp) s) s) as (Hi & _ & Hf & _).
  cbv zeta in Hi, Hf. rewrite Hi, Hf.
  destruct (getAmortizationSchedule_sums (Basic.loanAmount inp)
              (Basic.interestRate inp) k Hp Hr Hk) as (Hsum & _).
  cbv zeta in Hsum. fold s in Hsum.
  split.
  - rewrite <- Hsum. reflexivity.
  - unfold Basic.effective24bLimit. destruct s; reflexivity.
Qed.

Lemma Basic_let_out_interest_fully_deductible_witness :
  Basic.totalDeductibleInterest
    (Basic.originalLoanDeductions (Basic.analyzeLoan let_out_inputs_basic)) =
  Basic.originalEMI (Basic.analyzeLoan let_out_inputs_basic) * INR 12 - 1000.
Proof.
  apply (Basic_let_out_interest_fully_deductible let_out_inputs_basic 12);
    try reflexivity; try (simpl; lra); lia.
Defined.

(** ** Rows and years of the second component *)

Lemma amortLoop_interest_nonneg (count i : nat) (mr emi b : R) :
  0 <= mr -> 0 <= b ->
  Forall (fun row => 0 <= Simplified.interest row)
         (Simplified.amortLoop count i mr emi b).
Proof.
  intros Hmr. revert i b. induction count as [| count IH]; intros i b Hb.
  - constructor.
  - rewrite amortLoop_S.
    assert (Hi : 0 <= Simplified.interest (Simplified.amortRow mr emi b i)).
    { destruct (amortRow_fields mr emi b i) as (_ & -> & _). nra. }
    destruct (Req_dec_T _ 0).
    + constructor; [exact Hi | constructor].
    + constructor; [exact Hi |]. apply IH.
      apply amortRow_balance_bounds. exact Hb.
Qed.

Lemma aggregates_length (k : nat) (ys : list (list Simplified.Row)) :
  length (aggregates k ys) = length ys.
Proof.
  revert k. induction ys as [| y ys IH]; intros k; simpl;
    [reflexivity | rewrite IH; reflexivity].
Qed.

Lemma aggregates_year (k : nat) (ys : list (list Simplified.Row)) (n : nat)
    (y : Simplified.Year.t) :
  nth_error (aggregates k ys) n = Some y ->
  Simplified.Year.year y = (k + n)%nat.
Proof.
  revert k n. induction ys as [| c ys IH]; intros k n.
  - destruct n; discriminate.
  - destruct n as [| n]; cbn [aggregates nth_error].
    + intros [= <-]. cbn. lia.
    + intros H. rewrite (IH _ _ H). lia.
Qed.

Lemma sumR_app (l1 l2 : list R) : sumR (l1 ++ l2) = sumR l1 + sumR l2.
Proof.
  unfold sumR. induction l1 as [| x l1 IH]; simpl; [ring | rewrite IH; ring].
Qed.

Lemma aggregates_sums (k : nat) (ys : list (list Simplified.Row)) :
  sumR (map Simplified.Year.interest (aggregates k ys)) =
    sumR (map Simplified.interest (concat ys)) /\
  sumR (map Simplified.Year.principal (aggregates k ys)) =
    sumR (map Simplified.principal (concat ys)).
Proof.
  revert k. induction ys as [| y ys IH]; intros k.
  - split; reflexivity.
  - destruct (IH (S k)) as [Hi Hp].
    cbn [aggregates map concat Simplified.Year.interest
         Simplified.Year.principal].
    rewrite !map_app, !sumR_app, <- Hi, <- Hp, !fold_left_plus_sumR.
    unfold sumR. cbn [fold_right]. split; ring.
Qed.

Lemma chunks12_length {A : Type} (fuel : nat) (l : list A) :
  (length l <= fuel)%nat ->
  length (chunks fuel 12 l) = ((length l + 11) / 12)%nat.
Proof.
  revert l. induction fuel as [| fuel IH]; intros l Hlen.
  - destruct l; [reflexivity | cbn [length] in Hlen; lia].
  - destruct l as [| x l'] eqn:El; [reflexivity |].
    rewrite <- El in *.
    assert (Hch : chunks (S fuel) 12 l =
                  firstn 12 l :: chunks fuel 12 (skipn 12 l))
      by (rewrite El; reflexivity).
    assert (Hpos : (1 <= length l)%nat) by (rewrite El; cbn [length]; lia).
    rewrite Hch. cbn [length]. rewrite IH, length_skipn
      by (rewrite length_skipn; lia).
    destruct (Nat.le_gt_cases (length l) 12) as [Hle | Hgt].
    + replace (length l - 12)%nat with 0%nat by lia.
      change ((0 + 11) / 12)%nat with 0%nat.
      apply (Nat.div_unique (length l + 11) 12 1 (length l - 1)); lia.
    + replace (length l + 11)%nat with (length l - 12 + 11 + 1 * 12)%nat by lia.
      rewrite Nat.div_add by lia. lia.
Qed.

(** X18.  The yearly bucketing of a schedule loses nothing: [yearlyData]
    has no holes and one entry per started year, [ceil(rows / 12)] in
    all, numbered 1, 2, ...; the yearly interest adds up to the interest
    of all rows and the yearly principal to the principal of all
    rows. *)
Theorem buildYearlyData_conserves (sched : list Simplified.Row) :
  let ys := elements (Simplified.buildYearlyData sched) in
  Simplified.buildYearlyData sched = map Some ys /\
  length ys = ((length sched + 11) / 12)%nat /\
  (forall n y, nth_error ys n = Some y -> Simplified.Year.year y = S n) /\
  sumR (map Simplified.Year.interest ys) = Simplified.totalInterest sched /\
  sumR (map Simplified.Year.principal ys) =
    sumR (map Simplified.principal sched).
Proof.
  cbv zeta. rewrite buildYearlyData_years, elements_dense.
  destruct (years_partition sched) as [Hc _].
  destruct (aggregates_sums 1 (years sched)) as [Hi Hp].
  rewrite Hc in Hi, Hp.
  split; [reflexivity |]. split.
  { rewrite aggregates_length. unfold years. apply chunks12_length. lia. }
  split.
  { intros n y H. apply aggregates_year in H. exact H. }
  split; [rewrite Hi, totalInterest_sumR; reflexivity | exact Hp].
Qed.

(** ** Bounds on the tax benefit of the second component *)

Lemma sumR_nonneg {A : Type} (f : A -> R) (l : list A) :
  Forall (fun x => 0 <= f x) l -> 0 <= sumR (map f l).
Proof.
  induction 1 as [| x l Hx _ IH]; [simpl; lra |].
  cbn [map sumR fold_right]. fold (sumR (map f l)). lra.
Qed.

Lemma sumR_le_const {A : Type} (f : A -> R) (c : R) (l : list A) :
  Forall (fun x => f x <= c) l -> sumR (map f l) <= INR (length l) * c.
Proof.
  induction 1 as [| x l Hx _ IH]; [simpl; lra |].
  cbn [map sumR fold_right length]. fold (sumR (map f l)).
  rewrite S_INR. lra.
Qed.

Lemma totalTaxBenefit_bounds (sched : list Simplified.Row) (used slab : R) :
  0 <= slab ->
  Forall (fun row => 0 <= Simplified.interest row /\
                     0 <= Simplified.principal row) sched ->
  0 <= totalTaxBenefit sched used slab
    <= INR ((length sched + 11) / 12)
       * ((200000 + Rmax 0 (150000 - used)) * slab).
Proof.
  intros Hslab Hrows.
  assert (Hyears : Forall (Forall (fun row => 0 <= Simplified.interest row /\
                                              0 <= Simplified.principal row))
                     (years sched)).
  { apply Forall_concat. rewrite (proj1 (years_partition sched)). exact Hrows. }
  assert (Hlen : length (years sched) = ((length sched + 11) / 12)%nat).
  { unfold years. apply chunks12_length. lia. }
  rewrite <- Hlen. unfold totalTaxBenefit.
  pose proof (Rmax_l 0 (150000 - used)) as Hallow.
  assert (Hterm : Forall (fun y =>
            0 <= (interestDeduction y
                  + principalDeduction (remainingPrincipalAllowance used) y)
                 * slab
            /\ (interestDeduction y
                + principalDeduction (remainingPrincipalAllowance used) y)
               * slab
               <= (200000 + Rmax 0 (150000 - used)) * slab) (years sched)).
  { apply Forall_forall. intros y Hy.
    rewrite Forall_forall in Hyears. specialize (Hyears y Hy).
    assert (Hi : 0 <= annualInterest y).
    { unfold annualInterest. apply sumR_nonneg.
      apply Forall_impl with (2 := Hyears). intros row [H _]. exact H. }
    assert (Hp : 0 <= annualPrincipal y).
    { unfold annualPrincipal. apply sumR_nonneg.
      apply Forall_impl with (2 := Hyears). intros row [_ H]. exact H. }
    unfold interestDeduction, principalDeduction, remainingPrincipalAllowance,
      Simplified.SECTION_24B_SOP_LIMIT, Simplified.SECTION_80C_LIMIT.
    pose proof (Rmin_r (annualInterest y) 200000).
    pose proof (Rmin_r (annualPrincipal y) (Rmax 0 (150000 - used))).
    assert (0 <= Rmin (annualInterest y) 200000)
      by (apply Rmin_glb; lra).
    assert (0 <= Rmin (annualPrincipal y) (Rmax 0 (150000 - used)))
      by (apply Rmin_glb; lra).
    split; nra. }
  split.
  - apply sumR_nonneg. apply Forall_impl with (2 := Hterm).
    intros y [H _]. exact H.
  - apply sumR_le_const. apply Forall_impl with (2 := Hterm).
    intros y [_ H]. exact H.
Qed.

Lemma generateFullAmortization_nonneg (fuel : nat) (p r : R) (months : bound)
    (emi : R) (sched : list Simplified.Row) :
  0 <= r ->
  Simplified.generateFullAmortization fuel p r months emi = Some sched ->
  Forall (fun row => 0 <= Simplified.interest row /\
                     0 <= Simplified.principal row) sched.
Proof.
  intros Hr H. apply generateFullAmortization_inv in H.
  destruct H as [[-> _] | (Hp & _ & count & -> & _)]; [constructor |].
  pose proof (amortLoop_interest_nonneg count 1 (r / 100 / 12) emi p) as Hi.
  pose proof (amortLoop_rows_ok count 1 (r / 100 / 12) emi p) as Hok.
  rewrite Forall_forall in *. intros row Hin. split.
  - apply Hi; [lra | lra | exact Hin].
  - destruct (Hok row Hin) as (_ & H & _). exact H.
Qed.

(** X19.  Under the old regime, with a rate and a slab that are not
    negative, each tax benefit in a result of the second component lies
    between 0 and years * (200000 + max(0, 150000 - used80C)) * slab / 100,
    where years is the number of started years of its schedule; a result
    is returned at least when the installment is reduced or the cash
    covers the loan, and the fuel of the model does not matter. *)
Theorem tax_benefit_bounds (fuel : nat) (inp : Simplified.Inputs) :
  Simplified.taxRegime inp = "old"%string ->
  0 <= Simplified.interestRate inp -> 0 <= Simplified.taxSlab inp ->
  let cap := (200000 + Rmax 0 (150000 - Simplified.used80C inp))
             * (Simplified.taxSlab inp / 100) in
  (forall res : Simplified.Results,
     Simplified.analyzeLoan fuel inp = Some res ->
     0 <= Simplified.originalLoanTaxBenefit res
       <= INR ((length (Simplified.originalAmortization res) + 11) / 12) * cap /\
     0 <= Simplified.prepaidLoanTaxBenefit res
       <= INR ((length (Simplified.prepaidAmortization res) + 11) / 12) * cap)
  /\
  (finite_bound inp ->
   exists res, Simplified.analyzeLoan fuel inp = Some res)
  /\
  (forall fuel' : nat,
     Simplified.analyzeLoan fuel' inp = Simplified.analyzeLoan fuel inp).
Proof.
  intros Hold Hr Hslab. cbv zeta.
  split; [| split; [apply analyzeLoan_finite_bound_returns
                   | intros fuel'; apply analyzeLoan_fuel]].
  intros res Hres.
  assert (Hs : 0 <= Simplified.taxSlab inp / 100) by lra.
  destruct (analyzeLoan_Some _ _ _ Hres)
    as (orig & e & t & sv & am & b & Ho & Hp & Horig & _ & _ & _ & Ham & Hb
        & _ & _ & _ & Hben).
  rewrite Hold in Hben. change (String.eqb "old" "old") with true in Hben.
  cbv iota in Hben. rewrite loanTaxBenefit_total in Hben.
  rewrite Hben, Horig, Hb, Ham. split.
  - apply totalTaxBenefit_bounds; [exact Hs |].
    exact (generateFullAmortization_nonneg _ _ _ _ _ _ Hr Ho).
  - apply prepayLoan_Some in Hp. cbv zeta in Hp.
    destruct Hp as [(_ & _ & _ & _ & -> & ->) | (_ & _ & Hg & _ & ->)].
    + simpl. lra.
    + rewrite Hold. change (String.eqb "old" "old") with true. cbv iota.
      rewrite loanTaxBenefit_total.
      apply totalTaxBenefit_bounds; [exact Hs |].
      exact (generateFullAmortization_nonneg _ _ _ _ _ _ Hr Hg).
Qed.

Lemma components_agree_on_reduce_emi_witness :
  exists res,
    Simplified.analyzeLoan 0 reduce_emi_inputs = Some res /\
    Basic.interestSaved (Basic.analyzeLoan prepay_inputs_basic) =
      Simplified.interestSaved res.
Proof.
  destruct (proj2 (analyzeLoan_returns_iff 0 reduce_emi_inputs)) as [res Hres].
  { intros (_ & Hm & _). discriminate Hm. }
  exists res. split; [exact Hres |].
  apply (components_agree_on_reduce_emi 0 reduce_emi_inputs res
           prepay_inputs_basic 12);
    try reflexivity; try (simpl; lra); try lia; exact Hres.
Defined.

(** ** The chart data of the second component *)

Lemma graphLoop_snoc (inp : Simplified.Inputs) (res : Simplified.Results)
    (count year : nat) (st : Chart.State) :
  Chart.graphLoop inp res (S count) year st =
    Chart.graphStep inp res (year + count)
      (Chart.graphLoop inp res count year st).
Proof.
  revert year st. induction count as [| count IH]; intros year st.
  - simpl. rewrite Nat.add_0_r. reflexivity.
  - change (Chart.graphLoop inp res (S (S count)) year st)
      with (Chart.graphLoop inp res (S count) (S year)
              (Chart.graphStep inp res year st)).
    rewrite IH. replace (S year + count)%nat with (year + S count)%nat by lia.
    reflexivity.
Qed.

Lemma Chart_within_spec (y : nat) (b : bound) :
  (1 <= y)%nat ->
  Chart.within y b = true <->
  match b with
  | Fin m => (y <= iterations (m / 12))%nat
  | Infinity => True
  end.
Proof.
  intros Hy. destruct b as [m |]; cbn [Chart.within].
  - rewrite (iterations_spec (m / 12) y Hy).
    destruct (Rle_dec (INR y) (m / 12)); split; intros H;
      try reflexivity; try assumption; try discriminate; contradiction.
  - split; intros _; [exact I | reflexivity].
Qed.

Lemma graphLoop_closed (inp : Simplified.Inputs) (res : Simplified.Results)
    (y : nat) :
  Chart.graphLoop inp res y 1 (0, 0, []) =
    (Chart.interestUpTo
       (Nat.min y (iterations (Simplified.tenureYears inp)) * 12)
       (Simplified.originalAmortization res),
     Chart.interestUpTo
       (Chart_years_within (Simplified.newTenureMonths res) y * 12)
       (Simplified.prepaidAmortization res),
     map (Chart_point inp res) (seq 1 y)).
Proof.
  induction y as [| y IH].
  - cbn [Chart.graphLoop seq map Nat.min Nat.mul].
    assert (H0 : Chart_years_within (Simplified.newTenureMonths res) 0 = 0%nat).
    { unfold Chart_years_within.
      destruct (Simplified.newTenureMonths res); reflexivity. }
    rewrite H0. reflexivity.
  - rewrite graphLoop_snoc, IH. cbn [Nat.add]. unfold Chart.graphStep.
    rewrite seq_S, map_app. cbn [map Nat.add].
    set (itO := iterations (Simplified.tenureYears inp)).
    assert (HO : (if Rle_dec (INR (S y)) (Simplified.tenureYears inp)
                  then Chart.interestUpTo (S y * 12)
                         (Simplified.originalAmortization res)
                  else Chart.interestUpTo (Nat.min y itO * 12)
                         (Simplified.originalAmortization res))
                 = Chart.interestUpTo (Nat.min (S y) itO * 12)
                     (Simplified.originalAmortization res)).
    { pose proof (iterations_spec (Simplified.tenureYears inp) (S y)) as Hs.
      fold itO in Hs.
      destruct (Rle_dec (INR (S y)) (Simplified.tenureYears inp)) as [H | H].
      - rewrite Nat.min_l by (apply Hs; [lia | exact H]). reflexivity.
      - assert (Hgt : ~ (S y <= itO)%nat) by (intros Hle; apply H, Hs; [lia | exact Hle]).
        rewrite !Nat.min_r by lia. reflexivity. }
    assert (HP : (if Chart.within (S y) (Simplified.newTenureMonths res)
                  then Chart.interestUpTo (S y * 12)
                         (Simplified.prepaidAmortization res)
                  else Chart.interestUpTo
                         (Chart_years_within (Simplified.newTenureMonths res) y * 12)
                         (Simplified.prepaidAmortization res))
                 = Chart.interestUpTo
                     (Chart_years_within (Simplified.newTenureMonths res) (S y) * 12)
                     (Simplified.prepaidAmortization res)).
    { pose proof (Chart_within_spec (S y) (Simplified.newTenureMonths res)) as Hs.
      destruct (Simplified.newTenureMonths res) as [m |];
        cbn [Chart_years_within] in *.
      - destruct (Chart.within (S y) (Fin m)) eqn:E.
        + rewrite Nat.min_l by (apply Hs; [lia | reflexivity]). reflexivity.
        + assert (Hgt : ~ (S y <= iterations (m / 12))%nat).
          { intros Hle. apply Hs in Hle; [| lia]. discriminate Hle. }
          rewrite !Nat.min_r by lia. reflexivity.
      - reflexivity. }
    rewrite HO, HP. unfold Chart_point at 2. rewrite Math_pow_nat.
    reflexivity.
Qed.

Lemma Rmax_INR (a b : nat) : Rmax (INR a) (INR b) = INR (Nat.max a b).
Proof.
  destruct (Nat.le_gt_cases a b) as [H | H].
  - rewrite Nat.max_r by exact H. apply Rmax_right. apply le_INR. exact H.
  - rewrite Nat.max_l by lia. apply Rmax_left. apply le_INR. lia.
Qed.

Lemma ceilZ_div12 (n : nat) :
  ceilZ (INR n / 12) = Z.of_nat ((n + 11) / 12).
Proof.
  symmetry. apply ceilZ_unique.
  pose proof (Nat.div_mod_eq (n + 11) 12) as H1.
  pose proof (Nat.mod_upper_bound (n + 11) 12) as H2.
  set (q := ((n + 11) / 12)%nat) in *. set (m := ((n + 11) mod 12)%nat) in *.
  assert (Hn : INR n = 12 * INR q + INR m - 11).
  { assert (H : INR (n + 11) = INR (12 * q + m)) by (rewrite <- H1; reflexivity).
    rewrite !plus_INR, mult_INR in H. simpl in H. lra. }
  assert (Hm : 0 <= INR m <= 11).
  { split; [apply pos_INR |].
    replace 11 with (INR 11) by (simpl; lra). apply le_INR. lia. }
  rewrite <- INR_IZR_INZ, Hn. split; lra.
Qed.

Lemma Chart_maxYears_iterations (res : Simplified.Results) :
  iterations (Chart.maxYears res) =
    ((Nat.max (length (Simplified.originalAmortization res))
              (length (Simplified.prepaidAmortization res)) + 11) / 12)%nat.
Proof.
  unfold Chart.maxYears, Math_ceil, Math_max.
  rewrite iterations_IZR, Rmax_INR, ceilZ_div12. apply Nat2Z.id.
Qed.


(** X20.  The chart has one point per started year of the longer of the two
    schedules, numbered 1, 2, ...; the point of year [y] carries, rounded
    to whole numbers, the investment value [cash * (1 + r/100)^y] and the
    interest of the first [12 * y'] rows of each schedule, where [y'] is
    the last year up to [y] that is at most [tenureYears] (for the
    original loan) or [newTenureMonths / 12] (for the prepaid loan): the
    months after the last such year are not added. *)
Theorem chart_points (inp : Simplified.Inputs) (res : Simplified.Results) :
  let n := ((Nat.max (length (Simplified.originalAmortization res))
                     (length (Simplified.prepaidAmortization res)) + 11)
            / 12)%nat in
  length (Chart.graphData inp res) = n /\
  forall y pt,
    nth_error (Chart.graphData inp res) y = Some pt ->
    Chart.year pt = S y /\
    Chart.Investment_Value pt =
      Chart.toFixed 0
        (Simplified.extraCash inp
         * (1 + Simplified.investmentReturn inp / 100) ^ S y) /\
    Chart.Interest_Original pt =
      Chart.toFixed 0
        (Chart.interestUpTo
           (Nat.min (S y) (iterations (Simplified.tenureYears inp)) * 12)
           (Simplified.originalAmortization res)) /\
    Chart.Interest_Prepaid pt =
      Chart.toFixed 0
        (Chart.interestUpTo
           (Chart_years_within (Simplified.newTenureMonths res) (S y) * 12)
           (Simplified.prepaidAmortization res)).
Proof.
  cbv zeta. unfold Chart.graphData.
  rewrite Chart_maxYears_iterations, graphLoop_closed. cbn [snd].
  split; [rewrite length_map, length_seq; reflexivity |].
  intros y pt H.
  rewrite nth_error_map in H.
  destruct (nth_error (seq 1 _) y) as [k |] eqn:Ek; [| discriminate].
  assert (Hk : k = S y).
  { assert (Hlt : (y < length (seq 1
        ((Nat.max (length (Simplified.originalAmortization res))
            (length (Simplified.prepaidAmortization res)) + 11) / 12)))%nat).
    { apply nth_error_Some. rewrite Ek. discriminate. }
    rewrite length_seq in Hlt.
    rewrite (nth_error_nth' _ 0%nat) in Ek by (rewrite length_seq; exact Hlt).
    rewrite seq_nth in Ek by exact Hlt. injection Ek as <-. lia. }
  subst k. cbn [option_map] in H. injection H as <-.
  unfold Chart_point. cbn. repeat split.
Qed.


Lemma buildYearlyData_conserves_witness :
  exists y,
    nth_error (elements (Simplified.buildYearlyData
                           [Simplified.mkRow 1 1 199 200 0])) 0 = Some y /\
    Simplified.Year.year y = 1%nat.
Proof.
  destruct (buildYearlyData_conserves [Simplified.mkRow 1 1 199 200 0])
    as (_ & _ & H & _).
  eexists. split; [reflexivity |]. apply (H 0%nat). reflexivity.
Defined.

Lemma chart_points_witness :
  exists pt,
    nth_error (Chart.graphData retired_inputs one_row_result) 0 = Some pt /\
    Chart.year pt = 1%nat.
Proof.
  destruct (chart_points retired_inputs one_row_result) as (Hlen & Hpt).
  cbv zeta in Hlen.
  destruct (nth_error (Chart.graphData retired_inputs one_row_result) 0)
    as [pt |] eqn:E.
  - exists pt. split; [reflexivity |]. apply (Hpt 0%nat pt E).
  - exfalso. apply nth_error_None in E. rewrite Hlen in E.
    cbn in E. lia.
Defined.


(** ** The investment gain of the first component *)

(** X22.  When the fields of its state hold numbers, the first component
    reports no investment loss: the gain is 0 when the cash, the tenure
    or the expected return rules out compounding (a negative return
    included), and not negative otherwise. *)
Theorem Basic_investment_gain_nonneg (inp : Basic.Inputs) :
  0 <= Basic.investmentGain (Basic.analyzeLoan inp) /\
  (Basic.extraCash inp <= 0 \/ Basic.investmentReturn inp < 0 \/
   Basic.tenureYears inp <= 0 ->
   Basic.investmentGain (Basic.analyzeLoan inp) = 0).
Proof.
  destruct (Basic_analyzeLoan_fields inp) as (_ & Hg & _). cbv zeta in Hg.
  rewrite Hg. unfold Basic.calculateFutureValue.
  destruct (Rle_dec (Basic.extraCash inp) 0) as [Hc | Hc];
    [split; [lra | intros _; lra] |].
  destruct (Rlt_dec (Basic.investmentReturn inp) 0) as [Hr | Hr];
    [split; [lra | intros _; lra] |].
  destruct (Rle_dec (Basic.tenureYears inp * 12) 0) as [Hn | Hn];
    [split; [lra | intros _; lra] |].
  cbv zeta. split; [| intros H; lra].
  rewrite Math_pow_pos by lra.
  assert (Hge : 1 <= Rpower (1 + Basic.investmentReturn inp / 100 / 12)
                       (Basic.tenureYears inp * 12)).
  { destruct (Req_dec_T (Basic.investmentReturn inp) 0) as [H0 | H0].
    - rewrite H0.
      replace (1 + 0 / 100 / 12) with 1 by lra.
      unfold Rpower. rewrite ln_1, Rmult_0_r, exp_0. lra.
    - apply Rlt_le. apply Rpower_gt_1; lra. }
  nra.
Qed.

(** 100 at -5% gains nothing; 100 at 10% gains something. *)
Lemma Basic_investment_gain_nonneg_witness :
  Basic.investmentGain (Basic.analyzeLoan negative_return_inputs_basic) = 0 /\
  0 <= Basic.investmentGain (Basic.analyzeLoan prepay_inputs_basic).
Proof.
  split.
  - apply (proj2 (Basic_investment_gain_nonneg negative_return_inputs_basic)).
    right. left. simpl. lra.
  - exact (proj1 (Basic_investment_gain_nonneg prepay_inputs_basic)).
Defined.

(** ** The chart data of the first component *)

Lemma BasicChart_graphLoop_snoc (inp : Basic.Inputs) (count i : nat)
    (st : BasicChart.State) :
  BasicChart.graphLoop inp (S count) i st =
    BasicChart.graphStep inp (i + count) (BasicChart.graphLoop inp count i st).
Proof.
  revert i st. induction count as [| count IH]; intros i st.
  - simpl. rewrite Nat.add_0_r. reflexivity.
  - change (BasicChart.graphLoop inp (S (S count)) i st)
      with (BasicChart.graphLoop inp (S count) (S i)
              (BasicChart.graphStep inp i st)).
    rewrite IH. replace (S i + count)%nat with (i + S count)%nat by lia.
    reflexivity.
Qed.

(** A month in which both loans still carry a balance. *)
Lemma BasicChart_graphStep_running (inp : Basic.Inputs) (i : nat)
    (st : BasicChart.State) :
  BasicChart.originalBalance st > 0 ->
  BasicChart.prepaidBalance st > 0 ->
  Basic.newEMI (Basic.analyzeLoan inp) > 0 ->
  let mr := Basic.interestRate inp / 100 / 12 in
  let E := Basic.originalEMI (Basic.analyzeLoan inp) in
  let E' := Basic.newEMI (Basic.analyzeLoan inp) in
  let civ := BasicChart.currentInvestmentValue st
             * (1 + Basic.investmentReturn inp / 100 / 12) in
  let coi := BasicChart.currentOriginalInterest st
             + BasicChart.originalBalance st * mr in
  let cpi := BasicChart.currentPrepaidInterest st
             + BasicChart.prepaidBalance st * mr in
  BasicChart.graphStep inp i st =
    BasicChart.mkState civ coi cpi
      (BasicChart.originalBalance st - (E - BasicChart.originalBalance st * mr))
      (BasicChart.prepaidBalance st - (E' - BasicChart.prepaidBalance st * mr))
      (if orb (Nat.eqb (i mod 12) 0)
              (if Req_dec_T (INR i) (Basic.tenureYears inp * 12)
               then true else false)
       then BasicChart.graphData st ++
              [BasicChart.mkPoint (Math_ceil (INR i / 12))
                 (Chart.toFixed 2 civ) (Chart.toFixed 2 coi)
                 (Chart.toFixed 2 cpi)]
       else BasicChart.graphData st).
Proof.
  intros Ho Hp He. cbv zeta. unfold BasicChart.graphStep. cbv zeta.
  destruct (Rgt_dec (BasicChart.originalBalance st) 0); [| contradiction].
  destruct (Rgt_dec (BasicChart.prepaidBalance st) 0); [| contradiction].
  destruct (Rgt_dec (Basic.newEMI (Basic.analyzeLoan inp)) 0);
    [| contradiction].
  reflexivity.
Qed.

(** The state of the chart loop after [j] of the [k] months of a loan
    that amortizes, part of it prepaid. *)
Lemma BasicChart_invariant (inp : Basic.Inputs) (k j : nat) :
  let p := Basic.loanAmount inp in
  let r := Basic.interestRate inp in
  let c := Basic.extraCash inp in
  let mr := r / 100 / 12 in
  let E := Simplified.calculateEMI p r (INR k) in
  let E' := Simplified.calculateEMI (p - c) r (INR k) in
  0 < p -> 0 < r -> Basic.tenureYears inp * 12 = INR k -> (1 <= k)%nat ->
  0 < c < p -> (j <= k)%nat ->
  let st := BasicChart.graphLoop inp j 1
              (BasicChart.mkState c 0 0 p (p - c) []) in
  BasicChart.currentInvestmentValue st
    = c * (1 + Basic.investmentReturn inp / 100 / 12) ^ j /\
  BasicChart.originalBalance st = unclampedBalance p mr E j /\
  BasicChart.prepaidBalance st = unclampedBalance (p - c) mr E' j /\
  BasicChart.currentOriginalInterest st
    = E * INR j - (p - unclampedBalance p mr E j) /\
  BasicChart.currentPrepaidInterest st
    = E' * INR j - (p - c - unclampedBalance (p - c) mr E' j) /\
  ((j < k)%nat -> length (BasicChart.graphData st) = (j / 12)%nat) /\
  (j = k ->
   exists prev,
     length prev = ((k - 1) / 12)%nat /\
     BasicChart.graphData st =
       prev ++
       [BasicChart.mkPoint (Math_ceil (INR k / 12))
          (Chart.toFixed 2 (BasicChart.currentInvestmentValue st))
          (Chart.toFixed 2 (BasicChart.currentOriginalInterest st))
          (Chart.toFixed 2 (BasicChart.currentPrepaidInterest st))]).
Proof.
  intros p r c mr E E' Hp Hr Hn Hk Hc. cbv zeta.
  assert (Hmr : 0 < mr) by (unfold mr; lra).
  destruct (Basic_analyzeLoan_fields inp) as (HE & _).
  destruct (Basic_analyzeLoan_prepay inp) as (HE' & _); [fold p c; lra |].
  cbv zeta in HE, HE'. fold p r c in HE, HE'. rewrite Hn in HE, HE'.
  change Basic.calculateEMI with Simplified.calculateEMI in HE, HE'.
  fold E in HE. fold E' in HE'.
  destruct (calculateEMI_schedule 0 p r k Hp Hr Hk) as (_ & _ & Hpos).
  destruct (calculateEMI_schedule 0 (p - c) r k) as (_ & _ & Hpos');
    [lra | assumption | assumption |].
  cbv zeta in Hpos, Hpos'. fold mr E in Hpos. fold mr E' in Hpos'.
  assert (HE'pos : 0 < E').
  { apply calculateEMI_pos; try lra. apply lt_0_INR. lia. }
  induction j as [| j IH]; intros Hj.
  - cbn [BasicChart.graphLoop BasicChart.currentInvestmentValue
         BasicChart.originalBalance BasicChart.prepaidBalance
         BasicChart.currentOriginalInterest BasicChart.currentPrepaidInterest
         BasicChart.graphData length INR pow].
    rewrite !unclampedBalance_0 by lra.
    repeat split; try ring. intros H0. lia.
  - rewrite BasicChart_graphLoop_snoc.
    set (st := BasicChart.graphLoop inp j 1
                 (BasicChart.mkState c 0 0 p (p - c) [])) in *.
    destruct IH as (Hciv & Hob & Hpb & Hcoi & Hcpi & Hlen & _); [lia |].
    rewrite BasicChart_graphStep_running.
    2:{ rewrite Hob. apply Hpos. lia. }
    2:{ rewrite Hpb. apply Hpos'. lia. }
    2:{ rewrite HE'. exact HE'pos. }
    cbv zeta. rewrite HE, HE'. fold mr.
    cbn [BasicChart.currentInvestmentValue BasicChart.originalBalance
         BasicChart.prepaidBalance BasicChart.currentOriginalInterest
         BasicChart.currentPrepaidInterest BasicChart.graphData].
    rewrite Hciv, Hob, Hpb, Hcoi, Hcpi, S_INR.
    rewrite !unclampedBalance_S by lra.
    change (Basic.interestRate inp / 100 / 12) with mr.
    split; [simpl; ring |]. split; [ring |]. split; [ring |].
    split; [ring |]. split; [ring |].
    rewrite Hn. change (1 + j)%nat with (S j).
    split.
    + intros Hlt.
      destruct (Req_dec_T (INR (S j)) (INR k)) as [Heq | _].
      { apply INR_eq in Heq. lia. }
      rewrite orb_false_r, div12_succ.
      destruct (Nat.eqb (S j mod 12) 0).
      * rewrite length_app, Hlen by lia. reflexivity.
      * rewrite Hlen by lia. lia.
    + intros Heq. subst k.
      destruct (Req_dec_T (INR (S j)) (INR (S j))) as [_ | Hne];
        [| exfalso; apply Hne; reflexivity].
      rewrite orb_true_r.
      exists (BasicChart.graphData st). split.
      * rewrite Hlen by lia. f_equal. lia.
      * reflexivity.
Qed.

(** X23.  For a loan over a whole number [k] of months at a positive rate
    and extra cash [0 < c < p], the chart of the first component has one
    point per started year, and its last point carries, rounded to two
    decimals, the investment value [c * (1 + return/1200)^k] and the
    total interest of each loan, [originalEMI * k - p] and
    [newEMI * k - (p - c)]: the month-by-month loop arrives at the closed
    forms from which [interestSaved] is computed. *)
Theorem Basic_chart_final_point (inp : Basic.Inputs) (k : nat) :
  let p := Basic.loanAmount inp in
  let c := Basic.extraCash inp in
  let res := Basic.analyzeLoan inp in
  0 < p -> 0 < Basic.interestRate inp ->
  Basic.tenureYears inp * 12 = INR k -> (1 <= k)%nat -> 0 < c < p ->
  length (BasicChart.chart inp) = ((k + 11) / 12)%nat /\
  exists pt,
    nth_error (BasicChart.chart inp) ((k + 11) / 12 - 1) = Some pt /\
    BasicChart.year pt = INR ((k + 11) / 12) /\
    BasicChart.Investment_Value pt =
      Chart.toFixed 2 (c * (1 + Basic.investmentReturn inp / 100 / 12) ^ k) /\
    BasicChart.Cumulative_Interest_Original pt =
      Chart.toFixed 2 (Basic.originalEMI res * INR k - p) /\
    BasicChart.Cumulative_Interest_Prepaid pt =
      Chart.toFixed 2 (Basic.newEMI res * INR k - (p - c)).
Proof.
  intros p c res Hp Hr Hn Hk Hc.
  destruct (BasicChart_invariant inp k k Hp Hr Hn Hk Hc (Nat.le_refl k))
    as (Hciv & _ & _ & Hcoi & Hcpi & _ & Hlast).
  destruct (Hlast eq_refl) as (prev & Hprev & Hg). clear Hlast.
  cbv zeta in Hciv, Hcoi, Hcpi, Hg. fold p c in Hciv, Hcoi, Hcpi, Hg.
  destruct (calculateEMI_schedule 0 p (Basic.interestRate inp) k Hp Hr Hk)
    as (_ & Hz & _).
  destruct (calculateEMI_schedule 0 (p - c) (Basic.interestRate inp) k)
    as (_ & Hz' & _); [lra | assumption | assumption |].
  cbv zeta in Hz, Hz'. rewrite Hz in Hcoi. rewrite Hz' in Hcpi.
  destruct (Basic_analyzeLoan_fields inp) as (HE & _).
  destruct (Basic_analyzeLoan_prepay inp) as (HE' & _); [fold p c; lra |].
  cbv zeta in HE, HE'. fold p c in HE, HE'. rewrite Hn in HE, HE'.
  change Basic.calculateEMI with Simplified.calculateEMI in HE, HE'.
  assert (Hdiv : ((k + 11) / 12 = (k - 1) / 12 + 1)%nat).
  { replace (k + 11)%nat with (k - 1 + 1 * 12)%nat by lia.
    apply Nat.div_add. lia. }
  unfold BasicChart.chart. rewrite Hn, iterations_INR. fold p c.
  rewrite Hg, Hciv, Hcoi, Hcpi. split.
  - rewrite length_app, Hprev. cbn [length]. lia.
  - eexists. split.
    + rewrite nth_error_app2 by lia.
      replace ((k + 11) / 12 - 1 - length prev)%nat with 0%nat by lia.
      reflexivity.
    + cbn [BasicChart.year BasicChart.Investment_Value
           BasicChart.Cumulative_Interest_Original
           BasicChart.Cumulative_Interest_Prepaid].
      fold res in HE, HE'. rewrite HE, HE'.
      split.
      { unfold Math_ceil. rewrite ceilZ_div12, <- INR_IZR_INZ. reflexivity. }
      split; [reflexivity |].
      split; f_equal; ring.
Qed.

Lemma Basic_chart_final_point_witness :
  length (BasicChart.chart prepay_inputs_basic) = 1%nat.
Proof.
  destruct (Basic_chart_final_point prepay_inputs_basic 12) as (H & _);
    try (simpl; lra); try lia.
  exact H.
Defined.

(** ** A loan of 5000000 at 12% over two years, worked through *)

Lemma pow12_at_one_percent :
  112682 / 100000 < (1 + 12 / 100 / 12) ^ 12 < 112683 / 100000.
Proof. simpl. lra. Qed.

(** The installment per unit of principal and the share of the principal
    that is left after the first year, from [x = 1.01^12]. *)
Lemma two_year_constants (x : R) :
  112682 / 100000 < x < 112683 / 100000 ->
  470 / 10000 < (12 / 100 / 12) * (x * x) / (x * x - 1) < 471 / 10000 /\
  5298 / 10000 < (x * x - x) / (x * x - 1) < 5299 / 10000.
Proof.
  intros Hx.
  assert (H1 : 0 < x * x - 1) by nra.
  assert (He : 12 / 100 / 12 * (x * x) / (x * x - 1) * (x * x - 1) =
               12 / 100 / 12 * (x * x)) by (field; lra).
  assert (Hu : (x * x - x) / (x * x - 1) * (x * x - 1) = x * x - x)
    by (field; lra).
  split; split; apply Rmult_lt_reg_r with (x * x - 1);
    try exact H1; rewrite ?He, ?Hu; nra.
Qed.

Lemma years_of_two_year_schedule (P mr E : R) :
  years (payoffRows P mr E 24 1 0) =
    [payoffRows P mr E 12 1 0; payoffRows P mr E 12 13 12].
Proof. reflexivity. Qed.

(** The two years of the schedule of a loan of [P] at 12% over 24
    months: interest of about 9.4% and 3.5% of [P], principal of about
    47% and 53%. *)
Lemma two_year_schedule (P : R) :
  0 < P ->
  let E := Simplified.calculateEMI P 12 (INR 24) in
  let sched := payoffRows P (12 / 100 / 12) E 24 1 0 in
  exists y1 y2,
    years sched = [y1; y2] /\
    Simplified.totalInterest sched = annualInterest y1 + annualInterest y2 /\
    938 / 10000 * P < annualInterest y1 < 951 / 10000 * P /\
    341 / 10000 * P < annualInterest y2 < 354 / 10000 * P /\
    47 / 100 * P < annualPrincipal y1 /\
    5298 / 10000 * P < annualPrincipal y2.
Proof.
  intros HP E sched.
  exists (payoffRows P (12 / 100 / 12) E 12 1 0),
         (payoffRows P (12 / 100 / 12) E 12 13 12).
  split; [apply years_of_two_year_schedule |].
  assert (Hmr : 12 / 100 / 12 <> 0) by lra.
  unfold annualInterest, annualPrincipal, sched.
  rewrite totalInterest_sumR.
  rewrite !payoffRows_interest, !payoffRows_principal by exact Hmr.
  cbn [Nat.add].
  replace (INR 12) with 12 by (simpl; lra).
  replace (INR 24) with 24 by (simpl; lra).
  destruct (calculateEMI_schedule 0 P 12 24) as (_ & Hz & _);
    [exact HP | lra | lia |].
  cbv zeta in Hz. fold E in Hz. rewrite Hz.
  rewrite unclampedBalance_0 by exact Hmr.
  assert (Hu : unclampedBalance P (12 / 100 / 12) E 12 =
               P * ((1 + 12 / 100 / 12) ^ 24 - (1 + 12 / 100 / 12) ^ 12) /
               ((1 + 12 / 100 / 12) ^ 24 - 1)).
  { unfold E. apply unclampedBalance_calculateEMI; [exact HP | lra | lia]. }
  assert (HE : E = P * (12 / 100 / 12) * (1 + 12 / 100 / 12) ^ 24 /
                   ((1 + 12 / 100 / 12) ^ 24 - 1)).
  { unfold E. apply calculateEMI_whole_months; [exact HP | lra | lia]. }
  pose proof pow12_at_one_percent as Hx.
  replace ((1 + 12 / 100 / 12) ^ 24)
    with ((1 + 12 / 100 / 12) ^ 12 * (1 + 12 / 100 / 12) ^ 12) in Hu, HE
    by ring.
  set (x := (1 + 12 / 100 / 12) ^ 12) in *.
  destruct (two_year_constants x Hx) as [[He1 He2] [Hu1 Hu2]].
  assert (H1 : 0 < x * x - 1) by nra.
  set (u := unclampedBalance P (12 / 100 / 12) E 12) in *.
  assert (HE' : E = P * (12 / 100 / 12 * (x * x) / (x * x - 1)))
    by (rewrite HE; field; lra).
  assert (Hu' : u = P * ((x * x - x) / (x * x - 1)))
    by (rewrite Hu; field; lra).
  assert (HEb : 470 / 10000 * P < E < 471 / 10000 * P) by (rewrite HE'; nra).
  assert (Hub : 5298 / 10000 * P < u < 5299 / 10000 * P) by (rewrite Hu'; nra).
  repeat split; lra.
Qed.

(** The result of [analyzeLoan] on [two_year_inputs]: both schedules by
    years, the interest saved, the investment and its tax. *)
Lemma two_year_inputs_result (res : Simplified.Results) :
  Simplified.analyzeLoan 0 two_year_inputs = Some res ->
  exists y1 y2 z1 z2,
    years (Simplified.originalAmortization res) = [y1; y2] /\
    years (Simplified.prepaidAmortization res) = [z1; z2] /\
    length (Simplified.originalAmortization res) = 24%nat /\
    length (Simplified.prepaidAmortization res) = 24%nat /\
    (469000 < annualInterest y1 < 475500 /\
     170500 < annualInterest y2 < 177000 /\
     2350000 < annualPrincipal y1 /\ 2649000 < annualPrincipal y2) /\
    (375200 < annualInterest z1 < 380400 /\
     136400 < annualInterest z2 < 141600 /\
     1880000 < annualPrincipal z1 /\ 2119200 < annualPrincipal z2) /\
    Simplified.interestSaved res =
      (annualInterest y1 + annualInterest y2)
      - (annualInterest z1 + annualInterest z2) /\
    Simplified.investmentGain res = 210000 /\
    Simplified.investmentTax res = 63000.
Proof.
  intros Hres.
  destruct (analyzeLoan_amortizing 0 two_year_inputs res 24)
    as (_ & Horig & Hsv & Hcase);
    try exact Hres; try (simpl; lra); try lia.
  cbv zeta in Horig, Hcase.
  unfold two_year_inputs in Horig, Hcase.
  cbn [Simplified.loanAmount Simplified.interestRate Simplified.extraCash
       Simplified.prepaymentMethod] in Horig, Hcase.
  change (String.eqb "reduceEmi" "reduceEmi") with true in Hcase.
  cbv iota in Hcase. destruct Hcase as (_ & _ & Ham).
  replace (5000000 - 1000000) with 4000000 in Ham by lra.
  destruct (two_year_schedule 5000000) as (y1 & y2 & Hy & Hty & Hy1 & Hy2 & Hp1 & Hp2);
    [lra |].
  destruct (two_year_schedule 4000000) as (z1 & z2 & Hz & Htz & Hz1 & Hz2 & Hq1 & Hq2);
    [lra |].
  cbv zeta in Hy, Hty, Hz, Htz.
  rewrite <- Horig in Hy, Hty. rewrite <- Ham in Hz, Htz.
  exists y1, y2, z1, z2.
  split; [exact Hy |]. split; [exact Hz |].
  split; [rewrite Horig; apply payoffRows_length |].
  split; [rewrite Ham; apply payoffRows_length |].
  split; [repeat split; lra |]. split; [repeat split; lra |].
  split; [rewrite Hsv, Hty, Htz; reflexivity |].
  destruct (analyzeLoan_Some _ _ _ Hres)
    as (orig & e & t & sv & am & b & _ & _ & _ & _ & _ & _ & _ & _
        & Hgain & Htax & _).
  assert (Hg : Simplified.investmentGain res = 210000).
  { rewrite Hgain. unfold two_year_inputs.
    cbn [Simplified.extraCash Simplified.investmentReturn
         Simplified.tenureYears].
    replace 2 with (INR 2) by (simpl; lra).
    rewrite Math_pow_nat. simpl. field. }
  split; [exact Hg |].
  rewrite Htax, Hg. unfold two_year_inputs.
  cbn [Simplified.investmentType Simplified.taxSlab].
  change (String.eqb "fd" "equity") with false. cbv iota. field.
Qed.

(** The sum of the capped yearly deductions when the first year's
    interest exceeds the cap of 200000, the second year's does not, and
    the principal of either year exceeds the allowance. *)
Lemma two_year_capped (y1 y2 : list Simplified.Row) (allowance slab : R) :
  200000 <= annualInterest y1 -> annualInterest y2 <= 200000 ->
  allowance <= annualPrincipal y1 -> allowance <= annualPrincipal y2 ->
  sumR (map (fun y => (Rmin (annualInterest y) 200000
                       + Rmin (annualPrincipal y) allowance) * slab)
            [y1; y2]) =
    ((200000 + allowance) + (annualInterest y2 + allowance)) * slab.
Proof.
  intros H1 H2 H3 H4. cbn [map sumR fold_right].
  rewrite (Rmin_right (annualInterest y1) 200000) by exact H1.
  rewrite (Rmin_left (annualInterest y2) 200000) by exact H2.
  rewrite (Rmin_right (annualPrincipal y1) allowance) by exact H3.
  rewrite (Rmin_right (annualPrincipal y2) allowance) by exact H4.
  ring.
Qed.

(** On [two_year_inputs]: the first year of either schedule carries more
    than 200000 of interest and is capped, the second carries less and
    is deducted whole; the principal of every year exceeds the allowance
    of 100000 that is left of the 150000. *)
Lemma deduction_caps_per_year_witness :
  exists res y1 y2 z1 z2,
    Simplified.analyzeLoan 0 two_year_inputs = Some res /\
    years (Simplified.originalAmortization res) = [y1; y2] /\
    (200000 < annualInterest y1 /\ annualInterest y2 < 200000 /\
     100000 < annualPrincipal y1 /\ 100000 < annualPrincipal y2) /\
    Simplified.originalLoanTaxBenefit res =
      ((200000 + 100000) + (annualInterest y2 + 100000)) * (30 / 100) /\
    years (Simplified.prepaidAmortization res) = [z1; z2] /\
    (200000 < annualInterest z1 /\ annualInterest z2 < 200000 /\
     100000 < annualPrincipal z1 /\ 100000 < annualPrincipal z2) /\
    Simplified.prepaidLoanTaxBenefit res =
      ((200000 + 100000) + (annualInterest z2 + 100000)) * (30 / 100).
Proof.
  destruct (deduction_caps_per_year 0 two_year_inputs)
    as (_ & Hall & Hret & _).
  destruct Hret as [res Hres]; [left; reflexivity |].
  destruct (Hall eq_refl res Hres) as [Ho Hp].
  destruct (two_year_inputs_result res Hres)
    as (y1 & y2 & z1 & z2 & Hy & Hz & _ & _ & Hyb & Hzb & _).
  exists res, y1, y2, z1, z2.
  rewrite Hy in Ho. rewrite Hz in Hp.
  unfold two_year_inputs in Ho, Hp.
  cbn [Simplified.used80C Simplified.taxSlab] in Ho, Hp.
  replace (Rmax 0 (150000 - 50000)) with 100000 in Ho, Hp
    by (rewrite Rmax_right; lra).
  rewrite two_year_capped in Ho by lra.
  rewrite two_year_capped in Hp by lra.
  split; [exact Hres |]. split; [exact Hy |].
  split; [repeat split; lra |]. split; [exact Ho |].
  split; [exact Hz |]. split; [repeat split; lra |]. exact Hp.
Defined.

Lemma two_year_inputs_benefits (res : Simplified.Results)
    (y1 y2 z1 z2 : list Simplified.Row) :
  Simplified.analyzeLoan 0 two_year_inputs = Some res ->
  years (Simplified.originalAmortization res) = [y1; y2] ->
  years (Simplified.prepaidAmortization res) = [z1; z2] ->
  200000 <= annualInterest y1 -> annualInterest y2 <= 200000 ->
  100000 <= annualPrincipal y1 -> 100000 <= annualPrincipal y2 ->
  200000 <= annualInterest z1 -> annualInterest z2 <= 200000 ->
  100000 <= annualPrincipal z1 -> 100000 <= annualPrincipal z2 ->
  Simplified.originalLoanTaxBenefit res =
    ((200000 + 100000) + (annualInterest y2 + 100000)) * (30 / 100) /\
  Simplified.prepaidLoanTaxBenefit res =
    ((200000 + 100000) + (annualInterest z2 + 100000)) * (30 / 100).
Proof.
  intros Hres Hy Hz Hy1 Hy2 Hp1 Hp2 Hz1 Hz2 Hq1 Hq2.
  destruct (analyzeLoan_Some _ _ _ Hres)
    as (orig & e & t & sv & am & b & _ & Hp & Horig & _ & _ & _ & Ham & Hb
        & _ & _ & _ & Hben).
  apply prepayLoan_Some in Hp. cbv zeta in Hp.
  destruct Hp as [(Hle & _) | (_ & _ & _ & _ & Hbv)].
  { unfold two_year_inputs in Hle.
    cbn [Simplified.loanAmount Simplified.extraCash] in Hle. lra. }
  rewrite Hb, Hbv, Hben.
  unfold two_year_inputs.
  cbn [Simplified.taxRegime Simplified.used80C Simplified.taxSlab].
  change (String.eqb "old" "old") with true. cbv iota.
  rewrite !loanTaxBenefit_total.
  unfold totalTaxBenefit, interestDeduction, principalDeduction,
    remainingPrincipalAllowance, Simplified.SECTION_24B_SOP_LIMIT,
    Simplified.SECTION_80C_LIMIT.
  rewrite <- Horig, <- Ham, Hy, Hz.
  replace (Rmax 0 (150000 - 50000)) with 100000
    by (rewrite Rmax_right; lra).
  rewrite !two_year_capped by assumption.
  split; reflexivity.
Qed.

(** On [two_year_inputs] the deposit earns 210000, 147000 after tax at
    the slab of 30%; prepaying saves at most 140900 of interest and
    lowers the tax benefit by at least 8670: [netBenefitInvesting] is the
    greater and the recommendation is "Invest".  With no loan and no cash
    both net benefits are 0 and the tie goes to "Prepay".  The third
    result is one of the reduce-tenure path: a loan of 1000 at 12% over
    one year, 100 of it prepaid. *)
Lemma decision_comparator_witness :
  (exists res,
     Simplified.analyzeLoan 0 two_year_inputs = Some res /\
     Simplified.postTaxInvestmentGain res = 147000 /\
     Simplified.netBenefitInvesting res - Simplified.netBenefitPrepaying res
       > 14000 /\
     Simplified.betterOption res = "Invest"%string) /\
  (exists res,
     Simplified.analyzeLoan 0 tie_inputs = Some res /\
     Simplified.netBenefitInvesting res = Simplified.netBenefitPrepaying res /\
     Simplified.betterOption res = "Prepay"%string) /\
  (exists res,
     Simplified.analyzeLoan 0 reduce_tenure_inputs = Some res /\
     Simplified.netBenefitInvesting res =
       Simplified.postTaxInvestmentGain res
       + Simplified.originalLoanTaxBenefit res /\
     Simplified.netBenefitPrepaying res =
       Simplified.interestSaved res + Simplified.prepaidLoanTaxBenefit res).
Proof.
  split; [| split].
  - destruct (decision_comparator 0 two_year_inputs tie_inputs_basic)
      as (Hall & Hret & _).
    destruct Hret as [res Hres]; [left; reflexivity |].
    destruct (Hall res Hres) as (Hinv & Hpost & Hpre & Hrule & _).
    destruct (two_year_inputs_result res Hres)
      as (y1 & y2 & z1 & z2 & Hy & Hz & _ & _ & Hyb & Hzb & Hsv & Hg & Ht).
    destruct (two_year_inputs_benefits res y1 y2 z1 z2 Hres Hy Hz)
      as [Hbo Hbp]; try lra.
    exists res. split; [exact Hres |].
    assert (Hp : Simplified.postTaxInvestmentGain res = 147000)
      by (rewrite Hpost, Hg, Ht; lra).
    split; [exact Hp |].
    assert (Hgt : Simplified.netBenefitInvesting res
                  - Simplified.netBenefitPrepaying res > 14000)
      by (rewrite Hinv, Hpre, Hp, Hbo, Hbp, Hsv; lra).
    split; [exact Hgt |]. apply Hrule. lra.
  - destruct (decision_comparator 0 tie_inputs tie_inputs_basic)
      as (Hall & Hret & _).
    destruct Hret as [res Hres]; [right; simpl; lra |].
    destruct (Hall res Hres) as (Hinv & Hpost & Hpre & _ & Hrule).
    exists res. split; [exact Hres |].
    destruct (analyzeLoan_Some _ _ _ Hres)
      as (orig & e & t & sv & am & b & Ho & Hp & Horig & _ & _ & Hsv & _ & Hb
          & Hgain & Htax & _ & Hben).
    rewrite prepayLoan_paid_off in Hp by (simpl; lra).
    injection Hp as <- <- <- <- <-.
    assert (Hempty : orig = []).
    { unfold Simplified.generateFullAmortization in Ho. simpl in Ho.
      destruct (Rle_dec 0 0); [| lra]. congruence. }
    rewrite Hempty in Hsv, Hben. clear Ho Hempty Horig.
    assert (Hg : Simplified.investmentGain res = 0).
    { rewrite Hgain. unfold tie_inputs.
      cbn [Simplified.extraCash Simplified.investmentReturn
           Simplified.tenureYears]. ring. }
    assert (Ht : Simplified.investmentTax res = 0).
    { rewrite Htax, Hg. unfold tie_inputs. cbn [Simplified.investmentType].
      change (String.eqb "equity" "equity") with true. cbv iota.
      unfold Math_max, Simplified.EQUITY_LTCG_EXEMPTION.
      rewrite Rmax_left by lra. ring. }
    unfold tie_inputs in Hben. cbn [Simplified.taxRegime] in Hben.
    change (String.eqb "new" "old") with false in Hben. cbv iota in Hben.
    assert (Heq : Simplified.netBenefitInvesting res =
                  Simplified.netBenefitPrepaying res).
    { rewrite Hinv, Hpost, Hpre, Hg, Ht, Hben, Hsv, Hb.
      unfold Simplified.totalInterest. cbn [fold_left]. ring. }
    split; [exact Heq |].
    apply Hrule. rewrite Heq. apply Rle_refl.
  - destruct (decision_comparator 0 reduce_tenure_inputs tie_inputs_basic)
      as (Hall & _).
    destruct (proj2 (analyzeLoan_returns_iff 0 reduce_tenure_inputs))
      as [res Hres].
    { intros (_ & _ & Hinf).
      apply calculateNewTenure_Infinity_inv in Hinf.
      destruct Hinf as (_ & _ & _ & Hle).
      unfold reduce_tenure_inputs in Hle.
      cbn [Simplified.loanAmount Simplified.extraCash
           Simplified.interestRate Simplified.tenureYears] in Hle.
      pose proof (calculateEMI_gt_interest 1000 12 (1 * 12)) as Hgt.
      lra. }
    exists res. split; [exact Hres |].
    destruct (Hall res Hres) as (Hinv & _ & Hpre & _).
    split; assumption.
Defined.

(** On [two_year_inputs] both schedules have 24 rows, two started years,
    so each tax benefit is at most 2 * (200000 + 100000) * 30 / 100. *)
Lemma tax_benefit_bounds_witness :
  exists res,
    Simplified.analyzeLoan 0 two_year_inputs = Some res /\
    length (Simplified.originalAmortization res) = 24%nat /\
    length (Simplified.prepaidAmortization res) = 24%nat /\
    0 <= Simplified.originalLoanTaxBenefit res <= 180000 /\
    0 <= Simplified.prepaidLoanTaxBenefit res <= 180000.
Proof.
  destruct (tax_benefit_bounds 0 two_year_inputs) as (Hall & Hret & _);
    [reflexivity | simpl; lra | simpl; lra |].
  destruct Hret as [res Hres]; [left; reflexivity |].
  destruct (two_year_inputs_result res Hres)
    as (_ & _ & _ & _ & _ & _ & Hlo & Hlp & _).
  destruct (Hall res Hres) as [Ho Hp].
  rewrite Hlo in Ho. rewrite Hlp in Hp.
  change ((24 + 11) / 12)%nat with 2%nat in Ho, Hp.
  unfold two_year_inputs in Ho, Hp.
  cbn [Simplified.used80C Simplified.taxSlab] in Ho, Hp.
  replace (Rmax 0 (150000 - 50000)) with 100000 in Ho, Hp
    by (rewrite Rmax_right; lra).
  replace (INR 2 * ((200000 + 100000) * (30 / 100))) with 180000 in Ho, Hp
    by (simpl; lra).
  exists res. repeat split; try assumption; lra.
Defined.

(** ** A one-year loan in the first component *)

(** Up to twelve months the yearly schedule of the first component has
    one entry, which carries all the interest and all the principal. *)
Lemma getAmortizationSchedule_one_year (p r : R) (k : nat) :
  0 < p -> 0 < r -> (1 <= k <= 12)%nat ->
  exists row,
    Basic.getAmortizationSchedule p r (INR k) = [row] /\
    Basic.annualInterest row = Basic.calculateEMI p r (INR k) * INR k - p /\
    Basic.annualPrincipal row = p.
Proof.
  intros Hp Hr Hk.
  destruct (getAmortizationSchedule_sums p r k Hp Hr) as (Hi & Hpr & _);
    [lia |].
  cbv zeta in Hi, Hpr.
  assert (Hlen : length (Basic.getAmortizationSchedule p r (INR k)) = 1%nat).
  { unfold Basic.getAmortizationSchedule. cbv zeta. rewrite iterations_INR.
    destruct k as [| k]; [lia |].
    destruct (scheduleLoop_last p (INR (S k)) (r / 100 / 12)
                (Basic.calculateEMI p r (INR (S k))) k eq_refl)
      as (_ & _ & row & Hs & _).
    cbv zeta in Hs. rewrite Hs, length_app. cbn [length].
    rewrite scheduleLoop_length.
    - rewrite Nat.div_small by lia. reflexivity.
    - intros i Hi' Heq. apply INR_eq in Heq. lia. }
  destruct (Basic.getAmortizationSchedule p r (INR k)) as [| row [| ? ?]];
    try discriminate.
  exists row. cbn in Hi, Hpr. split; [reflexivity |]. split; lra.
Qed.

(** Under the old regime the loan of [prepay_inputs_basic] earns a tax
    benefit of at least 30% of its principal of 1000. *)
Lemma prepay_inputs_basic_benefit :
  300 <= Basic.originalLoanTaxBenefit (Basic.analyzeLoan prepay_inputs_basic).
Proof.
  destruct (Basic_analyzeLoan_old_regime prepay_inputs_basic eq_refl)
    as (_ & _ & Hben).
  cbv zeta in Hben. rewrite Basic_deduction_sums in Hben.
  unfold prepay_inputs_basic in Hben.
  cbn [Basic.loanAmount Basic.interestRate Basic.tenureYears
       Basic.isSelfOccupied Basic.isJointLoan Basic.taxSlab] in Hben.
  replace (1 * 12) with (INR 12) in Hben by (simpl; lra).
  destruct (getAmortizationSchedule_one_year 1000 12 12)
    as (row & Hs & Hi & Hp); [lra | lra | lia |].
  rewrite Hs in Hben. cbn [map sumR fold_right] in Hben.
  rewrite Hp in Hben.
  assert (HI : 0 <= Basic.annualInterest row).
  { rewrite Hi. change Basic.calculateEMI with Simplified.calculateEMI.
    rewrite calculateEMI_whole_months by (lra || lia).
    pose proof pow12_at_one_percent as Hx.
    set (x := (1 + 12 / 100 / 12) ^ 12) in *.
    replace (INR 12) with 12 by (simpl; lra).
    assert (H : 84 <= 1000 * (12 / 100 / 12) * x / (x - 1)).
    { apply Rmult_le_reg_r with (x - 1); [lra |].
      replace (1000 * (12 / 100 / 12) * x / (x - 1) * (x - 1))
        with (1000 * (12 / 100 / 12) * x) by (field; lra).
      lra. }
    lra. }
  rewrite (Rmin_left 1000 150000) in Hben by lra.
  assert (Hm : 0 <= Rmin (Basic.annualInterest row) 200000)
    by (apply Rmin_glb; lra).
  unfold prepay_inputs_basic. rewrite Hben. lra.
Qed.

(** The two-year loan under the new regime: both totals are 0, where the
    old regime gives more than 150000 each.  In the first component a
    loan of 1000: 0 under the new regime, at least 300 under the old. *)
Lemma new_regime_no_tax_benefit_witness :
  (exists res,
     Simplified.analyzeLoan 0 two_year_new_inputs = Some res /\
     Simplified.originalLoanTaxBenefit res = 0 /\
     Simplified.prepaidLoanTaxBenefit res = 0) /\
  (exists res,
     Simplified.analyzeLoan 0 two_year_inputs = Some res /\
     150000 < Simplified.originalLoanTaxBenefit res /\
     150000 < Simplified.prepaidLoanTaxBenefit res) /\
  (Basic.originalLoanTaxBenefit (Basic.analyzeLoan new_regime_inputs_basic) = 0 /\
   Basic.prepaidLoanTaxBenefit (Basic.analyzeLoan new_regime_inputs_basic) = 0) /\
  300 <= Basic.originalLoanTaxBenefit (Basic.analyzeLoan prepay_inputs_basic).
Proof.
  destruct (new_regime_no_tax_benefit 0 two_year_new_inputs
              new_regime_inputs_basic) as (Hall & Hret & _ & Hbasic).
  split; [| split; [| split]].
  - destruct Hret as [res Hres]; [left; reflexivity |].
    exists res. split; [exact Hres |]. exact (Hall eq_refl res Hres).
  - destruct (analyzeLoan_finite_bound_returns 0 two_year_inputs)
      as [res Hres]; [left; reflexivity |].
    destruct (two_year_inputs_result res Hres)
      as (y1 & y2 & z1 & z2 & Hy & Hz & _ & _ & Hyb & Hzb & _).
    destruct (two_year_inputs_benefits res y1 y2 z1 z2 Hres Hy Hz)
      as [Hbo Hbp]; try lra.
    exists res. split; [exact Hres |]. rewrite Hbo, Hbp. split; lra.
  - exact (Hbasic eq_refl).
  - exact prepay_inputs_basic_benefit.
Defined.
